(** * A shallow embedding of the bencoding decoder of [src/bencoding.py]

    The decoder is a recursive-descent parser with one character of
    lookahead.  The Python class keeps three mutable fields ([_data],
    [_index], [_char]); here they are a record threaded through a small
    state-and-exception monad.  Python exceptions are an explicit [Raise]
    outcome, the two [while] loops and the recursion take fuel, and the
    adequacy lemmas below show that the fuel [decode] supplies is never
    exhausted.  A heap of instances, at the end of the model, is the
    state in which calls of [decode] follow one another.

    Two limits of the CPython interpreter are outside the model: the
    recursion limit (deeply nested input) and the limit on the number of
    digits [int] converts from a string.  Python integers are modelled by
    [Z]. *)

From Stdlib Require Import List ZArith Lia Bool Arith PeanoNat.
From Stdlib Require Import Strings.Ascii Strings.String Strings.Byte.
Import ListNotations.

Local Open Scope list_scope.
Set Warnings "-register-all".

(** ** Data model *)

Module Bencoding.

Definition bytes := list byte.

(** [BencodedValue = Union[bytes, int, List[...], Dict[bytes, ...]]].
    A Python [dict] keeps its keys unique and in insertion order: it is an
    association list maintained by [setitem] below. *)
Inductive BencodedValue : Type :=
| Bytes (b : bytes)
| Int (n : Z)
| BList (l : list BencodedValue)
| BDict (d : list (bytes * BencodedValue)).

Definition dict := list (bytes * BencodedValue).

Definition bytes_eqb (a b : bytes) : bool :=
  if list_eq_dec Byte.byte_eq_dec a b then true else false.

(** [dictionary[key] = value]: an existing key keeps its place and takes
    the new value, a new key goes last. *)
Fixpoint setitem (dictionary : dict) (key : bytes) (value : BencodedValue) : dict :=
  match dictionary with
  | [] => [(key, value)]
  | (k, v) :: rest =>
      if bytes_eqb k key then (k, value) :: rest
      else (k, v) :: setitem rest key value
  end.

Fixpoint getitem (dictionary : dict) (key : bytes) : option BencodedValue :=
  match dictionary with
  | [] => None
  | (k, v) :: rest => if bytes_eqb k key then Some v else getitem rest key
  end.

(** ** Exceptions

    Every [raise] of the source is a [ValueError] told apart by its
    message; [IndexError] is what [self._data[self._index]] raises out of
    range.  The [TypeError] of [__init__] cannot occur: the input type
    here is [bytes]. *)
Inductive message : Type :=
| EmptyData       (* "Empty data provided" *)
| ExtraData       (* "Extra data found after valid bencoding" *)
| Expected (expected_char : ascii) (position : nat) (got : option ascii)
                  (* "Expected '..' at position .., got '..'" *)
| NotBencoding    (* "Given data does not follow bencoding format" *)
| EndOfDataDict   (* "Unexpected end of data while parsing dictionary" *)
| EndOfDataList   (* "Unexpected end of data while parsing list" *)
| NegativeZero    (* "Negative zero not allowed in bencoding" *)
| LeadingZeros    (* "Leading zeros not allowed in bencoding integers" *)
| NoDigit.        (* "Expected at least one digit in the bencoding integer" *)

Inductive exception : Type :=
| ValueError (msg : message)
| IndexError.

Inductive outcome (A : Type) : Type :=
| Return (a : A)
| Raise (e : exception)
| OutOfFuel.

Arguments Return {A} a.
Arguments Raise {A} e.
Arguments OutOfFuel {A}.

(** ** The decoder object and its monad *)

Record Decoder : Type := mkDecoder {
  _data : bytes;
  _index : nat;
  _char : option ascii
}.

Definition M (A : Type) : Type := Decoder -> outcome (A * Decoder).

Definition ret {A : Type} (a : A) : M A := fun self => Return (a, self).

Definition bind {A B : Type} (m : M A) (k : A -> M B) : M B :=
  fun self =>
    match m self with
    | Return (a, self') => k a self'
    | Raise e => Raise e
    | OutOfFuel => OutOfFuel
    end.

Definition raise {A : Type} (e : exception) : M A := fun _ => Raise e.

Definition out_of_fuel {A : Type} : M A := fun _ => OutOfFuel.

Declare Scope decoder_scope.
Delimit Scope decoder_scope with dec.
Notation "x <- c1 ;; c2" := (bind c1 (fun x => c2))
  (at level 61, c1 at next level, right associativity) : decoder_scope.
Notation "c1 ;; c2" := (bind c1 (fun _ => c2))
  (at level 61, right associativity) : decoder_scope.
Local Open Scope decoder_scope.

(** [chr(b)] for a byte: the one-character string with that code point. *)
Definition chr (b : byte) : ascii := ascii_of_byte b.

(** [self._char == c]; [None] equals no character. *)
Definition char_is (char : option ascii) (c : ascii) : bool :=
  match char with
  | Some a => Ascii.eqb a c
  | None => false
  end.

(** [str.isdigit] on one character of code point below 256: the ten ASCII
    digits and the superscripts two, three and one (U+00B2, U+00B3,
    U+00B9). *)
Definition isdigit (c : ascii) : bool :=
  let n := nat_of_ascii c in
  ((48 <=? n) && (n <=? 57)) || (n =? 178) || (n =? 179) || (n =? 185).

(** [self._char and self._char.isdigit()] *)
Definition char_isdigit (char : option ascii) : bool :=
  match char with
  | Some a => isdigit a
  | None => false
  end.

(** The lookahead stored after a move to [index]:
    [chr(data[index])] if [index < len(data)], else [None]. *)
Definition char_at (data : bytes) (index : nat) : option ascii :=
  if index <? List.length data then option_map chr (nth_error data index)
  else None.

Definition __init__ (bencoded_data : bytes) : outcome Decoder :=
  match bencoded_data with
  | [] => Raise (ValueError EmptyData)
  | b :: _ => Return (mkDecoder bencoded_data 0 (Some (chr b)))
  end.

Definition _consume (expected_char : ascii) : M unit :=
  fun self =>
    if char_is (_char self) expected_char then
      let index := S (_index self) in
      Return (tt, mkDecoder (_data self) index (char_at (_data self) index))
    else
      Raise (ValueError (Expected expected_char (_index self) (_char self))).

(** <CHAR> ::= % (anything) *)
Definition _decode_char : M byte :=
  fun self =>
    match nth_error (_data self) (_index self) with
    | None => Raise IndexError
    | Some byte_val =>
        let index := S (_index self) in
        Return (byte_val,
                mkDecoder (_data self) index (char_at (_data self) index))
    end.

(** [str(num)] for [num] in [range(10)]. *)
Definition str_of_digit (num : nat) : ascii := ascii_of_nat (48 + num).

(** <DIGIT>: the [for num in range(10)] loop, over the numbers left. *)
Fixpoint digit_loop (nums : list nat) : M nat :=
  match nums with
  | [] => raise (ValueError NotBencoding)
  | num :: rest =>
      fun self =>
        if char_is (_char self) (str_of_digit num) then
          (_consume (str_of_digit num) ;; ret num) self
        else digit_loop rest self
  end.

Definition _decode_digit : M nat := digit_loop (seq 0 10).

(** [int(num)] on a string of ASCII digits. *)
Fixpoint int_acc (num : string) (acc : Z) : Z :=
  match num with
  | EmptyString => acc
  | String c rest => int_acc rest (10 * acc + (Z.of_nat (nat_of_ascii c) - 48))
  end.

Definition int (num : string) : Z := int_acc num 0.

Definition str_append_digit (num : string) (d : nat) : string :=
  (num ++ String (str_of_digit d) EmptyString)%string.

(** [while self._char and self._char.isdigit(): num += str(self._decode_digit())] *)
Fixpoint num_loop (fuel : nat) (num : string) : M string :=
  fun self =>
    if char_isdigit (_char self) then
      match fuel with
      | 0 => OutOfFuel
      | S fuel' =>
          (d <- _decode_digit ;; num_loop fuel' (str_append_digit num d)) self
      end
    else Return (num, self).

(** The digits [_decode_num] reads into [num]: a single "0", or the
    digits up to the first other character. *)
Definition num_digits (fuel : nat) : M string :=
  fun self =>
    if char_is (_char self) "0" then
      (d <- _decode_digit ;;
       fun self' =>
         if char_isdigit (_char self') then Raise (ValueError LeadingZeros)
         else Return (str_append_digit EmptyString d, self')) self
    else num_loop fuel EmptyString self.

(** <NUM> ::= 1 * <DIGIT> *)
Definition _decode_num (fuel : nat) : M Z :=
  num <- num_digits fuel ;;
  match num with
  | EmptyString => raise (ValueError NoDigit)
  | _ => ret (int num)
  end.

(** <SNUM> ::= "-" <NUM> / <NUM> *)
Definition _decode_snum (fuel : nat) : M Z :=
  fun self =>
    if char_isdigit (_char self) then _decode_num fuel self
    else if char_is (_char self) "-" then
      (_consume "-" ;;
       fun self' =>
         if char_is (_char self') "0" then Raise (ValueError NegativeZero)
         else (value <- _decode_num fuel ;; ret (- value)%Z) self') self
    else Raise (ValueError NotBencoding).

(** <INT> ::= "i" <SNUM> "e" *)
Definition _decode_int (fuel : nat) : M Z :=
  _consume "i" ;;
  value <- _decode_snum fuel ;;
  _consume "e" ;;
  ret value.

(** [for _ in range(num): byte_data.append(self._decode_char())] *)
Fixpoint chars_loop (num : nat) (byte_data : bytes) : M bytes :=
  match num with
  | 0 => ret byte_data
  | S num' =>
      byte_val <- _decode_char ;;
      chars_loop num' (byte_data ++ [byte_val])
  end.

(** <STR> ::= <NUM> ":" n * <CHAR> *)
Definition _decode_str (fuel : nat) : M bytes :=
  num <- _decode_num fuel ;;
  _consume ":" ;;
  chars_loop (Z.to_nat num) [].

(** The [while True] loop of [_decode_dict]; [rec] is [_decode_bencode]. *)
Fixpoint dict_loop (rec : M BencodedValue) (fuel k : nat) (dictionary : dict)
  : M dict :=
  match k with
  | 0 => out_of_fuel
  | S k' =>
      fun self =>
        match _char self with
        | None => Raise (ValueError EndOfDataDict)
        | Some _ =>
            (key <- _decode_str fuel ;;
             value <- rec ;;
             let dictionary := setitem dictionary key value in
             fun self' =>
               if char_is (_char self') "e" then Return (dictionary, self')
               else dict_loop rec fuel k' dictionary self') self
        end
  end.

(** <DICT> ::= "d" 1 * (<STR> <BE>) "e" *)
Definition _decode_dict (rec : M BencodedValue) (fuel : nat) : M dict :=
  _consume "d" ;;
  dictionary <- dict_loop rec fuel fuel [] ;;
  _consume "e" ;;
  ret dictionary.

(** The [while True] loop of [_decode_list]. *)
Fixpoint list_loop (rec : M BencodedValue) (k : nat)
  (b_list : list BencodedValue) : M (list BencodedValue) :=
  match k with
  | 0 => out_of_fuel
  | S k' =>
      fun self =>
        match _char self with
        | None => Raise (ValueError EndOfDataList)
        | Some _ =>
            (value <- rec ;;
             let b_list := b_list ++ [value] in
             fun self' =>
               if char_is (_char self') "e" then Return (b_list, self')
               else list_loop rec k' b_list self') self
        end
  end.

(** <LIST> ::= "l" 1 * <BE> "e" *)
Definition _decode_list (rec : M BencodedValue) (fuel : nat)
  : M (list BencodedValue) :=
  _consume "l" ;;
  b_list <- list_loop rec fuel [] ;;
  _consume "e" ;;
  ret b_list.

(** <BE> ::= <DICT> | <LIST> | <INT> | <STR> *)
Fixpoint _decode_bencode (fuel : nat) : M BencodedValue :=
  match fuel with
  | 0 => out_of_fuel
  | S n =>
      fun self =>
        if char_is (_char self) "d" then
          (value <- _decode_dict (_decode_bencode n) n ;; ret (BDict value)) self
        else if char_is (_char self) "l" then
          (value <- _decode_list (_decode_bencode n) n ;; ret (BList value)) self
        else if char_is (_char self) "i" then
          (value <- _decode_int n ;; ret (Int value)) self
        else if char_isdigit (_char self) then
          (value <- _decode_str n ;; ret (Bytes value)) self
        else Raise (ValueError NotBencoding)
  end.

(** [Decoder.decode]: the fuel is one more than the number of bytes. *)
Definition decode_with (fuel : nat) (bencoded_data : bytes)
  : outcome BencodedValue :=
  match __init__ bencoded_data with
  | Return decoder =>
      match _decode_bencode fuel decoder with
      | Return (result, decoder') =>
          match _char decoder' with
          | Some _ => Raise (ValueError ExtraData)
          | None => Return result
          end
      | Raise e => Raise e
      | OutOfFuel => OutOfFuel
      end
  | Raise e => Raise e
  | OutOfFuel => OutOfFuel
  end.

Definition decode (bencoded_data : bytes) : outcome BencodedValue :=
  decode_with (S (List.length bencoded_data)) bencoded_data.

(** ** The instances of the class

    [decode] is a static method: every call makes a [Decoder] of its own,
    and each attribute a method reads or assigns is an attribute of
    [self].  The class has no attribute of its own and the module no
    variable, so the instances that exist are all the state that one
    call could share with another.  A heap lists them by address, and
    [Decoder_decode] is [decode] as a call that starts in a heap and
    leaves one. *)
Definition Heap := list Decoder.

(** [heap[address] = obj] *)
Fixpoint store (heap : Heap) (address : nat) (obj : Decoder) : Heap :=
  match heap, address with
  | [], _ => []
  | _ :: rest, 0 => obj :: rest
  | o :: rest, S address' => o :: store rest address' obj
  end.

(** [Decoder(bencoded_data)]: a new instance, set up by [__init__], at
    the next address; none is left when [__init__] raises. *)
Definition new (bencoded_data : bytes) (heap : Heap) : outcome nat * Heap :=
  match __init__ bencoded_data with
  | Return self => (Return (List.length heap), heap ++ [self])
  | Raise e => (Raise e, heap)
  | OutOfFuel => (OutOfFuel, heap)
  end.

(** The method call [self.m()]: [m] runs on the attributes of the
    instance at [self], and what it assigns is stored there.  When [m]
    raises, the instance is kept as it was before the call: [Raise]
    carries no state, and [decode], which catches nothing, does not read
    that instance again.  (An address with no instance does not occur;
    the model stops there.) *)
Definition call {A : Type} (self : nat) (m : M A) (heap : Heap)
  : outcome A * Heap :=
  match nth_error heap self with
  | Some obj =>
      match m obj with
      | Return (a, obj') => (Return a, store heap self obj')
      | Raise e => (Raise e, heap)
      | OutOfFuel => (OutOfFuel, heap)
      end
  | None => (OutOfFuel, heap)
  end.

(** [decoder._char], read in the heap. *)
Definition char_of (decoder : nat) (heap : Heap) : option ascii :=
  match nth_error heap decoder with
  | Some obj => _char obj
  | None => None
  end.

(** [Decoder.decode(bencoded_data)] in a heap. *)
Definition Decoder_decode (bencoded_data : bytes) (heap : Heap)
  : outcome BencodedValue * Heap :=
  match new bencoded_data heap with
  | (Return decoder, heap) =>
      match call decoder (_decode_bencode (S (List.length bencoded_data)))
                 heap with
      | (Return result, heap) =>
          match char_of decoder heap with
          | Some _ => (Raise (ValueError ExtraData), heap)
          | None => (Return result, heap)
          end
      | (Raise e, heap) => (Raise e, heap)
      | (OutOfFuel, heap) => (OutOfFuel, heap)
      end
  | (Raise e, heap) => (Raise e, heap)
  | (OutOfFuel, heap) => (OutOfFuel, heap)
  end.

End Bencoding.

Import Bencoding.
Local Open Scope decoder_scope.

(** * Vocabulary of the proofs *)

(** Byte-string literals of the examples: [b"..."]. *)
Definition b (s : string) : bytes := list_byte_of_string s.

(** The lookahead is the character at [_index], or [None] at the end. *)
Definition cursor_ok (self : Decoder) : Prop :=
  _index self <= List.length (_data self) /\
  _char self = char_at (_data self) (_index self).

(** The bytes from the cursor to the end of the buffer. *)
Definition remaining (self : Decoder) : nat :=
  List.length (_data self) - _index self.

(** What a completed operation leaves: the invariant, the same buffer and
    a cursor at least [min] bytes further. *)
Definition moved {A : Type} (min : nat) (self : Decoder)
  (_ : A) (self' : Decoder) : Prop :=
  cursor_ok self' /\ _data self' = _data self /\
  _index self + min <= _index self'.

(** The exceptions the parsing methods raise: all but the two of
    [__init__] and [decode]. *)
Definition of_methods (e : exception) : Prop :=
  e <> ValueError EmptyData /\ e <> ValueError ExtraData.

(** A Hoare triple of the monad at one state: the operation returns in
    [Q], or raises in [E]; it does not run out of fuel. *)
Definition triple {A : Type} (m : M A) (self : Decoder)
  (Q : A -> Decoder -> Prop) (E : exception -> Prop) : Prop :=
  match m self with
  | Return (a, self') => Q a self'
  | Raise e => E e
  | OutOfFuel => False
  end.

(** [t] is the state [s] of a buffer, seen in the larger buffer that has
    [pre] before it and [post] after it. *)
Definition embeds (pre post : bytes) (s t : Decoder) : Prop :=
  _data t = pre ++ _data s ++ post /\
  _index t = List.length pre + _index s /\
  cursor_ok s /\ cursor_ok t.

(** An operation keeps the embedding on the runs that return... *)
Definition framed (pre post : bytes) {A} (m : M A) : Prop :=
  forall s t a s', embeds pre post s t -> m s = Return (a, s') ->
    exists t', m t = Return (a, t') /\ embeds pre post s' t'.

(** ... or on those that return before the end of the small buffer. *)
Definition framed_inside (pre post : bytes) {A} (m : M A) : Prop :=
  forall s t a s', embeds pre post s t -> m s = Return (a, s') ->
    _char s' <> None ->
    exists t', m t = Return (a, t') /\ embeds pre post s' t'.

(** [m'] is [m] with more fuel: it agrees with [m] wherever [m] had
    enough. *)
Definition fuel_le {A} (m m' : M A) : Prop :=
  forall self, m self <> OutOfFuel -> m' self = m self.

(** The decoder at [index] of [data], its lookahead derived. *)
Definition at_index (data : bytes) (index : nat) : Decoder :=
  mkDecoder data index (char_at data index).

(** The end of an iteration of [_decode_list]: [break] on ["e"], or loop. *)
Definition list_after (rec : M BencodedValue) (k : nat)
  (b_list : list BencodedValue) : M (list BencodedValue) :=
  fun self =>
    if char_is (_char self) "e" then Return (b_list, self)
    else list_loop rec k b_list self.

(** The end of an iteration of [_decode_dict]. *)
Definition dict_after (rec : M BencodedValue) (fuel k : nat)
  (dictionary : dict) : M dict :=
  fun self =>
    if char_is (_char self) "e" then Return (dictionary, self)
    else dict_loop rec fuel k dictionary self.

(** The bytes of a sequence of key and value buffers. *)
Definition pairs_bytes (pairs : list (bytes * bytes)) : bytes :=
  List.concat (map (fun p => fst p ++ snd p) pairs).

(** The dictionary after the assignments [dictionary[key] = value], in
    order. *)
Definition setitems (dictionary : dict) (kvs : list (bytes * BencodedValue))
  : dict :=
  fold_left (fun acc kv => setitem acc (fst kv) (snd kv)) kvs dictionary.

(** A key buffer and a value buffer that decode to a key and a value. *)
Definition pair_decodes (p : bytes * bytes) (kv : bytes * BencodedValue)
  : Prop :=
  decode (fst p) = Return (Bytes (fst kv)) /\ decode (snd p) = Return (snd kv).

(** The end of [decode]: bytes left after the value are an error. *)
Definition finish (r : outcome (BencodedValue * Decoder))
  : outcome BencodedValue :=
  match r with
  | Return (result, decoder') =>
      match _char decoder' with
      | Some _ => Raise (ValueError ExtraData)
      | None => Return result
      end
  | Raise e => Raise e
  | OutOfFuel => OutOfFuel
  end.

(** Well-formed values, as the grammar of the module's docstring has
    them: a list has at least one element and a dictionary at least one
    pair; the keys of a [dict] are distinct. *)
Fixpoint well_formed (v : BencodedValue) : Prop :=
  match v with
  | Bytes _ => True
  | Int _ => True
  | BList l =>
      l <> [] /\
      (fix all (l : list BencodedValue) : Prop :=
         match l with
         | [] => True
         | x :: rest => well_formed x /\ all rest
         end) l
  | BDict d =>
      d <> [] /\ NoDup (map fst d) /\
      (fix all (d : list (bytes * BencodedValue)) : Prop :=
         match d with
         | [] => True
         | (_, x) :: rest => well_formed x /\ all rest
         end) d
  end.

(** The characters ["0"] to ["9"], the only ones [_decode_digit] takes. *)
Definition ascii_digit (c : ascii) : bool :=
  let n := nat_of_ascii c in (48 <=? n) && (n <=? 57).

(** [ascii_digit] on the lookahead. *)
Definition char_ascii_digit (char : option ascii) : bool :=
  match char with
  | Some a => ascii_digit a
  | None => false
  end.

(** The first character of the rest of a buffer, if any. *)
Definition first_char (rest : bytes) : option ascii :=
  option_map chr (hd_error rest).

(** ** Decimal numerals

    A numeral is the list of its digits, the most significant first; on
    the wire each digit is the byte of its character. *)
Definition digit_byte (d : nat) : byte :=
  match Byte.of_nat (48 + d) with
  | Some x => x
  | None => x00
  end.

Definition digit_bytes (ds : list nat) : bytes := map digit_byte ds.

Definition digits_value (ds : list nat) : Z :=
  fold_left (fun acc d => (10 * acc + Z.of_nat d)%Z) ds 0%Z.

(** The numerals [_decode_num] takes: at least one digit, and no zero in
    front of another digit. *)
Definition canonical (ds : list nat) : Prop :=
  Forall (fun d => d < 10) ds /\
  match ds with
  | [] => False
  | 0 :: _ :: _ => False
  | _ => True
  end.

(** The string [num] after the digits [ds] are added to it. *)
Definition append_digits (num : string) (ds : list nat) : string :=
  fold_left str_append_digit ds num.

(** The keys of a [dict] built by assignments, in the order in which they
    first occur. *)
Definition first_keys (keys seen : list bytes) : list bytes :=
  fold_left
    (fun acc k =>
       if in_dec (list_eq_dec Byte.byte_eq_dec) k acc then acc
       else acc ++ [k]) keys seen.

(** The value of the last pair of [kvs] with key [key], or [default]. *)
Definition last_value (kvs : list (bytes * BencodedValue)) (key : bytes)
  (default : option BencodedValue) : option BencodedValue :=
  fold_left
    (fun r kv => if bytes_eqb (fst kv) key then Some (snd kv) else r)
    kvs default.

(** The converse of [framed]: a run in the larger buffer that returns
    with at least the bytes of [post] left is a run of the small buffer. *)
Definition framed_back (pre post : bytes) {A} (m : M A) : Prop :=
  forall s t a t', embeds pre post s t -> m t = Return (a, t') ->
    _index t' + List.length post <= List.length (_data t') ->
    exists s', m s = Return (a, s') /\ embeds pre post s' t'.

(** The same for a run that returns with more than [post] left. *)
Definition framed_back_inside (pre post : bytes) {A} (m : M A) : Prop :=
  forall s t a t', embeds pre post s t -> m t = Return (a, t') ->
    _index t' + List.length post < List.length (_data t') ->
    exists s', m s = Return (a, s') /\ embeds pre post s' t'.

(** The bytes of [data] from [i] up to [j]. *)
Definition slice (data : bytes) (i j : nat) : bytes :=
  firstn (j - i) (skipn i data).

(** The values with no dictionary inside. *)
Fixpoint dict_free (v : BencodedValue) : Prop :=
  match v with
  | Bytes _ => True
  | Int _ => True
  | BList l =>
      (fix all (l : list BencodedValue) : Prop :=
         match l with
         | [] => True
         | x :: rest => dict_free x /\ all rest
         end) l
  | BDict _ => False
  end.

(** ** Data that end inside a container *)

(** The two messages of a container's loop that finds no lookahead. *)
Definition end_of_data (m : message) : Prop :=
  m = EndOfDataList \/ m = EndOfDataDict.

(** [unterminated data m]: the data end where an iteration of a
    container's loop would start, and [m] is the message of that loop.
    The container is a list cut after ["l"] and any number of elements
    that decode, or a dictionary cut after ["d"] and any number of pairs
    that decode; it is the whole of the data, or stands where the next
    element of a list, or the value after a key of a dictionary, is
    read, at any depth. *)
Inductive unterminated : bytes -> message -> Prop :=
| unterminated_list elems :
    Forall (fun d => exists v, decode d = Return v) elems ->
    unterminated (b "l" ++ List.concat elems) EndOfDataList
| unterminated_dict pairs :
    Forall (fun p => exists kv, pair_decodes p kv) pairs ->
    unterminated (b "d" ++ pairs_bytes pairs) EndOfDataDict
| unterminated_in_list elems inner m :
    Forall (fun d => exists v, decode d = Return v) elems ->
    unterminated inner m ->
    unterminated (b "l" ++ List.concat elems ++ inner) m
| unterminated_in_dict pairs key k inner m :
    Forall (fun p => exists kv, pair_decodes p kv) pairs ->
    decode key = Return (Bytes k) ->
    unterminated inner m ->
    unterminated (b "d" ++ pairs_bytes pairs ++ key ++ inner) m.

(** The operation raises neither of the two messages. *)
Definition no_end_of_data {A : Type} (c : M A) : Prop :=
  forall self m, end_of_data m -> c self <> Raise (ValueError m).

(** * Lemmas *)

(** ** The cursor invariant *)

Section HoareRules.
Context {A B : Type}.

Lemma triple_bind (m : M A) (k : A -> M B) self
  (Q : A -> Decoder -> Prop) (R : B -> Decoder -> Prop) E :
  triple m self Q E ->
  (forall a self', Q a self' -> triple (k a) self' R E) ->
  triple (bind m k) self R E.
Proof.
  unfold triple, bind. intros Hm Hk.
  destruct (m self) as [[a self']| |]; auto.
  apply Hk; assumption.
Qed.

Lemma triple_weaken (m : M A) self (Q Q' : A -> Decoder -> Prop) E :
  triple m self Q E ->
  (forall a self', Q a self' -> Q' a self') ->
  triple m self Q' E.
Proof.
  unfold triple. intros Hm HQ.
  destruct (m self) as [[a self']| |]; auto.
Qed.

Lemma triple_ret (a : A) self (Q : A -> Decoder -> Prop) E :
  Q a self -> triple (ret a) self Q E.
Proof. intro H; exact H. Qed.

Lemma triple_raise e self (Q : A -> Decoder -> Prop) (E : exception -> Prop) :
  E e -> triple (raise e) self Q E.
Proof. intro H; exact H. Qed.
End HoareRules.

Lemma moved_refl {A} self (a : A) : cursor_ok self -> moved 0 self a self.
Proof. intro H. split; [exact H | split; [reflexivity | lia]]. Qed.

Lemma moved_trans {A B C} k m n self self' self'' (a : A) (c : B) (d : C) :
  moved m self a self' -> moved n self' c self'' -> k <= m + n ->
  moved k self d self''.
Proof.
  unfold moved. intros (_ & Hd & Hi) (Hok & Hd' & Hi') Hk.
  split; [exact Hok | split; [congruence | lia]].
Qed.

Lemma moved_le {A C} m n self self' (a : A) (c : C) :
  n <= m -> moved m self a self' -> moved n self c self'.
Proof.
  unfold moved. intros Hle (Hok & Hd & Hi).
  split; [exact Hok | split; [exact Hd | lia]].
Qed.

Lemma moved_remaining {A} min self self' (a : A) :
  moved min self a self' -> remaining self' + min <= remaining self.
Proof.
  unfold moved, remaining, cursor_ok. intros ((Hle & _) & Hd & Hi).
  rewrite Hd in *. lia.
Qed.

(** *** The lookahead *)

Lemma char_at_inside data index :
  index < List.length data ->
  exists byte_val, nth_error data index = Some byte_val /\
                   char_at data index = Some (chr byte_val).
Proof.
  intro Hlt. unfold char_at.
  destruct (Nat.ltb_spec index (List.length data)) as [_|Hge]; [|lia].
  destruct (nth_error data index) as [byte_val|] eqn:Hnth.
  - exists byte_val. split; reflexivity.
  - apply nth_error_None in Hnth. lia.
Qed.

Lemma char_at_end data index :
  List.length data <= index -> char_at data index = None.
Proof.
  intro Hge. unfold char_at.
  destruct (Nat.ltb_spec index (List.length data)); [lia | reflexivity].
Qed.

Lemma cursor_some self c :
  cursor_ok self -> _char self = Some c ->
  _index self < List.length (_data self).
Proof.
  intros [Hle Hc] Hs.
  destruct (Nat.lt_ge_cases (_index self) (List.length (_data self))) as [|Hge]; auto.
  rewrite (char_at_end _ _ Hge) in Hc. congruence.
Qed.

Lemma cursor_none self :
  cursor_ok self ->
  (_char self = None <-> _index self = List.length (_data self)).
Proof.
  intros [Hle Hc]. split.
  - intro Hn.
    destruct (Nat.lt_ge_cases (_index self) (List.length (_data self))) as [Hlt|Hge]; [|lia].
    destruct (char_at_inside _ _ Hlt) as (x & _ & Hs). congruence.
  - intro He. rewrite Hc. apply char_at_end. lia.
Qed.

Lemma char_is_some char c : char_is char c = true -> char = Some c.
Proof.
  destruct char as [a|]; simpl; [|discriminate].
  intro H. apply Ascii.eqb_eq in H. congruence.
Qed.

Lemma char_isdigit_some char :
  char_isdigit char = true -> exists c, char = Some c /\ isdigit c = true.
Proof. destruct char as [a|]; simpl; [eauto | discriminate]. Qed.

Lemma moved_step {A} self (a : A) :
  cursor_ok self -> _index self < List.length (_data self) ->
  moved 1 self a
    (mkDecoder (_data self) (S (_index self))
                (char_at (_data self) (S (_index self)))).
Proof.
  intros Hok Hlt. unfold moved, cursor_ok; simpl.
  repeat split; try reflexivity; lia.
Qed.

Lemma of_methods_value msg :
  msg <> EmptyData -> msg <> ExtraData -> of_methods (ValueError msg).
Proof. intros H1 H2. split; congruence. Qed.

Lemma of_methods_index : of_methods IndexError.
Proof. split; discriminate. Qed.

#[local] Hint Resolve of_methods_index : core.
#[local] Hint Extern 1 (of_methods (ValueError _)) =>
  (apply of_methods_value; discriminate) : core.

(** *** The operations keep the invariant *)

Lemma consume_triple expected_char self :
  cursor_ok self ->
  triple (_consume expected_char) self (moved 1 self) of_methods.
Proof.
  intro Hok. unfold triple, _consume.
  destruct (char_is (_char self) expected_char) eqn:Hc; auto.
  apply char_is_some in Hc.
  apply moved_step; eauto using cursor_some.
Qed.

Lemma decode_char_triple self :
  cursor_ok self ->
  triple _decode_char self (moved 1 self) of_methods.
Proof.
  intro Hok. unfold triple, _decode_char.
  destruct (nth_error (_data self) (_index self)) eqn:Hn; auto.
  apply moved_step; auto.
  apply nth_error_Some. congruence.
Qed.

Lemma digit_loop_triple nums self :
  cursor_ok self ->
  triple (digit_loop nums) self (moved 1 self) of_methods.
Proof.
  intro Hok. induction nums as [|num rest IH]; simpl.
  - apply triple_raise. auto.
  - unfold triple in *.
    destruct (char_is (_char self) (str_of_digit num)) eqn:Hc; auto.
    apply (triple_bind _ _ _ (moved 1 self)).
    + apply consume_triple; assumption.
    + intros a self' Hm. apply triple_ret. exact Hm.
Qed.

Lemma decode_digit_triple self :
  cursor_ok self ->
  triple _decode_digit self (moved 1 self) of_methods.
Proof. apply digit_loop_triple. Qed.

(** Chains two moves found among the hypotheses. *)
Ltac chain :=
  match goal with
  | H1 : moved _ ?s _ ?s1, H2 : moved _ ?s1 _ ?s2 |- moved _ ?s _ ?s2 =>
      apply (moved_trans _ _ _ _ _ _ _ _ _ H1 H2); lia
  | H1 : moved _ ?s _ ?s1 |- moved _ ?s _ ?s1 =>
      eapply moved_le; [|exact H1]; lia
  end.

Ltac less_left :=
  match goal with
  | H : moved _ ?s _ ?s1 |- remaining ?s1 <= _ =>
      pose proof (moved_remaining _ _ _ _ H); lia
  | H : moved _ ?s _ ?s1 |- remaining ?s1 < _ =>
      pose proof (moved_remaining _ _ _ _ H); lia
  end.

Lemma num_loop_triple fuel : forall num self,
  cursor_ok self -> remaining self <= fuel ->
  triple (num_loop fuel num) self (moved 0 self) of_methods.
Proof.
  induction fuel as [|fuel IH]; intros num self Hok Hrem;
    unfold triple; simpl;
    destruct (char_isdigit (_char self)) eqn:Hd;
    try (apply moved_refl; assumption).
  - apply char_isdigit_some in Hd. destruct Hd as (c & Hc & _).
    pose proof (cursor_some _ _ Hok Hc). unfold remaining in Hrem. lia.
  - apply (triple_bind _ _ _ (moved 1 self)).
    + apply decode_digit_triple; assumption.
    + intros d s1 H1.
      apply (triple_weaken _ _ (moved 0 s1)).
      * apply IH; [apply H1 | less_left].
      * intros num' s2 H2. chain.
Qed.

Lemma decode_num_triple fuel self :
  cursor_ok self -> remaining self <= fuel ->
  triple (_decode_num fuel) self (moved 0 self) of_methods.
Proof.
  intros Hok Hrem. unfold _decode_num.
  apply (triple_bind _ _ _ (moved 0 self)).
  - unfold triple, num_digits.
    destruct (char_is (_char self) "0") eqn:Hz.
    + apply (triple_bind _ _ _ (moved 1 self)).
      * apply decode_digit_triple; assumption.
      * intros d s1 H1. unfold triple.
        destruct (char_isdigit (_char s1)); auto. chain.
    + apply num_loop_triple; assumption.
  - intros num s1 H1. destruct num.
    + apply triple_raise. auto.
    + apply triple_ret. chain.
Qed.

Lemma decode_snum_triple fuel self :
  cursor_ok self -> remaining self <= fuel ->
  triple (_decode_snum fuel) self (moved 0 self) of_methods.
Proof.
  intros Hok Hrem. unfold triple, _decode_snum.
  destruct (char_isdigit (_char self)).
  - apply decode_num_triple; assumption.
  - destruct (char_is (_char self) "-"); auto.
    apply (triple_bind _ _ _ (moved 1 self)).
    + apply consume_triple; assumption.
    + intros [] s1 H1. unfold triple.
      destruct (char_is (_char s1) "0"); auto.
      apply (triple_bind _ _ _ (moved 0 s1)).
      * apply decode_num_triple; [apply H1 | less_left].
      * intros value s2 H2. apply triple_ret. chain.
Qed.

Lemma decode_int_triple fuel self :
  cursor_ok self -> remaining self <= S fuel ->
  triple (_decode_int fuel) self (moved 1 self) of_methods.
Proof.
  intros Hok Hrem. unfold _decode_int.
  apply (triple_bind _ _ _ (moved 1 self)).
  { apply consume_triple; assumption. }
  intros [] s1 H1.
  apply (triple_bind _ _ _ (moved 0 s1)).
  { apply decode_snum_triple; [apply H1 | less_left]. }
  intros value s2 H2.
  apply (triple_bind _ _ _ (moved 1 s2)).
  { apply consume_triple; apply H2. }
  intros [] s3 H3. apply triple_ret.
  assert (H12 : moved 1 self tt s2) by chain. chain.
Qed.

Lemma chars_loop_triple num : forall byte_data self,
  cursor_ok self ->
  triple (chars_loop num byte_data) self (moved 0 self) of_methods.
Proof.
  induction num as [|num IH]; intros byte_data self Hok; simpl.
  - apply triple_ret, moved_refl, Hok.
  - apply (triple_bind _ _ _ (moved 1 self)).
    + apply decode_char_triple; assumption.
    + intros byte_val s1 H1.
      apply (triple_weaken _ _ (moved 0 s1)).
      * apply IH, H1.
      * intros r s2 H2. chain.
Qed.

Lemma decode_str_triple fuel self :
  cursor_ok self -> remaining self <= fuel ->
  triple (_decode_str fuel) self (moved 1 self) of_methods.
Proof.
  intros Hok Hrem. unfold _decode_str.
  apply (triple_bind _ _ _ (moved 0 self)).
  { apply decode_num_triple; assumption. }
  intros num s1 H1.
  apply (triple_bind _ _ _ (moved 1 s1)).
  { apply consume_triple, H1. }
  intros [] s2 H2.
  assert (H12 : moved 1 self tt s2) by chain.
  apply (triple_weaken _ _ (moved 0 s2)).
  - apply chars_loop_triple, H2.
  - intros r s3 H3. chain.
Qed.

(** The two containers, for any decoder of values [rec] that behaves on
    every state with fewer than [n] bytes left. *)
Section Containers.
Variable rec : M BencodedValue.
Variable n : nat.
Hypothesis rec_triple : forall self,
  cursor_ok self -> remaining self < n ->
  triple rec self (moved 1 self) of_methods.

Lemma dict_loop_triple k : forall dictionary self,
  cursor_ok self -> remaining self < k -> remaining self < n ->
  triple (dict_loop rec n k dictionary) self (moved 1 self) of_methods.
Proof.
  induction k as [|k IH]; intros dictionary self Hok Hk Hn; [lia|].
  unfold triple; simpl.
  destruct (_char self) eqn:Hc; auto.
  apply (triple_bind _ _ _ (moved 1 self)).
  { apply decode_str_triple; [assumption | lia]. }
  intros key s1 H1.
  apply (triple_bind _ _ _ (moved 1 s1)).
  { apply rec_triple; [apply H1 | less_left]. }
  intros value s2 H2. unfold triple.
  assert (H12 : moved 2 self tt s2) by chain.
  destruct (char_is (_char s2) "e").
  - chain.
  - apply (triple_weaken _ _ (moved 1 s2)).
    + apply IH; [apply H2 | less_left | less_left].
    + intros r s3 H3. chain.
Qed.

Lemma decode_dict_triple self :
  cursor_ok self -> remaining self <= n ->
  triple (_decode_dict rec n) self (moved 1 self) of_methods.
Proof.
  intros Hok Hn. unfold _decode_dict.
  apply (triple_bind _ _ _ (moved 1 self)).
  { apply consume_triple; assumption. }
  intros [] s1 H1.
  apply (triple_bind _ _ _ (moved 1 s1)).
  { apply dict_loop_triple; [apply H1 | less_left | less_left]. }
  intros dictionary s2 H2.
  assert (H12 : moved 1 self tt s2) by chain.
  apply (triple_bind _ _ _ (moved 1 s2)).
  { apply consume_triple, H2. }
  intros [] s3 H3. apply triple_ret. chain.
Qed.

Lemma list_loop_triple k : forall b_list self,
  cursor_ok self -> remaining self < k -> remaining self < n ->
  triple (list_loop rec k b_list) self (moved 1 self) of_methods.
Proof.
  induction k as [|k IH]; intros b_list self Hok Hk Hn; [lia|].
  unfold triple; simpl.
  destruct (_char self) eqn:Hc; auto.
  apply (triple_bind _ _ _ (moved 1 self)).
  { apply rec_triple; assumption. }
  intros value s1 H1. unfold triple.
  destruct (char_is (_char s1) "e").
  - exact H1.
  - apply (triple_weaken _ _ (moved 1 s1)).
    + apply IH; [apply H1 | less_left | less_left].
    + intros r s2 H2. chain.
Qed.

Lemma decode_list_triple self :
  cursor_ok self -> remaining self <= n ->
  triple (_decode_list rec n) self (moved 1 self) of_methods.
Proof.
  intros Hok Hn. unfold _decode_list.
  apply (triple_bind _ _ _ (moved 1 self)).
  { apply consume_triple; assumption. }
  intros [] s1 H1.
  apply (triple_bind _ _ _ (moved 1 s1)).
  { apply list_loop_triple; [apply H1 | less_left | less_left]. }
  intros b_list s2 H2.
  assert (H12 : moved 1 self tt s2) by chain.
  apply (triple_bind _ _ _ (moved 1 s2)).
  { apply consume_triple, H2. }
  intros [] s3 H3. apply triple_ret. chain.
Qed.
End Containers.

(** With more fuel than bytes left, [_decode_bencode] returns or raises;
    a returned state satisfies the invariant and is at least one byte
    further in the same buffer. *)
Lemma decode_bencode_triple fuel : forall self,
  cursor_ok self -> remaining self < fuel ->
  triple (_decode_bencode fuel) self (moved 1 self) of_methods.
Proof.
  induction fuel as [|n IH]; intros self Hok Hrem; [lia|].
  unfold triple; simpl.
  destruct (char_is (_char self) "d").
  { apply (triple_bind _ _ _ (moved 1 self)).
    - apply decode_dict_triple; [exact IH | assumption | lia].
    - intros value s1 H1. apply triple_ret. chain. }
  destruct (char_is (_char self) "l").
  { apply (triple_bind _ _ _ (moved 1 self)).
    - apply decode_list_triple; [exact IH | assumption | lia].
    - intros value s1 H1. apply triple_ret. chain. }
  destruct (char_is (_char self) "i").
  { apply (triple_bind _ _ _ (moved 1 self)).
    - apply decode_int_triple; [assumption | lia].
    - intros value s1 H1. apply triple_ret. chain. }
  destruct (char_isdigit (_char self)); auto.
  apply (triple_bind _ _ _ (moved 1 self)).
  - apply decode_str_triple; [assumption | lia].
  - intros value s1 H1. apply triple_ret. chain.
Qed.

Lemma init_cursor_ok bencoded_data decoder :
  __init__ bencoded_data = Return decoder ->
  cursor_ok decoder /\ _data decoder = bencoded_data /\ _index decoder = 0.
Proof.
  destruct bencoded_data as [|x rest]; simpl; [discriminate|].
  intro H. injection H as <-. unfold cursor_ok; simpl.
  repeat split; lia.
Qed.

(** ** Inversion of the monad's operations *)

Lemma bind_inv {A B} (m : M A) (k : A -> M B) self r self'' :
  bind m k self = Return (r, self'') ->
  exists a self', m self = Return (a, self') /\ k a self' = Return (r, self'').
Proof.
  unfold bind. destruct (m self) as [[a self']| |]; try discriminate.
  intro H. exists a, self'. split; [reflexivity | exact H].
Qed.

Lemma consume_inv expected_char self u self' :
  _consume expected_char self = Return (u, self') ->
  _char self = Some expected_char /\
  self' = mkDecoder (_data self) (S (_index self))
                    (char_at (_data self) (S (_index self))).
Proof.
  unfold _consume.
  destruct (char_is (_char self) expected_char) eqn:Hc; [|discriminate].
  intro H. injection H as _ <-. split; [apply char_is_some, Hc | reflexivity].
Qed.

Lemma char_is_refl c : char_is (Some c) c = true.
Proof. simpl. apply Ascii.eqb_refl. Qed.

Lemma consume_return c self :
  _char self = Some c ->
  _consume c self =
  Return (tt, mkDecoder (_data self) (S (_index self))
                        (char_at (_data self) (S (_index self)))).
Proof. intro H. unfold _consume. rewrite H, char_is_refl. reflexivity. Qed.

(** ** Decoding inside a larger buffer

    A run that returns on a buffer returns the same value when the buffer
    sits between [pre] and [post] in a larger one and the cursor is moved
    by the length of [pre]. *)
Section Frame.
Variables pre post : bytes.

Lemma embeds_nth s t :
  embeds pre post s t -> _index s < List.length (_data s) ->
  nth_error (_data t) (_index t) = nth_error (_data s) (_index s) /\
  _index t < List.length (_data t).
Proof.
  intros (Hd & Hi & _ & _) Hlt. rewrite Hd, Hi. split.
  - rewrite nth_error_app2 by lia.
    replace (List.length pre + _index s - List.length pre) with (_index s) by lia.
    apply nth_error_app1. assumption.
  - rewrite !length_app. lia.
Qed.

Lemma embeds_some s t c :
  embeds pre post s t -> _char s = Some c -> _char t = Some c.
Proof.
  intros He Hc. pose proof He as (_ & _ & Hs & Ht).
  pose proof (cursor_some _ _ Hs Hc) as Hlt.
  destruct (embeds_nth _ _ He Hlt) as [Hn Hlt'].
  destruct Ht as [_ Ht]. destruct Hs as [_ Hs].
  rewrite Ht. rewrite Hs in Hc. rewrite <- Hc.
  unfold char_at.
  destruct (Nat.ltb_spec (_index t) (List.length (_data t))); [|lia].
  destruct (Nat.ltb_spec (_index s) (List.length (_data s))); [|lia].
  rewrite Hn. reflexivity.
Qed.

Lemma embeds_char s t :
  embeds pre post s t -> _char s = None \/ _char t = _char s.
Proof.
  intro He. destruct (_char s) as [c|] eqn:Hc; [right|left; reflexivity].
  eapply embeds_some; eassumption.
Qed.

Lemma embeds_step s t :
  embeds pre post s t -> _index s < List.length (_data s) ->
  embeds pre post (mkDecoder (_data s) (S (_index s))
                    (char_at (_data s) (S (_index s))))
         (mkDecoder (_data t) (S (_index t))
                    (char_at (_data t) (S (_index t)))).
Proof.
  intros He Hlt. destruct (embeds_nth _ _ He Hlt) as [_ Hlt'].
  destruct He as (Hd & Hi & Hs & Ht).
  unfold embeds, cursor_ok; simpl.
  repeat split; try assumption; try reflexivity; lia.
Qed.

Lemma consume_framed c : framed pre post (_consume c).
Proof.
  intros s t u s' He H. apply consume_inv in H. destruct H as [Hc ->].
  rewrite (consume_return c t (embeds_some _ _ _ He Hc)).
  destruct u. eexists. split; [reflexivity|].
  apply embeds_step; [assumption|].
  destruct He as (_ & _ & Hs & _). eapply cursor_some; eassumption.
Qed.

Lemma decode_char_framed : framed pre post _decode_char.
Proof.
  intros s t x s' He H. unfold _decode_char in *.
  destruct (nth_error (_data s) (_index s)) as [byte_val|] eqn:Hn;
    [|discriminate].
  injection H as <- <-.
  assert (Hlt : _index s < List.length (_data s))
    by (apply nth_error_Some; congruence).
  destruct (embeds_nth _ _ He Hlt) as [Hn' _]. rewrite Hn', Hn.
  eexists. split; [reflexivity|]. apply embeds_step; assumption.
Qed.

Lemma bind_framed {A B} (m : M A) (k : A -> M B) :
  framed pre post m -> (forall a, framed pre post (k a)) -> framed pre post (bind m k).
Proof.
  intros Hm Hk s t r s'' He H.
  apply bind_inv in H. destruct H as (a & s' & H1 & H2).
  destruct (Hm _ _ _ _ He H1) as (t' & Ht & He').
  destruct (Hk a _ _ _ _ He' H2) as (t'' & Ht' & He'').
  exists t''. split; [|assumption].
  unfold bind. rewrite Ht. exact Ht'.
Qed.

Lemma ret_framed {A} (a : A) : framed pre post (ret a).
Proof.
  intros s t r s' He H. injection H as <- <-.
  exists t. split; [reflexivity | assumption].
Qed.

Lemma digit_loop_framed nums : framed pre post (digit_loop nums).
Proof.
  induction nums as [|num rest IH]; intros s t d s' He H; simpl in *.
  - discriminate.
  - destruct (char_is (_char s) (str_of_digit num)) eqn:Hc.
    + pose proof (embeds_some _ _ _ He (char_is_some _ _ Hc)) as Ht.
      rewrite Ht, char_is_refl.
      exact (bind_framed _ _ (consume_framed _) (fun _ => ret_framed _)
               _ _ _ _ He H).
    + destruct (embeds_char _ _ He) as [Hn|Hs].
      * clear -H Hn. exfalso.
        induction rest as [|x rest IH]; simpl in H; [discriminate|].
        rewrite Hn in H. simpl in H. auto.
      * rewrite Hs, Hc. eapply IH; eassumption.
Qed.

Lemma decode_digit_framed : framed pre post _decode_digit.
Proof. apply digit_loop_framed. Qed.

Lemma num_loop_at_end fuel num s :
  _char s = None -> num_loop fuel num s = Return (num, s).
Proof. intro Hn. destruct fuel; simpl; rewrite Hn; reflexivity. Qed.

Lemma num_loop_framed fuel : forall num, framed_inside pre post (num_loop fuel num).
Proof.
  induction fuel as [|fuel IH]; intros num s t num' s' He H Hne;
    simpl in H |- *;
    destruct (char_isdigit (_char s)) eqn:Hd; try discriminate.
  - injection H as <- <-.
    destruct (embeds_char _ _ He) as [Hn|Hs]; [contradiction|].
    rewrite Hs, Hd. eauto.
  - destruct (char_isdigit_some _ Hd) as (c & Hc & _).
    rewrite (embeds_some _ _ _ He Hc), <- Hc, Hd.
    apply bind_inv in H. destruct H as (d & s1 & H1 & H2).
    destruct (decode_digit_framed _ _ _ _ He H1) as (t1 & Ht1 & He1).
    destruct (IH _ _ _ _ _ He1 H2 Hne) as (t' & Ht' & He').
    exists t'. split; [|assumption].
    unfold bind. rewrite Ht1. exact Ht'.
  - injection H as <- <-.
    destruct (embeds_char _ _ He) as [Hn|Hs]; [contradiction|].
    rewrite Hs, Hd. eauto.
Qed.

Lemma num_digits_framed fuel : framed_inside pre post (num_digits fuel).
Proof.
  intros s t num s' He H Hne. unfold num_digits in *.
  destruct (embeds_char _ _ He) as [Hn|Hs].
  - rewrite Hn in H. simpl in H. rewrite (num_loop_at_end _ _ _ Hn) in H.
    injection H as <- <-. contradiction.
  - rewrite Hs. destruct (char_is (_char s) "0").
    + apply bind_inv in H. destruct H as (d & s1 & H1 & H2).
      destruct (decode_digit_framed _ _ _ _ He H1) as (t1 & Ht1 & He1).
      unfold bind. rewrite Ht1.
      destruct (char_isdigit (_char s1)) eqn:Hd; [discriminate|].
      injection H2 as <- <-.
      destruct (embeds_char _ _ He1) as [Hn1|Hs1]; [contradiction|].
      rewrite Hs1, Hd. eauto.
    + eapply num_loop_framed; eassumption.
Qed.

Lemma decode_num_framed fuel : framed_inside pre post (_decode_num fuel).
Proof.
  intros s t value s' He H Hne. unfold _decode_num in *.
  apply bind_inv in H. destruct H as (num & s1 & H1 & H2).
  destruct num as [|c num]; [discriminate|].
  injection H2 as <- <-.
  destruct (num_digits_framed _ _ _ _ _ He H1 Hne) as (t1 & Ht1 & He1).
  exists t1. split; [|assumption].
  unfold bind. rewrite Ht1. reflexivity.
Qed.

Lemma decode_snum_framed fuel : framed_inside pre post (_decode_snum fuel).
Proof.
  intros s t value s' He H Hne. unfold _decode_snum in *.
  destruct (embeds_char _ _ He) as [Hn|Hs].
  { rewrite Hn in H. discriminate. }
  rewrite Hs. destruct (char_isdigit (_char s)).
  { eapply decode_num_framed; eassumption. }
  destruct (char_is (_char s) "-"); [|discriminate].
  apply bind_inv in H. destruct H as ([] & s1 & H1 & H2).
  destruct (consume_framed _ _ _ _ _ He H1) as (t1 & Ht1 & He1).
  unfold bind at 1. rewrite Ht1.
  destruct (embeds_char _ _ He1) as [Hn1|Hs1].
  { rewrite Hn1 in H2. simpl in H2.
    apply bind_inv in H2. destruct H2 as (v & s2 & H2 & _).
    apply bind_inv in H2. destruct H2 as (num & s3 & H2 & H3).
    unfold num_digits in H2. rewrite Hn1 in H2. simpl in H2.
    rewrite (num_loop_at_end _ _ _ Hn1) in H2.
    injection H2 as <- <-. discriminate. }
  rewrite Hs1. destruct (char_is (_char s1) "0"); [discriminate|].
  apply bind_inv in H2. destruct H2 as (v & s2 & H2 & H3).
  injection H3 as <- <-.
  destruct (decode_num_framed _ _ _ _ _ He1 H2 Hne) as (t2 & Ht2 & He2).
  exists t2. split; [|assumption].
  unfold bind. rewrite Ht2. reflexivity.
Qed.

Lemma decode_int_framed fuel : framed pre post (_decode_int fuel).
Proof.
  intros s t value s' He H. unfold _decode_int in *.
  apply bind_inv in H. destruct H as ([] & s1 & H1 & H).
  apply bind_inv in H. destruct H as (v & s2 & H2 & H).
  apply bind_inv in H. destruct H as ([] & s3 & H3 & H).
  injection H as <- <-.
  destruct (consume_framed _ _ _ _ _ He H1) as (t1 & Ht1 & He1).
  assert (Hne : _char s2 <> None).
  { apply consume_inv in H3. destruct H3 as [Hc _]. congruence. }
  destruct (decode_snum_framed _ _ _ _ _ He1 H2 Hne) as (t2 & Ht2 & He2).
  destruct (consume_framed _ _ _ _ _ He2 H3) as (t3 & Ht3 & He3).
  exists t3. split; [|assumption].
  unfold bind. rewrite Ht1, Ht2, Ht3. reflexivity.
Qed.

Lemma chars_loop_framed num : forall byte_data,
  framed pre post (chars_loop num byte_data).
Proof.
  induction num as [|num IH]; intro byte_data; simpl.
  - apply ret_framed.
  - apply bind_framed; [apply decode_char_framed | intro; apply IH].
Qed.

Lemma decode_str_framed fuel : framed pre post (_decode_str fuel).
Proof.
  intros s t value s' He H. unfold _decode_str in *.
  apply bind_inv in H. destruct H as (num & s1 & H1 & H).
  apply bind_inv in H. destruct H as ([] & s2 & H2 & H3).
  assert (Hne : _char s1 <> None).
  { apply consume_inv in H2. destruct H2 as [Hc _]. congruence. }
  destruct (decode_num_framed _ _ _ _ _ He H1 Hne) as (t1 & Ht1 & He1).
  destruct (consume_framed _ _ _ _ _ He1 H2) as (t2 & Ht2 & He2).
  destruct (chars_loop_framed _ _ _ _ _ _ He2 H3) as (t3 & Ht3 & He3).
  exists t3. split; [|assumption].
  unfold bind. rewrite Ht1, Ht2. exact Ht3.
Qed.

Section FramedContainers.
Variable rec : M BencodedValue.
Hypothesis rec_framed : framed pre post rec.

Lemma dict_loop_framed fuel k : forall dictionary,
framed pre post (dict_loop rec fuel k dictionary).
Proof.
induction k as [|k IH]; intros dictionary s t r s' He H;
  simpl in H |- *; [discriminate|].
destruct (_char s) as [c|] eqn:Hc; [|discriminate].
rewrite (embeds_some _ _ _ He Hc).
apply bind_inv in H. destruct H as (key & s1 & H1 & H).
apply bind_inv in H. destruct H as (value & s2 & H2 & H3).
destruct (decode_str_framed _ _ _ _ _ He H1) as (t1 & Ht1 & He1).
destruct (rec_framed _ _ _ _ He1 H2) as (t2 & Ht2 & He2).
unfold bind. rewrite Ht1, Ht2.
destruct (embeds_char _ _ He2) as [Hn|Hs].
- rewrite Hn in H3. simpl in H3.
  destruct k; simpl in H3; [|rewrite Hn in H3]; discriminate.
- rewrite Hs. destruct (char_is (_char s2) "e").
  + injection H3 as <- <-. eauto.
  + eapply IH; eassumption.
Qed.

Lemma decode_dict_framed fuel : framed pre post (_decode_dict rec fuel).
Proof.
unfold _decode_dict.
apply bind_framed; [apply consume_framed | intros _].
apply bind_framed; [apply dict_loop_framed | intro dictionary].
apply bind_framed; [apply consume_framed | intros _].
apply ret_framed.
Qed.

Lemma list_loop_framed k : forall b_list,
framed pre post (list_loop rec k b_list).
Proof.
induction k as [|k IH]; intros b_list s t r s' He H;
  simpl in H |- *; [discriminate|].
destruct (_char s) as [c|] eqn:Hc; [|discriminate].
rewrite (embeds_some _ _ _ He Hc).
apply bind_inv in H. destruct H as (value & s1 & H1 & H2).
destruct (rec_framed _ _ _ _ He H1) as (t1 & Ht1 & He1).
unfold bind. rewrite Ht1.
destruct (embeds_char _ _ He1) as [Hn|Hs].
- rewrite Hn in H2. simpl in H2.
  destruct k; simpl in H2; [|rewrite Hn in H2]; discriminate.
- rewrite Hs. destruct (char_is (_char s1) "e").
  + injection H2 as <- <-. eauto.
  + eapply IH; eassumption.
Qed.

Lemma decode_list_framed fuel : framed pre post (_decode_list rec fuel).
Proof.
unfold _decode_list.
apply bind_framed; [apply consume_framed | intros _].
apply bind_framed; [apply list_loop_framed | intro b_list].
apply bind_framed; [apply consume_framed | intros _].
apply ret_framed.
Qed.
End FramedContainers.

Lemma decode_bencode_framed fuel : framed pre post (_decode_bencode fuel).
Proof.
  induction fuel as [|n IH]; intros s t value s' He H;
    simpl in H |- *; [discriminate|].
  destruct (embeds_char _ _ He) as [Hn|Hs].
  { rewrite Hn in H. discriminate. }
  rewrite Hs.
  destruct (char_is (_char s) "d").
  { revert H. apply bind_framed; [|intro; apply ret_framed|assumption].
    apply decode_dict_framed, IH. }
  destruct (char_is (_char s) "l").
  { revert H. apply bind_framed; [|intro; apply ret_framed|assumption].
    apply decode_list_framed, IH. }
  destruct (char_is (_char s) "i").
  { revert H. apply bind_framed; [|intro; apply ret_framed|assumption].
    apply decode_int_framed. }
  destruct (char_isdigit (_char s)); [|discriminate].
  revert H. apply bind_framed; [|intro; apply ret_framed|assumption].
  apply decode_str_framed.
Qed.
End Frame.

(** ** More fuel does not change a run that had enough *)

Lemma fuel_le_refl {A} (m : M A) : fuel_le m m.
Proof. intros self _. reflexivity. Qed.

Lemma fuel_le_bind {A B} (m m' : M A) (k k' : A -> M B) :
  fuel_le m m' -> (forall a, fuel_le (k a) (k' a)) ->
  fuel_le (bind m k) (bind m' k').
Proof.
  intros Hm Hk self H. unfold bind in *.
  specialize (Hm self).
  destruct (m self) as [[a self']| |].
  - rewrite Hm by discriminate. apply Hk, H.
  - rewrite Hm by discriminate. reflexivity.
  - congruence.
Qed.

Lemma num_loop_fuel_le fuel : forall fuel' num,
  fuel <= fuel' -> fuel_le (num_loop fuel num) (num_loop fuel' num).
Proof.
  induction fuel as [|fuel IH]; intros fuel' num Hle self H.
  - simpl in *. destruct fuel'; simpl;
      destruct (char_isdigit (_char self)); congruence.
  - destruct fuel' as [|fuel']; [lia|]. simpl in *.
    destruct (char_isdigit (_char self)); [|reflexivity].
    revert H. apply fuel_le_bind; [apply fuel_le_refl|].
    intro d. apply IH. lia.
Qed.

Lemma num_digits_fuel_le fuel fuel' :
  fuel <= fuel' -> fuel_le (num_digits fuel) (num_digits fuel').
Proof.
  intros Hle self H. unfold num_digits in *.
  destruct (char_is (_char self) "0"); [reflexivity|].
  apply num_loop_fuel_le; assumption.
Qed.

Lemma decode_num_fuel_le fuel fuel' :
  fuel <= fuel' -> fuel_le (_decode_num fuel) (_decode_num fuel').
Proof.
  intro Hle. unfold _decode_num.
  apply fuel_le_bind; [apply num_digits_fuel_le, Hle|].
  intro num. apply fuel_le_refl.
Qed.

Lemma decode_snum_fuel_le fuel fuel' :
  fuel <= fuel' -> fuel_le (_decode_snum fuel) (_decode_snum fuel').
Proof.
  intros Hle self H. unfold _decode_snum in *.
  destruct (char_isdigit (_char self)).
  { apply decode_num_fuel_le; assumption. }
  destruct (char_is (_char self) "-"); [|reflexivity].
  revert H. apply fuel_le_bind; [apply fuel_le_refl|].
  intros _ self' H. cbv beta in *.
  destruct (char_is (_char self') "0"); [reflexivity|].
  revert H. apply fuel_le_bind; [apply decode_num_fuel_le, Hle|].
  intro. apply fuel_le_refl.
Qed.

Lemma decode_int_fuel_le fuel fuel' :
  fuel <= fuel' -> fuel_le (_decode_int fuel) (_decode_int fuel').
Proof.
  intro Hle. unfold _decode_int.
  apply fuel_le_bind; [apply fuel_le_refl | intros _].
  apply fuel_le_bind; [apply decode_snum_fuel_le, Hle | intro].
  apply fuel_le_refl.
Qed.

Lemma decode_str_fuel_le fuel fuel' :
  fuel <= fuel' -> fuel_le (_decode_str fuel) (_decode_str fuel').
Proof.
  intro Hle. unfold _decode_str.
  apply fuel_le_bind; [apply decode_num_fuel_le, Hle | intro].
  apply fuel_le_refl.
Qed.

Section FuelContainers.
Variables rec rec' : M BencodedValue.
Hypothesis rec_le : fuel_le rec rec'.

Lemma dict_loop_fuel_le fuel fuel' k : forall k' dictionary,
  fuel <= fuel' -> k <= k' ->
  fuel_le (dict_loop rec fuel k dictionary)
          (dict_loop rec' fuel' k' dictionary).
Proof.
  induction k as [|k IH]; intros k' dictionary Hf Hk self H;
    [simpl in H; unfold out_of_fuel in H; congruence|].
  destruct k' as [|k']; [lia|]. simpl in *.
  destruct (_char self); [|reflexivity].
  revert H. apply fuel_le_bind; [apply decode_str_fuel_le, Hf | intro key].
  apply fuel_le_bind; [apply rec_le | intro value].
  intros self' H. cbv beta in *.
  destruct (char_is (_char self') "e"); [reflexivity|].
  apply IH; [assumption | lia | assumption].
Qed.

Lemma list_loop_fuel_le k : forall k' b_list,
  k <= k' ->
  fuel_le (list_loop rec k b_list) (list_loop rec' k' b_list).
Proof.
  induction k as [|k IH]; intros k' b_list Hk self H;
    [simpl in H; unfold out_of_fuel in H; congruence|].
  destruct k' as [|k']; [lia|]. simpl in *.
  destruct (_char self); [|reflexivity].
  revert H. apply fuel_le_bind; [apply rec_le | intro value].
  intros self' H. cbv beta in *.
  destruct (char_is (_char self') "e"); [reflexivity|].
  apply IH; [lia | assumption].
Qed.
End FuelContainers.

Lemma decode_bencode_fuel_le fuel : forall fuel',
  fuel <= fuel' -> fuel_le (_decode_bencode fuel) (_decode_bencode fuel').
Proof.
  induction fuel as [|n IH]; intros fuel' Hle self H;
    [simpl in H; unfold out_of_fuel in H; congruence|].
  destruct fuel' as [|n']; [lia|]. simpl in *.
  assert (Hn : n <= n') by lia.
  destruct (char_is (_char self) "d").
  { revert H. apply fuel_le_bind; [|intro; apply fuel_le_refl].
    unfold _decode_dict.
    apply fuel_le_bind; [apply fuel_le_refl | intros _].
    apply fuel_le_bind; [|intro; apply fuel_le_refl].
    apply dict_loop_fuel_le; auto. }
  destruct (char_is (_char self) "l").
  { revert H. apply fuel_le_bind; [|intro; apply fuel_le_refl].
    unfold _decode_list.
    apply fuel_le_bind; [apply fuel_le_refl | intros _].
    apply fuel_le_bind; [|intro; apply fuel_le_refl].
    apply list_loop_fuel_le; auto. }
  destruct (char_is (_char self) "i").
  { revert H. apply fuel_le_bind; [|intro; apply fuel_le_refl].
    apply decode_int_fuel_le, Hn. }
  destruct (char_isdigit (_char self)); [|reflexivity].
  revert H. apply fuel_le_bind; [|intro; apply fuel_le_refl].
  apply decode_str_fuel_le, Hn.
Qed.

(** ** Runs of [decode] *)

Lemma cursor_ok_at data index :
  index <= List.length data -> cursor_ok (at_index data index).
Proof. intro H. split; [exact H | reflexivity]. Qed.

Lemma cursor_ok_eq self :
  cursor_ok self -> self = at_index (_data self) (_index self).
Proof. destruct self as [d i c]. intros [_ Hc]. simpl in *. subst c. reflexivity. Qed.

Lemma init_nonempty data :
  data <> [] -> __init__ data = Return (at_index data 0).
Proof. destruct data as [|x rest]; [congruence | reflexivity]. Qed.

Lemma at_index_char data index :
  _char (at_index data index) = char_at data index.
Proof. reflexivity. Qed.

Lemma char_at_index_end data : _char (at_index data (List.length data)) = None.
Proof. simpl. apply char_at_end. lia. Qed.

(** [decode] returns exactly when the run from offset 0 returns at the end
    of the buffer. *)
Lemma decode_return data v :
  decode data = Return v <->
  data <> [] /\
  _decode_bencode (S (List.length data)) (at_index data 0)
  = Return (v, at_index data (List.length data)).
Proof.
  unfold decode, decode_with. split.
  - destruct data as [|x rest] eqn:Hd; [discriminate|]. rewrite <- Hd.
    assert (Hne : data <> []) by congruence.
    rewrite (init_nonempty _ Hne).
    assert (Hr : remaining (at_index data 0) < S (List.length data))
      by (unfold remaining; simpl; lia).
    pose proof (decode_bencode_triple _ _
                  (cursor_ok_at _ _ (Nat.le_0_l _)) Hr) as Ht.
    unfold triple in Ht.
    destruct (_decode_bencode (S (List.length data)) (at_index data 0))
      as [[result decoder']| |]; try discriminate.
    destruct Ht as (Hok & Hdata & _).
    destruct (_char decoder') eqn:Hc; [discriminate|].
    intro H. injection H as <-. split; [assumption|].
    apply (cursor_none _ Hok) in Hc.
    rewrite (cursor_ok_eq _ Hok), Hc, Hdata. reflexivity.
  - intros [Hne H]. rewrite (init_nonempty _ Hne), H, char_at_index_end.
    reflexivity.
Qed.

Lemma decode_with_enough fuel data :
  List.length data < fuel -> decode_with fuel data = decode data.
Proof.
  intro Hf. unfold decode, decode_with.
  destruct (__init__ data) as [decoder| |] eqn:Hi; try reflexivity.
  destruct (init_cursor_ok _ _ Hi) as (Hok & Hd & Hx).
  assert (Hr : remaining decoder < S (List.length data))
    by (unfold remaining; rewrite Hd, Hx; lia).
  pose proof (decode_bencode_triple _ _ Hok Hr) as Ht.
  unfold triple in Ht.
  rewrite (decode_bencode_fuel_le (S (List.length data)) fuel ltac:(lia)).
  - reflexivity.
  - intro Ho. rewrite Ho in Ht. exact Ht.
Qed.

(** A buffer that decodes to [v] decodes to [v] wherever it occurs inside
    a larger buffer, and moves the cursor by its length. *)
Lemma decode_embedded data v pre post fuel :
  decode data = Return v -> List.length data < fuel ->
  _decode_bencode fuel (at_index (pre ++ data ++ post) (List.length pre))
  = Return (v, at_index (pre ++ data ++ post)
                        (List.length pre + List.length data)).
Proof.
  intros Hdec Hf. apply decode_return in Hdec. destruct Hdec as [Hne Hrun].
  assert (He : embeds pre post (at_index data 0)
                 (at_index (pre ++ data ++ post) (List.length pre))).
  { split; [reflexivity | split; [simpl; lia | split]];
      apply cursor_ok_at; [lia | rewrite !length_app; lia]. }
  destruct (decode_bencode_framed pre post _ _ _ _ _ He Hrun)
    as (t' & Ht & (Hd & Hi & _ & Hok)).
  simpl in Hd, Hi.
  rewrite (decode_bencode_fuel_le (S (List.length data)) fuel ltac:(lia)).
  - rewrite Ht. f_equal. f_equal.
    rewrite (cursor_ok_eq _ Hok), Hd, Hi. reflexivity.
  - rewrite Ht. discriminate.
Qed.

(** A run of [_decode_bencode] that returns started on one of the
    characters of a value, which ["e"] is not. *)
Lemma decode_bencode_starts fuel self v self' :
  _decode_bencode fuel self = Return (v, self') ->
  (exists c, _char self = Some c) /\ char_is (_char self) "e" = false.
Proof.
  destruct fuel as [|n]; simpl; [discriminate|].
  destruct (_char self) as [c|]; simpl; [|discriminate].
  intro H. split; [eauto|].
  destruct (Ascii.eqb_spec c "e") as [->|]; [|reflexivity].
  discriminate.
Qed.

(** *** Positions in the buffer *)

Lemma skipn_cons_inv {A} i : forall (data : list A) x rest,
  skipn i data = x :: rest ->
  nth_error data i = Some x /\ i < List.length data /\
  skipn (S i) data = rest.
Proof.
  induction i as [|i IH]; intros data x rest H.
  - simpl in H. subst data. simpl. repeat split; lia.
  - destruct data as [|y tl]; [discriminate|]. simpl in H.
    destruct (IH _ _ _ H) as (Hn & Hl & Hs). simpl in *.
    repeat split; [assumption | lia | assumption].
Qed.

Lemma skipn_app_inv {A} (d : list A) : forall i data post,
  skipn i data = d ++ post ->
  skipn (i + List.length d) data = post /\
  (d <> [] -> i + List.length d <= List.length data).
Proof.
  induction d as [|x d IH]; intros i data post H; simpl in *.
  - rewrite Nat.add_0_r. split; [assumption | congruence].
  - destruct (skipn_cons_inv _ _ _ _ H) as (_ & Hl & Hs).
    destruct (IH _ _ _ Hs) as [Hs' Hl'].
    replace (i + S (List.length d)) with (S i + List.length d) by lia.
    split; [assumption|]. intros _.
    destruct d; [simpl; lia | apply Hl'; discriminate].
Qed.

Lemma char_at_skipn data i x rest :
  skipn i data = x :: rest -> char_at data i = Some (chr x).
Proof.
  intro H. destruct (skipn_cons_inv _ _ _ _ H) as (Hn & Hl & _).
  unfold char_at. destruct (Nat.ltb_spec i (List.length data)); [|lia].
  rewrite Hn. reflexivity.
Qed.

Lemma char_at_skipn_nil data i :
  skipn i data = [] -> char_at data i = None.
Proof.
  intro H. apply char_at_end.
  destruct (Nat.le_gt_cases (List.length data) i) as [|Hlt]; [assumption|].
  apply (f_equal (@List.length _)) in H. rewrite length_skipn in H.
  simpl in H. lia.
Qed.

(** [decode_embedded], by position. *)
Lemma decode_at data i d v post fuel :
  decode d = Return v -> skipn i data = d ++ post ->
  List.length d < fuel ->
  _decode_bencode fuel (at_index data i)
  = Return (v, at_index data (i + List.length d)).
Proof.
  intros Hdec Hs Hf.
  assert (Hne : d <> []) by (apply decode_return in Hdec; tauto).
  destruct (skipn_app_inv _ _ _ _ Hs) as [_ Hl]. specialize (Hl Hne).
  assert (Hdata : firstn i data ++ d ++ post = data)
    by (rewrite <- Hs; apply firstn_skipn).
  assert (Hlen : List.length (firstn i data) = i)
    by (apply firstn_length_le; lia).
  pose proof (decode_embedded d v (firstn i data) post fuel Hdec Hf) as E.
  rewrite Hdata, Hlen in E. exact E.
Qed.

Lemma consume_at data i c x rest :
  skipn i data = x :: rest -> chr x = c ->
  _consume c (at_index data i) = Return (tt, at_index data (S i)).
Proof.
  intros Hs Hc. apply consume_return. simpl.
  rewrite (char_at_skipn _ _ _ _ Hs), Hc. reflexivity.
Qed.

(** ** Lists and dictionaries made of buffers that decode *)

Lemma list_loop_S rec k b_list self :
  list_loop rec (S k) b_list self =
  match _char self with
  | None => Raise (ValueError EndOfDataList)
  | Some _ =>
      (value <- rec ;; list_after rec k (b_list ++ [value])) self
  end.
Proof. reflexivity. Qed.

Lemma list_loop_elems n elems vs :
  Forall2 (fun d v => decode d = Return v) elems vs ->
  elems <> [] ->
  Forall (fun d => List.length d < n) elems ->
  forall data i post k b_list,
    skipn i data = List.concat elems ++ post ->
    List.length elems <= k ->
    list_loop (_decode_bencode n) k b_list (at_index data i)
    = list_after (_decode_bencode n) (k - List.length elems) (b_list ++ vs)
        (at_index data (i + List.length (List.concat elems))).
Proof.
  induction 1 as [|d v elems vs Hd Hrest IH]; intros Hne Hn data i post k b_list Hs Hk;
    [congruence|].
  apply Forall_cons_iff in Hn. destruct Hn as [Hnd Hn].
  simpl in Hs, Hk. rewrite <- app_assoc in Hs.
  destruct k as [|k]; [lia|].
  pose proof (decode_at _ _ _ _ _ n Hd Hs Hnd) as Hrun.
  destruct (decode_bencode_starts _ _ _ _ Hrun) as [[c Hc] _].
  rewrite list_loop_S, Hc. unfold bind. rewrite Hrun.
  destruct (skipn_app_inv _ _ _ _ Hs) as [Hs1 _].
  simpl List.concat. rewrite length_app, Nat.add_assoc.
  simpl List.length. rewrite Nat.sub_succ.
  destruct elems as [|d2 elems].
  - inversion Hrest; subst. simpl List.length.
    rewrite Nat.add_0_r, Nat.sub_0_r. reflexivity.
  - assert (Hd2 : exists v2, decode d2 = Return v2)
      by (inversion Hrest; subst; eauto).
    destruct Hd2 as [v2 Hd2].
    assert (Hn2 : List.length d2 < n) by (inversion Hn; assumption).
    simpl in Hs1. rewrite <- app_assoc in Hs1.
    pose proof (decode_at _ _ _ _ _ n Hd2 Hs1 Hn2) as Hrun2.
    destruct (decode_bencode_starts _ _ _ _ Hrun2) as [_ He].
    unfold list_after at 1. rewrite He.
    rewrite (IH ltac:(discriminate) Hn data (i + List.length d) post k
               (b_list ++ [v])).
    + rewrite <- app_assoc. reflexivity.
    + simpl. rewrite <- app_assoc. exact Hs1.
    + simpl in Hk |- *. lia.
Qed.

Lemma list_after_e rec k b_list data i rest :
  skipn i data = x65 :: rest ->
  list_after rec k b_list (at_index data i) = Return (b_list, at_index data i).
Proof.
  intro Hs. unfold list_after. simpl _char.
  rewrite (char_at_skipn _ _ _ _ Hs). reflexivity.
Qed.

Lemma list_after_end rec k b_list data i :
  skipn i data = [] ->
  list_after rec (S k) b_list (at_index data i)
  = Raise (ValueError EndOfDataList).
Proof.
  intro Hs. unfold list_after. rewrite list_loop_S. simpl _char.
  rewrite (char_at_skipn_nil _ _ Hs). reflexivity.
Qed.

(** A key is decoded by [_decode_str]: the buffers that decode to a
    byte string. *)
Lemma decode_bytes_str d key :
  decode d = Return (Bytes key) ->
  _decode_str (List.length d) (at_index d 0)
  = Return (key, at_index d (List.length d)).
Proof.
  intro Hdec. apply decode_return in Hdec. destruct Hdec as [_ H].
  simpl in H.
  repeat match type of H with
  | (if ?c then _ else _) = _ => destruct c
  | bind _ _ _ = _ =>
      apply bind_inv in H; destruct H as (x & s1 & H1 & H2);
      injection H2 as H2 H3
  end; try discriminate.
  subst. exact H1.
Qed.

Lemma decode_str_at data i d key post fuel :
  decode d = Return (Bytes key) -> skipn i data = d ++ post ->
  List.length d <= fuel ->
  _decode_str fuel (at_index data i)
  = Return (key, at_index data (i + List.length d)).
Proof.
  intros Hdec Hs Hf.
  assert (Hne : d <> []) by (apply decode_return in Hdec; tauto).
  destruct (skipn_app_inv _ _ _ _ Hs) as [_ Hl]. specialize (Hl Hne).
  assert (Hdata : firstn i data ++ d ++ post = data)
    by (rewrite <- Hs; apply firstn_skipn).
  assert (Hlen : List.length (firstn i data) = i)
    by (apply firstn_length_le; lia).
  assert (He : embeds (firstn i data) post (at_index d 0) (at_index data i)).
  { split; [|split; [|split]]; simpl.
    - symmetry; exact Hdata.
    - lia.
    - apply cursor_ok_at; lia.
    - apply cursor_ok_at; lia. }
  destruct (decode_str_framed _ _ _ _ _ _ _ He (decode_bytes_str _ _ Hdec))
    as (t' & Ht & (Hd' & Hi' & _ & Hok)).
  simpl in Hd', Hi'.
  rewrite (decode_str_fuel_le (List.length d) fuel Hf).
  - rewrite Ht. f_equal. f_equal.
    rewrite (cursor_ok_eq _ Hok), Hd', Hi', Hdata, Hlen. reflexivity.
  - rewrite Ht. discriminate.
Qed.

Lemma dict_loop_S rec fuel k dictionary self :
  dict_loop rec fuel (S k) dictionary self =
  match _char self with
  | None => Raise (ValueError EndOfDataDict)
  | Some _ =>
      (key <- _decode_str fuel ;;
       value <- rec ;;
       dict_after rec fuel k (setitem dictionary key value)) self
  end.
Proof. reflexivity. Qed.

Lemma dict_after_e rec fuel k dictionary data i rest :
  skipn i data = x65 :: rest ->
  dict_after rec fuel k dictionary (at_index data i)
  = Return (dictionary, at_index data i).
Proof.
  intro Hs. unfold dict_after. simpl _char.
  rewrite (char_at_skipn _ _ _ _ Hs). reflexivity.
Qed.

Lemma dict_after_end rec fuel k dictionary data i :
  skipn i data = [] ->
  dict_after rec fuel (S k) dictionary (at_index data i)
  = Raise (ValueError EndOfDataDict).
Proof.
  intro Hs. unfold dict_after. rewrite dict_loop_S. simpl _char.
  rewrite (char_at_skipn_nil _ _ Hs). reflexivity.
Qed.

Lemma dict_loop_pairs n pairs kvs :
  Forall2 pair_decodes pairs kvs ->
  pairs <> [] ->
  Forall (fun p => List.length (fst p ++ snd p) < n) pairs ->
  forall data i post k dictionary,
    skipn i data = pairs_bytes pairs ++ post ->
    List.length pairs <= k ->
    dict_loop (_decode_bencode n) n k dictionary (at_index data i)
    = dict_after (_decode_bencode n) n (k - List.length pairs)
        (setitems dictionary kvs)
        (at_index data (i + List.length (pairs_bytes pairs))).
Proof.
  unfold pairs_bytes.
  induction 1 as [|[kb vb] [key value] pairs kvs [Hkey Hval] Hrest IH];
    intros Hne Hn data i post k dictionary Hs Hk; [congruence|].
  apply Forall_cons_iff in Hn. destruct Hn as [Hnd Hn].
  simpl in Hkey, Hval, Hnd, Hs, Hk. rewrite length_app in Hnd.
  rewrite <- !app_assoc in Hs.
  destruct k as [|k]; [lia|].
  pose proof (decode_at _ _ _ _ _ n Hkey Hs ltac:(lia)) as Hrun0.
  destruct (decode_bencode_starts _ _ _ _ Hrun0) as [[c Hc] _].
  pose proof (decode_str_at _ _ _ _ _ n Hkey Hs ltac:(lia)) as Hrun1.
  destruct (skipn_app_inv _ _ _ _ Hs) as [Hs1 _].
  pose proof (decode_at _ _ _ _ _ n Hval Hs1 ltac:(lia)) as Hrun2.
  destruct (skipn_app_inv _ _ _ _ Hs1) as [Hs2 _].
  rewrite dict_loop_S, Hc. unfold bind. rewrite Hrun1, Hrun2.
  simpl map. simpl List.concat. rewrite !length_app, !Nat.add_assoc.
  simpl List.length. rewrite Nat.sub_succ. simpl setitems.
  destruct pairs as [|[kb2 vb2] pairs].
  - inversion Hrest; subst. simpl List.length. simpl setitems.
    rewrite Nat.add_0_r, Nat.sub_0_r. reflexivity.
  - assert (Hk2 : exists key2, decode kb2 = Return (Bytes key2)).
    { inversion Hrest as [|? [key2 ?] ? ? [Hk2 _]]; subst. eauto. }
    destruct Hk2 as [key2 Hk2].
    assert (Hn2 : List.length kb2 < n).
    { inversion Hn as [|? ? Hn2 ?]; subst. simpl in Hn2.
      rewrite length_app in Hn2. lia. }
    simpl in Hs2. rewrite <- !app_assoc in Hs2.
    pose proof (decode_at _ _ _ _ _ n Hk2 Hs2 Hn2) as Hrun3.
    destruct (decode_bencode_starts _ _ _ _ Hrun3) as [_ He].
    unfold dict_after at 1. rewrite He.
    rewrite (IH ltac:(discriminate) Hn data
               (i + List.length kb + List.length vb) post k
               (setitem dictionary key value)).
    + reflexivity.
    + simpl. rewrite <- !app_assoc. exact Hs2.
    + simpl in Hk |- *. lia.
Qed.

(** *** The whole buffer *)

Lemma decode_unfold x body :
  decode (x :: body)
  = finish (_decode_bencode (S (S (List.length body))) (at_index (x :: body) 0)).
Proof. reflexivity. Qed.

Lemma decode_bencode_l n self :
  _char self = Some "l"%char ->
  _decode_bencode (S n) self
  = (b_list <- list_loop (_decode_bencode n) n [] ;;
     _consume "e" ;; ret (BList b_list))
      (at_index (_data self) (S (_index self))).
Proof.
  intro Hc. simpl. rewrite Hc. simpl.
  unfold _decode_list, bind. rewrite (consume_return _ _ Hc).
  fold (at_index (_data self) (S (_index self))).
  destruct (list_loop _ _ _ _) as [[b_list s1]| |]; try reflexivity.
  destruct (_consume "e" s1) as [[[] s2]| |]; reflexivity.
Qed.

Lemma decode_bencode_d n self :
  _char self = Some "d"%char ->
  _decode_bencode (S n) self
  = (dictionary <- dict_loop (_decode_bencode n) n n [] ;;
     _consume "e" ;; ret (BDict dictionary))
      (at_index (_data self) (S (_index self))).
Proof.
  intro Hc. simpl. rewrite Hc. simpl.
  unfold _decode_dict, bind. rewrite (consume_return _ _ Hc).
  fold (at_index (_data self) (S (_index self))).
  destruct (dict_loop _ _ _ _ _) as [[dictionary s1]| |]; try reflexivity.
  destruct (_consume "e" s1) as [[[] s2]| |]; reflexivity.
Qed.

Lemma decodes_nonempty d v : decode d = Return v -> d <> [].
Proof. intro H. apply decode_return in H. tauto. Qed.

Lemma concat_length_bound (elems : list bytes) :
  Forall (fun d => List.length d <= List.length (List.concat elems)) elems.
Proof.
  induction elems as [|d elems IH]; constructor; simpl; rewrite length_app.
  - lia.
  - eapply Forall_impl; [|exact IH]. simpl. intros; lia.
Qed.

Lemma concat_length_count (elems : list bytes) :
  Forall (fun d => d <> []) elems ->
  List.length elems <= List.length (List.concat elems).
Proof.
  induction 1 as [|d elems Hd _ IH]; simpl; [lia|].
  rewrite length_app. destruct d; [congruence | simpl; lia].
Qed.

Lemma Forall_exists_Forall2 {A B} (R : A -> B -> Prop) l :
  Forall (fun a => exists c, R a c) l -> exists l', Forall2 R l l'.
Proof.
  induction 1 as [|a l [c Hc] _ [l' IH]].
  - exists []. constructor.
  - exists (c :: l'). constructor; assumption.
Qed.

(** The loop of [_decode_list] over buffers that decode, started right
    after the ["l"] that opens the whole buffer. *)
Lemma list_loop_top elems vs post :
  Forall2 (fun d v => decode d = Return v) elems vs ->
  elems <> [] ->
  let data := x6c :: List.concat elems ++ post in
  let n := List.length data in
  list_loop (_decode_bencode n) n [] (at_index data 1)
  = list_after (_decode_bencode n) (n - List.length elems) vs
      (at_index data (1 + List.length (List.concat elems)))
  /\ List.length elems < n.
Proof.
  intros Hdec Hne data n.
  assert (Hnonempty : Forall (fun d => d <> []) elems).
  { clear -Hdec. induction Hdec; constructor; eauto using decodes_nonempty. }
  pose proof (concat_length_count _ Hnonempty) as Hcount.
  assert (Hn : n = S (List.length (List.concat elems) + List.length post))
    by (unfold n, data; simpl; rewrite length_app; reflexivity).
  split; [|lia].
  apply (list_loop_elems n elems vs Hdec Hne) with (post := post).
  - eapply Forall_impl; [|apply concat_length_bound]. simpl. intros; lia.
  - reflexivity.
  - lia.
Qed.

Lemma dict_loop_top pairs kvs post :
  Forall2 pair_decodes pairs kvs ->
  pairs <> [] ->
  let data := x64 :: pairs_bytes pairs ++ post in
  let n := List.length data in
  dict_loop (_decode_bencode n) n n [] (at_index data 1)
  = dict_after (_decode_bencode n) n (n - List.length pairs)
      (setitems [] kvs)
      (at_index data (1 + List.length (pairs_bytes pairs)))
  /\ List.length pairs < n.
Proof.
  intros Hdec Hne data n.
  assert (Hnonempty : Forall (fun d => d <> [])
                        (map (fun p => fst p ++ snd p) pairs)).
  { clear -Hdec. induction Hdec as [|p kv ? ? [Hk _]]; constructor; auto.
    cbv beta. apply decodes_nonempty in Hk.
    intro E. apply app_eq_nil in E. destruct E. contradiction. }
  assert (Hcount : List.length pairs <= List.length (pairs_bytes pairs)).
  { pose proof (concat_length_count _ Hnonempty) as Hcount.
    rewrite length_map in Hcount. exact Hcount. }
  assert (Hn : n = S (List.length (pairs_bytes pairs) + List.length post))
    by (unfold n, data; simpl; rewrite length_app; reflexivity).
  split; [|lia].
  apply (dict_loop_pairs n pairs kvs Hdec Hne) with (post := post).
  - pose proof (concat_length_bound (map (fun p => fst p ++ snd p) pairs)) as Hb.
    rewrite Forall_map in Hb. change (List.concat _) with (pairs_bytes pairs) in Hb.
    eapply Forall_impl; [|exact Hb]. simpl. intros; lia.
  - reflexivity.
  - lia.
Qed.

(** A list of buffers that decode, between ["l"] and ["e"], decodes to
    the list of their values, in order. *)
Lemma decode_list_of elems vs :
  Forall2 (fun d v => decode d = Return v) elems vs ->
  elems <> [] ->
  decode (b "l" ++ List.concat elems ++ b "e") = Return (BList vs).
Proof.
  intros Hdec Hne.
  change (b "l" ++ List.concat elems ++ b "e")
    with (x6c :: List.concat elems ++ [x65]).
  destruct (list_loop_top elems vs [x65] Hdec Hne) as [Hrun Hlt].
  set (data := x6c :: List.concat elems ++ [x65]) in *.
  assert (Hs : skipn 1 data = List.concat elems ++ [x65]) by reflexivity.
  destruct (skipn_app_inv _ _ _ _ Hs) as [Hs1 _].
  destruct (skipn_cons_inv _ _ _ _ Hs1) as (_ & _ & Hs2).
  unfold data at 1. rewrite decode_unfold.
  rewrite decode_bencode_l by reflexivity.
  change (S (List.length (List.concat elems ++ [x65])))
    with (List.length data).
  change (at_index (_data (at_index (x6c :: List.concat elems ++ [x65]) 0))
            (S (_index (at_index (x6c :: List.concat elems ++ [x65]) 0))))
    with (at_index data 1).
  unfold bind. rewrite Hrun, (list_after_e _ _ _ _ _ _ Hs1).
  rewrite (consume_at _ _ "e" _ _ Hs1 eq_refl).
  unfold ret, finish. cbv beta iota.
  rewrite at_index_char, (char_at_skipn_nil _ _ Hs2). reflexivity.
Qed.

(** With no ["e"] after them, the loop reaches the end of the data. *)
Lemma decode_list_truncated elems :
  Forall (fun d => exists v, decode d = Return v) elems ->
  decode (b "l" ++ List.concat elems) = Raise (ValueError EndOfDataList).
Proof.
  intro Hall. destruct elems as [|d elems]; [reflexivity|].
  destruct (Forall_exists_Forall2 _ _ Hall) as [vs Hdec].
  assert (Hne : d :: elems <> []) by discriminate.
  revert Hdec Hne. generalize (d :: elems). clear. intros elems Hdec Hne.
  change (b "l" ++ List.concat elems)
    with (x6c :: List.concat elems).
  destruct (list_loop_top elems vs [] Hdec Hne) as [Hrun Hlt].
  rewrite app_nil_r in Hrun, Hlt.
  set (data := x6c :: List.concat elems) in *.
  assert (Hs : skipn 1 data = List.concat elems ++ [])
    by (rewrite app_nil_r; reflexivity).
  destruct (skipn_app_inv _ _ _ _ Hs) as [Hs1 _].
  unfold data at 1. rewrite decode_unfold.
  rewrite decode_bencode_l by reflexivity.
  change (S (List.length (List.concat elems))) with (List.length data).
  change (at_index (_data (at_index (x6c :: List.concat elems) 0))
            (S (_index (at_index (x6c :: List.concat elems) 0))))
    with (at_index data 1).
  unfold bind. rewrite Hrun.
  destruct (List.length data - List.length elems) as [|k] eqn:Hk; [lia|].
  rewrite (list_after_end _ _ _ _ _ Hs1). reflexivity.
Qed.

(** Key and value buffers that decode, between ["d"] and ["e"], decode to
    the dictionary their assignments build. *)
Lemma decode_dict_of pairs kvs :
  Forall2 pair_decodes pairs kvs ->
  pairs <> [] ->
  decode (b "d" ++ pairs_bytes pairs ++ b "e")
  = Return (BDict (setitems [] kvs)).
Proof.
  intros Hdec Hne.
  change (b "d" ++ pairs_bytes pairs ++ b "e")
    with (x64 :: pairs_bytes pairs ++ [x65]).
  destruct (dict_loop_top pairs kvs [x65] Hdec Hne) as [Hrun Hlt].
  set (data := x64 :: pairs_bytes pairs ++ [x65]) in *.
  assert (Hs : skipn 1 data = pairs_bytes pairs ++ [x65]) by reflexivity.
  destruct (skipn_app_inv _ _ _ _ Hs) as [Hs1 _].
  destruct (skipn_cons_inv _ _ _ _ Hs1) as (_ & _ & Hs2).
  unfold data at 1. rewrite decode_unfold.
  rewrite decode_bencode_d by reflexivity.
  change (S (List.length (pairs_bytes pairs ++ [x65])))
    with (List.length data).
  change (at_index (_data (at_index (x64 :: pairs_bytes pairs ++ [x65]) 0))
            (S (_index (at_index (x64 :: pairs_bytes pairs ++ [x65]) 0))))
    with (at_index data 1).
  unfold bind. rewrite Hrun, (dict_after_e _ _ _ _ _ _ _ Hs1).
  rewrite (consume_at _ _ "e" _ _ Hs1 eq_refl).
  unfold ret, finish. cbv beta iota.
  rewrite at_index_char, (char_at_skipn_nil _ _ Hs2). reflexivity.
Qed.

Lemma decode_dict_truncated pairs :
  Forall (fun p => exists kv, pair_decodes p kv) pairs ->
  decode (b "d" ++ pairs_bytes pairs) = Raise (ValueError EndOfDataDict).
Proof.
  intro Hall. destruct pairs as [|p pairs]; [reflexivity|].
  destruct (Forall_exists_Forall2 _ _ Hall) as [kvs Hdec].
  assert (Hne : p :: pairs <> []) by discriminate.
  revert Hdec Hne. generalize (p :: pairs). clear. intros pairs Hdec Hne.
  change (b "d" ++ pairs_bytes pairs) with (x64 :: pairs_bytes pairs).
  destruct (dict_loop_top pairs kvs [] Hdec Hne) as [Hrun Hlt].
  rewrite app_nil_r in Hrun, Hlt.
  set (data := x64 :: pairs_bytes pairs) in *.
  assert (Hs : skipn 1 data = pairs_bytes pairs ++ [])
    by (rewrite app_nil_r; reflexivity).
  destruct (skipn_app_inv _ _ _ _ Hs) as [Hs1 _].
  unfold data at 1. rewrite decode_unfold.
  rewrite decode_bencode_d by reflexivity.
  change (S (List.length (pairs_bytes pairs))) with (List.length data).
  change (at_index (_data (at_index (x64 :: pairs_bytes pairs) 0))
            (S (_index (at_index (x64 :: pairs_bytes pairs) 0))))
    with (at_index data 1).
  unfold bind. rewrite Hrun.
  destruct (List.length data - List.length pairs) as [|k] eqn:Hk; [lia|].
  rewrite (dict_after_end _ _ _ _ _ _ Hs1). reflexivity.
Qed.

(** Bytes after a buffer that decodes are extra data. *)
Lemma decode_extra d v extra :
  decode d = Return v -> extra <> [] ->
  decode (d ++ extra) = Raise (ValueError ExtraData).
Proof.
  intros Hdec Hextra.
  pose proof (decodes_nonempty _ _ Hdec) as Hne.
  assert (Hrun : _decode_bencode (S (List.length (d ++ extra)))
                   (at_index (d ++ extra) 0)
                 = Return (v, at_index (d ++ extra) (List.length d))).
  { apply (decode_embedded d v [] extra); [assumption|].
    rewrite length_app. lia. }
  unfold decode, decode_with.
  rewrite init_nonempty by (destruct d; [congruence | discriminate]).
  rewrite Hrun, at_index_char.
  destruct extra as [|y extra']; [congruence|].
  erewrite char_at_skipn; [reflexivity|].
  rewrite skipn_app, skipn_all, Nat.sub_diag. reflexivity.
Qed.

(** ** Well-formed values *)

Lemma well_formed_list l :
  well_formed (BList l) <-> l <> [] /\ Forall well_formed l.
Proof.
  simpl. apply and_iff_compat_l.
  induction l as [|x l IH]; split; intro H; auto.
  - destruct H. constructor; tauto.
  - inversion H; subst. tauto.
Qed.

Lemma well_formed_dict d :
  well_formed (BDict d) <->
  d <> [] /\ NoDup (map fst d) /\ Forall (fun kv => well_formed (snd kv)) d.
Proof.
  simpl. do 2 apply and_iff_compat_l.
  induction d as [|[k x] d IH]; split; intro H; auto.
  - destruct H. constructor; simpl; tauto.
  - inversion H; subst. simpl in *. tauto.
Qed.

Lemma bytes_eqb_eq a c : bytes_eqb a c = true <-> a = c.
Proof.
  unfold bytes_eqb. destruct (list_eq_dec Byte.byte_eq_dec a c); split;
    congruence.
Qed.

Lemma bytes_eqb_refl a : bytes_eqb a a = true.
Proof. apply bytes_eqb_eq. reflexivity. Qed.

Lemma setitem_nonempty dictionary key value :
  setitem dictionary key value <> [].
Proof.
  destruct dictionary as [|[k v] rest]; simpl; [discriminate|].
  destruct (bytes_eqb k key); discriminate.
Qed.

(** An assignment keeps the keys in place; a new key goes last. *)
Lemma setitem_keys dictionary key value :
  map fst (setitem dictionary key value) =
  if in_dec (list_eq_dec Byte.byte_eq_dec) key (map fst dictionary)
  then map fst dictionary
  else map fst dictionary ++ [key].
Proof.
  induction dictionary as [|[k v] rest IH]; simpl; [reflexivity|].
  destruct (bytes_eqb k key) eqn:Hk.
  - apply bytes_eqb_eq in Hk. subst k. simpl.
    destruct (list_eq_dec Byte.byte_eq_dec key key); [|congruence].
    reflexivity.
  - assert (k <> key) by (intro; subst; rewrite bytes_eqb_refl in Hk; discriminate).
    simpl. rewrite IH.
    destruct (list_eq_dec Byte.byte_eq_dec k key); [congruence|].
    destruct (in_dec (list_eq_dec Byte.byte_eq_dec) key (map fst rest));
      reflexivity.
Qed.

Lemma setitem_NoDup dictionary key value :
  NoDup (map fst dictionary) ->
  NoDup (map fst (setitem dictionary key value)).
Proof.
  intro H. rewrite setitem_keys.
  destruct (in_dec (list_eq_dec Byte.byte_eq_dec) key (map fst dictionary))
    as [|Hn]; [assumption|].
  apply NoDup_app; [assumption | repeat constructor; simpl; tauto |].
  intros x Hx [<-|[]]. contradiction.
Qed.

Lemma setitem_getitem dictionary key value :
  getitem (setitem dictionary key value) key = Some value.
Proof.
  induction dictionary as [|[k v] rest IH]; simpl.
  - rewrite bytes_eqb_refl. reflexivity.
  - destruct (bytes_eqb k key) eqn:Hk; simpl; rewrite Hk; auto.
Qed.

Lemma setitem_Forall (P : BencodedValue -> Prop) dictionary key value :
  Forall (fun kv => P (snd kv)) dictionary -> P value ->
  Forall (fun kv => P (snd kv)) (setitem dictionary key value).
Proof.
  intros Hd Hv. induction Hd as [|[k v] rest Hk Hrest IH]; simpl.
  - repeat constructor. assumption.
  - destruct (bytes_eqb k key); constructor; auto.
Qed.

Section WellFormedContainers.
Variable rec : M BencodedValue.
Hypothesis rec_wf : forall s v s', rec s = Return (v, s') -> well_formed v.

Lemma list_loop_wf k : forall b_list s r s',
  Forall well_formed b_list ->
  list_loop rec k b_list s = Return (r, s') ->
  r <> [] /\ Forall well_formed r.
Proof.
  induction k as [|k IH]; intros b_list s r s' Hb H; [discriminate|].
  rewrite list_loop_S in H. destruct (_char s); [|discriminate].
  apply bind_inv in H. destruct H as (value & s1 & H1 & H2).
  assert (Hb' : Forall well_formed (b_list ++ [value])).
  { apply Forall_app. split; [assumption|]. repeat constructor. eauto. }
  unfold list_after in H2. destruct (char_is (_char s1) "e").
  - injection H2 as <- <-. split; [|assumption].
    intro E. apply app_eq_nil in E. destruct E. discriminate.
  - eapply IH; eassumption.
Qed.

Lemma dict_loop_wf fuel k : forall dictionary s r s',
  NoDup (map fst dictionary) ->
  Forall (fun kv => well_formed (snd kv)) dictionary ->
  dict_loop rec fuel k dictionary s = Return (r, s') ->
  r <> [] /\ NoDup (map fst r) /\ Forall (fun kv => well_formed (snd kv)) r.
Proof.
  induction k as [|k IH]; intros dictionary s r s' Hn Hd H; [discriminate|].
  rewrite dict_loop_S in H. destruct (_char s); [|discriminate].
  apply bind_inv in H. destruct H as (key & s1 & H1 & H).
  apply bind_inv in H. destruct H as (value & s2 & H2 & H3).
  pose proof (setitem_NoDup dictionary key value Hn) as Hn'.
  pose proof (setitem_Forall _ dictionary key value Hd (rec_wf _ _ _ H2)) as Hd'.
  unfold dict_after in H3. destruct (char_is (_char s2) "e").
  - injection H3 as <- <-. split; [apply setitem_nonempty | tauto].
  - eapply IH; eassumption.
Qed.
End WellFormedContainers.

Lemma decode_bencode_wf fuel : forall s v s',
  _decode_bencode fuel s = Return (v, s') -> well_formed v.
Proof.
  induction fuel as [|n IH]; intros s v s' H; [discriminate|].
  simpl in H.
  destruct (char_is (_char s) "d").
  { apply bind_inv in H. destruct H as (d & s1 & H1 & H2).
    injection H2 as <- <-. unfold _decode_dict in H1.
    apply bind_inv in H1. destruct H1 as ([] & s2 & _ & H1).
    apply bind_inv in H1. destruct H1 as (d' & s3 & H1 & H3).
    apply bind_inv in H3. destruct H3 as ([] & s4 & _ & H3).
    injection H3 as <- <-. apply well_formed_dict.
    eapply (dict_loop_wf _ IH n n []); [apply NoDup_nil | constructor | exact H1]. }
  destruct (char_is (_char s) "l").
  { apply bind_inv in H. destruct H as (l & s1 & H1 & H2).
    injection H2 as <- <-. unfold _decode_list in H1.
    apply bind_inv in H1. destruct H1 as ([] & s2 & _ & H1).
    apply bind_inv in H1. destruct H1 as (l' & s3 & H1 & H3).
    apply bind_inv in H3. destruct H3 as ([] & s4 & _ & H3).
    injection H3 as <- <-. apply well_formed_list.
    eapply (list_loop_wf _ IH n []); [constructor | exact H1]. }
  destruct (char_is (_char s) "i").
  { apply bind_inv in H. destruct H as (z & s1 & _ & H2).
    injection H2 as <- <-. exact I. }
  destruct (char_isdigit (_char s)); [|discriminate].
  apply bind_inv in H. destruct H as (z & s1 & _ & H2).
  injection H2 as <- <-. exact I.
Qed.

Lemma decode_wf data v : decode data = Return v -> well_formed v.
Proof.
  intro H. apply decode_return in H. destruct H as [_ H].
  eapply decode_bencode_wf. exact H.
Qed.

(** [decode] returns or raises: the fuel it supplies is enough. *)
Lemma decode_total data :
  (exists v, decode data = Return v) \/ (exists e, decode data = Raise e).
Proof.
  unfold decode, decode_with.
  destruct (__init__ data) as [decoder|e|] eqn:Hi; [|eauto|].
  - destruct (init_cursor_ok _ _ Hi) as (Hok & Hd & Hx).
    assert (Hr : remaining decoder < S (List.length data))
      by (unfold remaining; rewrite Hd, Hx; lia).
    pose proof (decode_bencode_triple _ _ Hok Hr) as Ht. unfold triple in Ht.
    destruct (_decode_bencode _ decoder) as [[result decoder']|e|];
      [|eauto|contradiction].
    destruct (_char decoder'); eauto.
  - destruct data; discriminate.
Qed.

(** ** Byte strings *)

Lemma skipn_nth {A} i : forall (data : list A) x,
  nth_error data i = Some x -> skipn i data = x :: skipn (S i) data.
Proof.
  induction i as [|i IH]; intros [|y data] x H; try discriminate.
  - injection H as ->. reflexivity.
  - simpl in H. apply IH in H. exact H.
Qed.

Lemma decode_char_inv self byte_val self' :
  _decode_char self = Return (byte_val, self') ->
  nth_error (_data self) (_index self) = Some byte_val /\
  self' = at_index (_data self) (S (_index self)).
Proof.
  unfold _decode_char.
  destruct (nth_error (_data self) (_index self)); [|discriminate].
  intro H. injection H as <- <-. split; reflexivity.
Qed.

(** [chars_loop] appends the next [num] bytes of the buffer and moves the
    cursor by [num]. *)
Lemma chars_loop_exact num : forall byte_data self r self',
  chars_loop num byte_data self = Return (r, self') ->
  r = byte_data ++ firstn num (skipn (_index self) (_data self)) /\
  _index self' = _index self + num /\
  List.length r = List.length byte_data + num.
Proof.
  induction num as [|num IH]; intros byte_data self r self' H; simpl in H.
  - injection H as <- <-. rewrite app_nil_r, !Nat.add_0_r. auto.
  - apply bind_inv in H. destruct H as (byte_val & s1 & H1 & H2).
    apply decode_char_inv in H1. destruct H1 as [Hn ->].
    apply IH in H2. simpl in H2. destruct H2 as (-> & -> & ->).
    rewrite (skipn_nth _ _ _ Hn), length_app, <- app_assoc. simpl.
    repeat split; lia.
Qed.

(** With fewer bytes left than declared, the read of [_decode_char] goes
    out of range. *)
Lemma chars_loop_truncated num : forall byte_data self,
  cursor_ok self -> remaining self < num ->
  chars_loop num byte_data self = Raise IndexError.
Proof.
  induction num as [|num IH]; intros byte_data self Hok Hrem; [lia|].
  simpl. unfold bind.
  pose proof (decode_char_triple self Hok) as Ht. unfold triple in Ht.
  destruct (_decode_char self) as [[byte_val s1]|e|] eqn:Hc;
    [|clear Ht|contradiction].
  - apply IH; [apply Ht|].
    pose proof (moved_remaining _ _ _ _ Ht). lia.
  - unfold _decode_char in Hc.
    destruct (nth_error (_data self) (_index self)); congruence.
Qed.

Lemma decode_str_truncated fuel self num s1 :
  cursor_ok self ->
  _decode_num fuel self = Return (num, s1) ->
  _char s1 = Some ":"%char ->
  (remaining s1 <= Z.to_nat num)%nat ->
  _decode_str fuel self = Raise IndexError.
Proof.
  intros Hok Hnum Hc Hrem. unfold _decode_str, bind. rewrite Hnum.
  rewrite (consume_return _ _ Hc).
  assert (Hok1 : cursor_ok s1).
  { pose proof (decode_num_triple (Nat.max fuel (remaining self)) self Hok
                  (Nat.le_max_r _ _)) as Ht.
    unfold triple in Ht.
    rewrite (decode_num_fuel_le fuel _ (Nat.le_max_l _ _)) in Ht
      by (rewrite Hnum; discriminate).
    rewrite Hnum in Ht. apply Ht. }
  pose proof (cursor_some _ _ Hok1 Hc) as Hlt.
  apply chars_loop_truncated.
  - apply (moved_step s1 tt Hok1 Hlt).
  - unfold remaining in *. simpl. lia.
Qed.

(** A run that returns leaves the invariant, whatever the fuel. *)
Lemma decode_bencode_moved fuel self v self' :
  cursor_ok self ->
  _decode_bencode fuel self = Return (v, self') ->
  moved 1 self v self'.
Proof.
  intros Hok H.
  pose proof (decode_bencode_triple (Nat.max fuel (S (remaining self))) self
                Hok ltac:(lia)) as Ht.
  unfold triple in Ht.
  rewrite (decode_bencode_fuel_le fuel _ (Nat.le_max_l _ _)) in Ht
    by (rewrite H; discriminate).
  rewrite H in Ht. exact Ht.
Qed.

Lemma decode_not_empty_data data :
  data <> [] -> decode data <> Raise (ValueError EmptyData).
Proof.
  intro Hne. unfold decode, decode_with. rewrite (init_nonempty _ Hne).
  assert (Hr : remaining (at_index data 0) < S (List.length data))
    by (unfold remaining; simpl; lia).
  pose proof (decode_bencode_triple _ _
                (cursor_ok_at _ _ (Nat.le_0_l _)) Hr) as Ht.
  unfold triple in Ht.
  destruct (_decode_bencode _ _) as [[result decoder']|e|].
  - destruct (_char decoder'); discriminate.
  - destruct Ht as [Ht _]. congruence.
  - discriminate.
Qed.

(** ** Numbers *)

Lemma isdigit_not c x : isdigit c = true -> isdigit x = false -> (c =? x)%char = false.
Proof.
  intros Hc Hx. destruct (Ascii.eqb_spec c x); [congruence | reflexivity].
Qed.

Lemma decode_bencode_i n self :
  _char self = Some "i"%char ->
  _decode_bencode (S n) self = (value <- _decode_int n ;; ret (Int value)) self.
Proof. intro Hc. simpl. rewrite Hc. reflexivity. Qed.

Lemma decode_bencode_digit n self :
  char_isdigit (_char self) = true ->
  _decode_bencode (S n) self
  = (value <- _decode_str n ;; ret (Bytes value)) self.
Proof.
  intro Hd. simpl. rewrite Hd.
  destruct (char_isdigit_some _ Hd) as (c & -> & Hc). simpl.
  rewrite !(isdigit_not c) by (assumption || reflexivity). reflexivity.
Qed.

Lemma decode_digit_zero self :
  _char self = Some "0"%char ->
  _decode_digit self = Return (0, at_index (_data self) (S (_index self))).
Proof.
  intro Hc. unfold _decode_digit.
  change (seq 0 10) with (0 :: seq 1 9). cbn [digit_loop].
  change (str_of_digit 0) with "0"%char.
  rewrite Hc, char_is_refl. unfold bind.
  rewrite (consume_return _ _ Hc). reflexivity.
Qed.

(** A ["0"] followed by a digit. *)
Lemma decode_num_leading_zero fuel self :
  _char self = Some "0"%char ->
  char_isdigit (char_at (_data self) (S (_index self))) = true ->
  _decode_num fuel self = Raise (ValueError LeadingZeros).
Proof.
  intros Hc Hd. unfold _decode_num, bind at 1.
  assert (Hn : num_digits fuel self = Raise (ValueError LeadingZeros)).
  { unfold num_digits. rewrite Hc, char_is_refl. unfold bind.
    rewrite (decode_digit_zero _ Hc), at_index_char, Hd. reflexivity. }
  rewrite Hn. reflexivity.
Qed.

(** No digit at all. *)
Lemma decode_num_no_digit fuel self :
  char_isdigit (_char self) = false ->
  _decode_num fuel self = Raise (ValueError NoDigit).
Proof.
  intro Hd. unfold _decode_num, bind at 1.
  assert (Hz : char_is (_char self) "0" = false).
  { destruct (_char self) as [c|]; [|reflexivity]. simpl in *.
    destruct (Ascii.eqb_spec c "0"); [subst; discriminate | reflexivity]. }
  assert (Hn : num_digits fuel self = Return (EmptyString, self)).
  { unfold num_digits. rewrite Hz. destruct fuel; simpl; rewrite Hd; reflexivity. }
  rewrite Hn. reflexivity.
Qed.

Lemma decode_snum_negative_zero fuel self :
  _char self = Some "-"%char ->
  char_at (_data self) (S (_index self)) = Some "0"%char ->
  _decode_snum fuel self = Raise (ValueError NegativeZero).
Proof.
  intros Hc Hz. unfold _decode_snum. rewrite Hc. simpl.
  unfold bind. rewrite (consume_return _ _ Hc). simpl. rewrite Hz.
  reflexivity.
Qed.

Lemma char_ascii_digit_not char num :
  char_ascii_digit char = false -> num < 10 ->
  char_is char (str_of_digit num) = false.
Proof.
  intros Hc Hn. destruct char as [c|]; [|reflexivity]. simpl in *.
  destruct (Ascii.eqb_spec c (str_of_digit num)) as [->|]; [|reflexivity].
  do 10 (destruct num as [|num]; [discriminate Hc|]). lia.
Qed.

Lemma decode_digit_not_ascii self :
  char_ascii_digit (_char self) = false ->
  _decode_digit self = Raise (ValueError NotBencoding).
Proof.
  intro Hc. unfold _decode_digit.
  assert (H : forall nums, Forall (fun num => num < 10) nums ->
                digit_loop nums self = Raise (ValueError NotBencoding)).
  { induction 1 as [|num nums Hn _ IH]; simpl; [reflexivity|].
    rewrite (char_ascii_digit_not _ _ Hc Hn). exact IH. }
  apply H. apply Forall_forall. intros num Hin. apply in_seq in Hin. lia.
Qed.

(** A character that [isdigit] takes for a digit and [_decode_digit]
    does not (a superscript) is refused by [_decode_digit]; any other
    character that is not a digit leaves [num] empty. *)
Lemma decode_num_not_ascii fuel self :
  char_ascii_digit (_char self) = false ->
  _decode_num (S fuel) self
  = Raise (ValueError (if char_isdigit (_char self) then NotBencoding
                       else NoDigit)).
Proof.
  intro Hc. destruct (char_isdigit (_char self)) eqn:Hd;
    [|apply decode_num_no_digit; assumption].
  unfold _decode_num, bind at 1.
  assert (Hn : num_digits (S fuel) self = Raise (ValueError NotBencoding)).
  { unfold num_digits.
    change "0"%char with (str_of_digit 0).
    rewrite (char_ascii_digit_not _ 0 Hc) by lia.
    simpl. rewrite Hd. unfold bind.
    rewrite (decode_digit_not_ascii _ Hc). reflexivity. }
  rewrite Hn. reflexivity.
Qed.

Lemma decode_snum_not_ascii fuel self :
  char_ascii_digit (_char self) = false ->
  char_is (_char self) "-" = false ->
  _decode_snum (S fuel) self = Raise (ValueError NotBencoding).
Proof.
  intros Hc Hm. unfold _decode_snum.
  destruct (char_isdigit (_char self)) eqn:Hd.
  - rewrite (decode_num_not_ascii _ _ Hc), Hd. reflexivity.
  - rewrite Hm. reflexivity.
Qed.

Lemma decode_snum_minus_not_ascii fuel self :
  _char self = Some "-"%char ->
  char_ascii_digit (char_at (_data self) (S (_index self))) = false ->
  _decode_snum (S fuel) self
  = Raise (ValueError
             (if char_isdigit (char_at (_data self) (S (_index self)))
              then NotBencoding else NoDigit)).
Proof.
  intros Hc Hd. unfold _decode_snum. rewrite Hc. simpl.
  unfold bind at 1. rewrite (consume_return _ _ Hc). simpl _char.
  change "0"%char with (str_of_digit 0).
  rewrite (char_ascii_digit_not _ 0 Hd) by lia.
  unfold bind.
  rewrite (decode_num_not_ascii fuel (mkDecoder _ _ _)) by exact Hd.
  reflexivity.
Qed.

(** The run of [decode] on an integer: after the ["i"]. *)
Lemma decode_int_run x body :
  chr x = "i"%char ->
  decode (x :: body)
  = finish ((value <- _decode_snum (S (List.length body)) ;;
             _consume "e" ;; ret (Int value))
              (at_index (x :: body) 1)).
Proof.
  intro Hx. rewrite decode_unfold.
  assert (Hc : _char (at_index (x :: body) 0) = Some "i"%char)
    by (rewrite <- Hx; reflexivity).
  rewrite (decode_bencode_i _ _ Hc). unfold _decode_int, bind.
  rewrite (consume_return _ _ Hc).
  change (mkDecoder _ _ _) with (at_index (x :: body) 1).
  destruct (_decode_snum _ _) as [[value s1]| |]; try reflexivity.
  destruct (_consume "e" s1) as [[[] s2]| |]; reflexivity.
Qed.

(** The run of [decode] on a byte string. *)
Lemma decode_str_run x body :
  isdigit (chr x) = true ->
  decode (x :: body)
  = finish ((value <- _decode_str (S (List.length body)) ;; ret (Bytes value))
              (at_index (x :: body) 0)).
Proof.
  intro Hx. rewrite decode_unfold.
  rewrite decode_bencode_digit by exact Hx. reflexivity.
Qed.

Lemma char_at_app_first pre rest :
  char_at (pre ++ rest) (List.length pre) = first_char rest.
Proof.
  destruct rest as [|x rest]; simpl.
  - apply char_at_end. rewrite app_nil_r. lia.
  - apply (char_at_skipn _ _ x rest).
    rewrite skipn_app, skipn_all, Nat.sub_diag. reflexivity.
Qed.

(** * Numerals, slices and inversions *)

(** ** Decimal numerals *)

Arguments str_of_digit num : simpl never.

Lemma chr_digit_byte d : d < 10 -> chr (digit_byte d) = str_of_digit d.
Proof. intro H. do 10 (destruct d as [|d]; [reflexivity|]). lia. Qed.

Lemma str_of_digit_inj d d' :
  d < 10 -> d' < 10 -> str_of_digit d = str_of_digit d' -> d = d'.
Proof.
  intros H H' E. apply (f_equal nat_of_ascii) in E. unfold str_of_digit in E.
  rewrite !nat_ascii_embedding in E by lia. lia.
Qed.

Lemma isdigit_str_of_digit d : d < 10 -> isdigit (str_of_digit d) = true.
Proof. intro H. do 10 (destruct d as [|d]; [reflexivity|]). lia. Qed.

Lemma digit_loop_found d self : forall nums,
  d < 10 -> Forall (fun num => num < 10) nums -> In d nums ->
  _char self = Some (str_of_digit d) ->
  digit_loop nums self = Return (d, at_index (_data self) (S (_index self))).
Proof.
  intros nums Hd Hall Hin Hc. induction Hall as [|num nums Hn _ IH];
    [contradiction|].
  cbn [digit_loop]. rewrite Hc. cbn [char_is].
  destruct (Ascii.eqb_spec (str_of_digit d) (str_of_digit num)) as [E|E].
  - apply str_of_digit_inj in E; [subst num | assumption | assumption].
    unfold bind. rewrite (consume_return _ _ Hc). reflexivity.
  - apply IH. destruct Hin as [->|Hin]; [congruence | assumption].
Qed.

(** [_decode_digit] on a digit: its number, one byte further. *)
Lemma decode_digit_at data i d rest :
  d < 10 -> skipn i data = digit_byte d :: rest ->
  _decode_digit (at_index data i) = Return (d, at_index data (S i)).
Proof.
  intros Hd Hs. unfold _decode_digit.
  apply (digit_loop_found d (at_index data i) (seq 0 10) Hd).
  - apply Forall_forall. intros num Hin. apply in_seq in Hin. lia.
  - apply in_seq. lia.
  - rewrite at_index_char, (char_at_skipn _ _ _ _ Hs), chr_digit_byte by lia.
    reflexivity.
Qed.

Lemma first_char_cons x rest : first_char (x :: rest) = Some (chr x).
Proof. reflexivity. Qed.

Lemma char_at_first_char data i rest :
  skipn i data = rest -> char_at data i = first_char rest.
Proof.
  intro Hs. destruct rest as [|x rest].
  - apply char_at_skipn_nil, Hs.
  - apply (char_at_skipn _ _ _ _ Hs).
Qed.

Lemma num_loop_eq fuel num self :
  num_loop fuel num self =
  if char_isdigit (_char self) then
    match fuel with
    | 0 => OutOfFuel
    | S fuel' =>
        (d <- _decode_digit ;; num_loop fuel' (str_append_digit num d)) self
    end
  else Return (num, self).
Proof. destruct fuel; reflexivity. Qed.

Lemma num_loop_digits ds : forall data i rest fuel num,
  Forall (fun d => d < 10) ds ->
  skipn i data = digit_bytes ds ++ rest ->
  char_isdigit (first_char rest) = false ->
  List.length ds <= fuel ->
  num_loop fuel num (at_index data i)
  = Return (append_digits num ds, at_index data (i + List.length ds)).
Proof.
  induction ds as [|d ds IH]; intros data i rest fuel num Hall Hs Hrest Hf.
  - simpl in Hs. rewrite Nat.add_0_r, num_loop_eq, at_index_char.
    rewrite (char_at_first_char _ _ _ Hs), Hrest. reflexivity.
  - apply Forall_cons_iff in Hall. destruct Hall as [Hd Hall].
    simpl in Hs, Hf. destruct fuel as [|fuel]; [lia|].
    rewrite num_loop_eq.
    rewrite at_index_char, (char_at_skipn _ _ _ _ Hs), chr_digit_byte by lia.
    cbn [char_isdigit]. rewrite (isdigit_str_of_digit _ Hd).
    unfold bind. rewrite (decode_digit_at _ _ _ _ Hd Hs).
    destruct (skipn_cons_inv _ _ _ _ Hs) as (_ & _ & Hs').
    rewrite (IH data (S i) rest fuel _ Hall Hs' Hrest) by lia.
    simpl. rewrite Nat.add_succ_r. reflexivity.
Qed.

Lemma int_acc_app num num' acc :
  int_acc (num ++ num')%string acc = int_acc num' (int_acc num acc).
Proof.
  revert acc. induction num as [|c num IH]; intro acc; simpl; [reflexivity|].
  apply IH.
Qed.

Lemma int_acc_digit d acc :
  d < 10 ->
  int_acc (String (str_of_digit d) EmptyString) acc
  = (10 * acc + Z.of_nat d)%Z.
Proof.
  intro H. cbn [int_acc]. unfold str_of_digit.
  rewrite nat_ascii_embedding by lia. lia.
Qed.

Lemma int_append_digits ds : forall num,
  Forall (fun d => d < 10) ds ->
  int (append_digits num ds)
  = fold_left (fun acc d => (10 * acc + Z.of_nat d)%Z) ds (int num).
Proof.
  unfold int, append_digits.
  induction ds as [|d ds IH]; intros num Hall; cbn [fold_left];
    [reflexivity|].
  apply Forall_cons_iff in Hall. destruct Hall as [Hd Hall].
  rewrite (IH _ Hall). unfold str_append_digit.
  rewrite int_acc_app, (int_acc_digit _ _ Hd). reflexivity.
Qed.

Lemma append_digits_nonempty ds num :
  ds <> [] -> append_digits num ds <> EmptyString.
Proof.
  unfold append_digits. revert num.
  induction ds as [|d ds IH]; intros num Hne; [congruence|]. simpl.
  destruct ds as [|d' ds].
  - simpl. unfold str_append_digit. destruct num; discriminate.
  - apply IH. discriminate.
Qed.

Lemma canonical_head_char d ds :
  canonical (d :: ds) -> d <> 0 ->
  char_is (Some (str_of_digit d)) "0" = false.
Proof.
  intros [Hall _] Hd. apply Forall_cons_iff in Hall. destruct Hall as [Hlt _].
  change "0"%char with (str_of_digit 0). cbn [char_is].
  destruct (Ascii.eqb_spec (str_of_digit d) (str_of_digit 0)) as [E|];
    [|reflexivity].
  apply str_of_digit_inj in E; [contradiction | assumption | lia].
Qed.

(** [_decode_num] on a numeral followed by something that [isdigit] does
    not take: the value of the numeral, and as many bytes further as it
    has digits. *)
Lemma decode_num_digits ds data i rest fuel :
  canonical ds ->
  skipn i data = digit_bytes ds ++ rest ->
  char_isdigit (first_char rest) = false ->
  List.length ds <= fuel ->
  _decode_num fuel (at_index data i)
  = Return (digits_value ds, at_index data (i + List.length ds)).
Proof.
  intros Hcan Hs Hrest Hf. pose proof Hcan as [Hall Hshape].
  destruct ds as [|d ds]; [contradiction|].
  assert (Hd : d < 10) by (inversion Hall; assumption).
  assert (Hc : _char (at_index data i) = Some (str_of_digit d)).
  { simpl in Hs. rewrite at_index_char, (char_at_skipn _ _ _ _ Hs).
    rewrite chr_digit_byte by lia. reflexivity. }
  unfold _decode_num, bind at 1.
  destruct d as [|d].
  - destruct ds as [|d' ds]; [|contradiction].
    simpl in Hs.
    assert (Hn : num_digits fuel (at_index data i)
                 = Return (str_append_digit EmptyString 0,
                           at_index data (S i))).
    { unfold num_digits. rewrite Hc. change (str_of_digit 0) with "0"%char.
      rewrite char_is_refl. unfold bind.
      rewrite (decode_digit_zero _ Hc).
      destruct (skipn_cons_inv _ _ _ _ Hs) as (_ & _ & Hs').
      simpl _data. simpl _index.
      rewrite at_index_char, (char_at_first_char _ _ _ Hs'), Hrest.
      reflexivity. }
    rewrite Hn. simpl. rewrite Nat.add_1_r. reflexivity.
  - assert (Hn : num_digits fuel (at_index data i)
                 = Return (append_digits EmptyString (S d :: ds),
                           at_index data (i + List.length (S d :: ds)))).
    { unfold num_digits.
      rewrite Hc, (canonical_head_char _ _ Hcan) by discriminate.
      apply (num_loop_digits _ _ _ rest); assumption. }
    rewrite Hn.
    destruct (append_digits EmptyString (S d :: ds)) as [|c num] eqn:Hnum.
    + apply append_digits_nonempty in Hnum; [contradiction | discriminate].
    + rewrite <- Hnum. unfold ret.
      rewrite (int_append_digits _ _ Hall). reflexivity.
Qed.

Lemma canonical_head ds :
  canonical ds ->
  exists d ds', ds = d :: ds' /\ d < 10 /\ (d = 0 -> ds' = []).
Proof.
  intros [Hall Hshape]. destruct ds as [|d ds']; [contradiction|].
  exists d, ds'. split; [reflexivity|]. split; [inversion Hall; assumption|].
  intros ->. destruct ds'; [reflexivity | contradiction].
Qed.

Lemma decode_snum_digits ds data i rest fuel :
  canonical ds ->
  skipn i data = digit_bytes ds ++ rest ->
  char_isdigit (first_char rest) = false ->
  List.length ds <= fuel ->
  _decode_snum fuel (at_index data i)
  = Return (digits_value ds, at_index data (i + List.length ds)).
Proof.
  intros Hcan Hs Hrest Hf.
  destruct (canonical_head _ Hcan) as (d & ds' & -> & Hd & _).
  unfold _decode_snum. simpl in Hs.
  rewrite at_index_char, (char_at_skipn _ _ _ _ Hs), chr_digit_byte by lia.
  cbn [char_isdigit]. rewrite (isdigit_str_of_digit _ Hd).
  apply (decode_num_digits _ _ _ rest); assumption.
Qed.

Lemma decode_snum_minus_digits ds data i rest fuel :
  canonical ds -> ds <> [0] ->
  skipn i data = x2d :: digit_bytes ds ++ rest ->
  char_isdigit (first_char rest) = false ->
  List.length ds <= fuel ->
  _decode_snum fuel (at_index data i)
  = Return ((- digits_value ds)%Z, at_index data (S i + List.length ds)).
Proof.
  intros Hcan Hnz Hs Hrest Hf.
  destruct (canonical_head _ Hcan) as (d & ds' & -> & Hd & Hzero).
  assert (Hd0 : d <> 0) by (intros ->; rewrite Hzero in Hnz; congruence).
  destruct (skipn_cons_inv _ _ _ _ Hs) as (_ & _ & Hs').
  unfold _decode_snum.
  rewrite at_index_char, (char_at_skipn _ _ _ _ Hs).
  change (char_isdigit (Some (chr x2d))) with false.
  change (char_is (Some (chr x2d)) "-") with true. cbv iota.
  unfold bind at 1. rewrite (consume_at _ _ "-" _ _ Hs eq_refl).
  rewrite at_index_char.
  assert (Hs'' : skipn (S i) data = digit_byte d :: digit_bytes ds' ++ rest)
    by exact Hs'.
  rewrite (char_at_skipn _ _ _ _ Hs''), chr_digit_byte by lia.
  rewrite (canonical_head_char _ _ Hcan Hd0).
  unfold bind.
  rewrite (decode_num_digits _ _ _ rest fuel Hcan Hs' Hrest Hf).
  reflexivity.
Qed.

Lemma length_digit_bytes ds : List.length (digit_bytes ds) = List.length ds.
Proof. apply length_map. Qed.

Lemma skipn_app_exact {A} (l l' : list A) :
  skipn (List.length l) (l ++ l') = l'.
Proof. rewrite skipn_app, skipn_all, Nat.sub_diag. reflexivity. Qed.

(** An integer in canonical notation decodes to its value. *)
Lemma decode_int_of_digits ds :
  canonical ds ->
  decode (b "i" ++ digit_bytes ds ++ b "e") = Return (Int (digits_value ds)).
Proof.
  intro Hcan.
  change (b "i" ++ digit_bytes ds ++ b "e")
    with (x69 :: digit_bytes ds ++ [x65]).
  set (data := x69 :: digit_bytes ds ++ [x65]).
  assert (Hs : skipn 1 data = digit_bytes ds ++ [x65]) by reflexivity.
  destruct (skipn_app_inv _ _ _ _ Hs) as [Hs1 _].
  rewrite length_digit_bytes in Hs1.
  destruct (skipn_cons_inv _ _ _ _ Hs1) as (_ & _ & Hs2).
  unfold data at 1. rewrite decode_int_run by reflexivity.
  fold data. unfold bind.
  rewrite (decode_snum_digits ds data 1 [x65]);
    [|assumption|assumption|reflexivity|rewrite length_app, length_digit_bytes; lia].
  rewrite (consume_at _ _ "e" _ _ Hs1 eq_refl).
  unfold ret, finish. rewrite at_index_char, (char_at_skipn_nil _ _ Hs2).
  reflexivity.
Qed.

Lemma decode_negative_of_digits ds :
  canonical ds -> ds <> [0] ->
  decode (b "i-" ++ digit_bytes ds ++ b "e")
  = Return (Int (- digits_value ds)).
Proof.
  intros Hcan Hnz.
  change (b "i-" ++ digit_bytes ds ++ b "e")
    with (x69 :: x2d :: digit_bytes ds ++ [x65]).
  set (data := x69 :: x2d :: digit_bytes ds ++ [x65]).
  assert (Hs : skipn 1 data = x2d :: digit_bytes ds ++ [x65]) by reflexivity.
  assert (Hs0 : skipn 2 data = digit_bytes ds ++ [x65]) by reflexivity.
  destruct (skipn_app_inv _ _ _ _ Hs0) as [Hs1 _].
  rewrite length_digit_bytes in Hs1.
  destruct (skipn_cons_inv _ _ _ _ Hs1) as (_ & _ & Hs2).
  unfold data at 1. rewrite decode_int_run by reflexivity.
  fold data. unfold bind.
  rewrite (decode_snum_minus_digits ds data 1 [x65]);
    [|assumption|assumption|assumption|reflexivity|
     simpl; rewrite length_app, length_digit_bytes; lia].
  rewrite (consume_at _ _ "e" _ _ Hs1 eq_refl).
  unfold ret, finish. rewrite at_index_char, (char_at_skipn_nil _ _ Hs2).
  reflexivity.
Qed.

(** *** Every number has a canonical numeral *)

Lemma digits_value_app ds d :
  digits_value (ds ++ [d]) = (10 * digits_value ds + Z.of_nat d)%Z.
Proof. unfold digits_value. rewrite fold_left_app. reflexivity. Qed.

Lemma digits_value_nonneg ds : (0 <= digits_value ds)%Z.
Proof.
  unfold digits_value.
  assert (H : forall acc, (0 <= acc)%Z ->
            (0 <= fold_left (fun acc d => 10 * acc + Z.of_nat d) ds acc)%Z).
  { induction ds as [|d ds IH]; intros acc Hacc; cbn [fold_left];
      [assumption|].
    apply IH. lia. }
  apply H. lia.
Qed.

Lemma canonical_app ds d :
  canonical ds -> (0 < digits_value ds)%Z -> d < 10 -> canonical (ds ++ [d]).
Proof.
  intros Hcan Hpos Hd. destruct (canonical_head _ Hcan) as (d0 & ds' & -> & Hd0 & Hz).
  destruct Hcan as [Hall _]. split.
  - apply Forall_app. split; [assumption|].
    constructor; [assumption | constructor].
  - destruct d0 as [|d0]; [|destruct ds'; exact I].
    rewrite (Hz eq_refl) in Hpos. unfold digits_value in Hpos.
    cbn [fold_left] in Hpos. lia.
Qed.

Lemma canonical_exists (n : nat) :
  exists ds, canonical ds /\ digits_value ds = Z.of_nat n.
Proof.
  induction n as [n IH] using lt_wf_ind.
  destruct (Nat.lt_ge_cases n 10) as [Hlt|Hge].
  - exists [n]. split.
    + split; [constructor; [assumption | constructor] | destruct n; exact I].
    + unfold digits_value. cbn [fold_left]. lia.
  - destruct (IH (n / 10)) as (ds & Hcan & Hval).
    { apply Nat.div_lt; lia. }
    assert (Hq : 1 <= n / 10) by (apply Nat.div_le_lower_bound; lia).
    exists (ds ++ [n mod 10]). split.
    + apply canonical_app; [assumption | lia |].
      apply Nat.mod_upper_bound. lia.
    + rewrite digits_value_app, Hval.
      rewrite (Nat.div_mod_eq n 10) at 3. lia.
Qed.

(** ** Byte strings *)

Lemma decode_char_at data i x rest :
  skipn i data = x :: rest ->
  _decode_char (at_index data i) = Return (x, at_index data (S i)).
Proof.
  intro Hs. destruct (skipn_cons_inv _ _ _ _ Hs) as (Hn & _ & _).
  unfold _decode_char. cbn [_data _index at_index]. rewrite Hn. reflexivity.
Qed.

(** With the payload in the buffer, the loop of [_decode_str] returns
    it. *)
Lemma chars_loop_ok payload : forall data i rest byte_data,
  skipn i data = payload ++ rest ->
  chars_loop (List.length payload) byte_data (at_index data i)
  = Return (byte_data ++ payload, at_index data (i + List.length payload)).
Proof.
  induction payload as [|x payload IH]; intros data i rest byte_data Hs.
  - simpl. rewrite app_nil_r, Nat.add_0_r. reflexivity.
  - simpl in Hs. destruct (skipn_cons_inv _ _ _ _ Hs) as (_ & _ & Hs').
    cbn [chars_loop List.length]. unfold bind.
    rewrite (decode_char_at _ _ _ _ Hs), (IH _ _ rest _ Hs').
    rewrite <- app_assoc, Nat.add_succ_r. reflexivity.
Qed.

(** A length in canonical notation, [":"] and as many bytes decode to
    these bytes. *)
Lemma decode_str_of ds payload :
  canonical ds -> digits_value ds = Z.of_nat (List.length payload) ->
  decode (digit_bytes ds ++ b ":" ++ payload) = Return (Bytes payload).
Proof.
  intros Hcan Hval.
  destruct (canonical_head _ Hcan) as (d & ds' & Hds & Hd & _).
  set (data := digit_bytes ds ++ b ":" ++ payload).
  assert (Hdata : data = digit_byte d :: (digit_bytes ds' ++ b ":" ++ payload))
    by (unfold data; rewrite Hds; reflexivity).
  assert (Hs : skipn 0 data = digit_bytes ds ++ x3a :: payload) by reflexivity.
  destruct (skipn_app_inv _ _ _ _ Hs) as [Hs1 _].
  rewrite length_digit_bytes in Hs1. simpl in Hs1.
  destruct (skipn_cons_inv _ _ _ _ Hs1) as (_ & _ & Hs2).
  assert (Hs3 : skipn (S (List.length ds)) data = payload ++ [])
    by (rewrite app_nil_r; exact Hs2).
  destruct (skipn_app_inv _ _ _ _ Hs3) as [Hs4 _].
  rewrite Hdata at 1.
  rewrite decode_str_run
    by (rewrite chr_digit_byte, isdigit_str_of_digit by lia; reflexivity).
  rewrite <- Hdata. unfold _decode_str, bind.
  rewrite (decode_num_digits ds data 0 (x3a :: payload));
    [|assumption|exact Hs|reflexivity|].
  - simpl (0 + _). rewrite (consume_at _ _ ":" _ _ Hs1 eq_refl).
    rewrite Hval, Nat2Z.id, (chars_loop_ok _ _ _ [] _ Hs3).
    unfold ret, finish. rewrite at_index_char, (char_at_skipn_nil _ _ Hs4).
    reflexivity.
  - rewrite Hds. cbn [List.length].
    rewrite length_app, length_digit_bytes. lia.
Qed.

(** [_decode_str] with enough bytes after the [":"]: exactly the declared
    number of bytes, as they are in the buffer. *)
Lemma decode_str_exact fuel self num s1 :
  cursor_ok self ->
  _decode_num fuel self = Return (num, s1) ->
  _char s1 = Some ":"%char ->
  Z.to_nat num < remaining s1 ->
  _decode_str fuel self
  = Return (firstn (Z.to_nat num) (skipn (S (_index s1)) (_data self)),
            at_index (_data self) (S (_index s1) + Z.to_nat num)).
Proof.
  intros Hok Hnum Hc Hrem. unfold _decode_str, bind. rewrite Hnum.
  rewrite (consume_return _ _ Hc).
  assert (Hmoved : moved 0 self num s1).
  { pose proof (decode_num_triple (Nat.max fuel (remaining self)) self Hok
                  (Nat.le_max_r _ _)) as Ht.
    unfold triple in Ht.
    rewrite (decode_num_fuel_le fuel _ (Nat.le_max_l _ _)) in Ht
      by (rewrite Hnum; discriminate).
    rewrite Hnum in Ht. exact Ht. }
  destruct Hmoved as (Hok1 & Hd & _).
  fold (at_index (_data s1) (S (_index s1))). rewrite Hd.
  set (n := Z.to_nat num) in *. set (data := _data self) in *.
  set (payload := firstn n (skipn (S (_index s1)) data)).
  assert (Hlen : List.length payload = n).
  { unfold payload. apply firstn_length_le. rewrite length_skipn.
    unfold remaining in Hrem. rewrite Hd in Hrem. lia. }
  rewrite <- Hlen at 1 2.
  rewrite (chars_loop_ok payload data (S (_index s1))
             (skipn n (skipn (S (_index s1)) data)) []).
  - reflexivity.
  - unfold payload. symmetry. apply firstn_skipn.
Qed.

(** ** The position of a missing delimiter *)

Lemma consume_mismatch data i c rest :
  skipn i data = rest -> char_is (first_char rest) c = false ->
  _consume c (at_index data i)
  = Raise (ValueError (Expected c i (first_char rest))).
Proof.
  intros Hs Hc. unfold _consume.
  rewrite at_index_char, (char_at_first_char _ _ _ Hs), Hc. reflexivity.
Qed.

Lemma decode_str_missing_colon ds rest :
  canonical ds ->
  char_isdigit (first_char rest) = false ->
  char_is (first_char rest) ":" = false ->
  decode (digit_bytes ds ++ rest)
  = Raise (ValueError (Expected ":" (List.length ds) (first_char rest))).
Proof.
  intros Hcan Hrest Hc.
  destruct (canonical_head _ Hcan) as (d & ds' & Hds & Hd & _).
  set (data := digit_bytes ds ++ rest).
  assert (Hdata : data = digit_byte d :: (digit_bytes ds' ++ rest))
    by (unfold data; rewrite Hds; reflexivity).
  assert (Hs : skipn 0 data = digit_bytes ds ++ rest) by reflexivity.
  destruct (skipn_app_inv _ _ _ _ Hs) as [Hs1 _].
  rewrite length_digit_bytes in Hs1. simpl in Hs1.
  rewrite Hdata at 1.
  rewrite decode_str_run
    by (rewrite chr_digit_byte, isdigit_str_of_digit by lia; reflexivity).
  rewrite <- Hdata. unfold _decode_str, bind.
  rewrite (decode_num_digits ds data 0 rest);
    [|assumption|exact Hs|assumption|].
  - simpl (0 + _). rewrite (consume_mismatch _ _ _ _ Hs1 Hc). reflexivity.
  - rewrite Hds. cbn [List.length].
    rewrite length_app, length_digit_bytes. lia.
Qed.

Lemma decode_int_missing_e ds rest :
  canonical ds ->
  char_isdigit (first_char rest) = false ->
  char_is (first_char rest) "e" = false ->
  decode (b "i" ++ digit_bytes ds ++ rest)
  = Raise (ValueError (Expected "e" (S (List.length ds)) (first_char rest))).
Proof.
  intros Hcan Hrest Hc.
  change (b "i" ++ digit_bytes ds ++ rest) with (x69 :: digit_bytes ds ++ rest).
  set (data := x69 :: digit_bytes ds ++ rest).
  assert (Hs : skipn 1 data = digit_bytes ds ++ rest) by reflexivity.
  destruct (skipn_app_inv _ _ _ _ Hs) as [Hs1 _].
  rewrite length_digit_bytes in Hs1.
  unfold data at 1. rewrite decode_int_run by reflexivity.
  fold data. unfold bind.
  rewrite (decode_snum_digits ds data 1 rest);
    [|assumption|assumption|assumption|rewrite length_app, length_digit_bytes; lia].
  rewrite (consume_mismatch _ _ _ _ Hs1 Hc). reflexivity.
Qed.

Lemma decode_int_minus_missing_e ds rest :
  canonical ds -> ds <> [0] ->
  char_isdigit (first_char rest) = false ->
  char_is (first_char rest) "e" = false ->
  decode (b "i-" ++ digit_bytes ds ++ rest)
  = Raise (ValueError (Expected "e" (S (S (List.length ds)))
                                (first_char rest))).
Proof.
  intros Hcan Hnz Hrest Hc.
  change (b "i-" ++ digit_bytes ds ++ rest)
    with (x69 :: x2d :: digit_bytes ds ++ rest).
  set (data := x69 :: x2d :: digit_bytes ds ++ rest).
  assert (Hs : skipn 1 data = x2d :: digit_bytes ds ++ rest) by reflexivity.
  assert (Hs0 : skipn 2 data = digit_bytes ds ++ rest) by reflexivity.
  destruct (skipn_app_inv _ _ _ _ Hs0) as [Hs1 _].
  rewrite length_digit_bytes in Hs1.
  unfold data at 1. rewrite decode_int_run by reflexivity.
  fold data. unfold bind.
  rewrite (decode_snum_minus_digits ds data 1 rest);
    [|assumption|assumption|assumption|assumption|
     simpl; rewrite length_app, length_digit_bytes; lia].
  rewrite (consume_mismatch _ _ _ _ Hs1 Hc). reflexivity.
Qed.

(** ** Dictionary keys *)

Lemma decode_dict_key_not_string rest :
  rest <> [] -> char_ascii_digit (first_char rest) = false ->
  decode (b "d" ++ rest)
  = Raise (ValueError (if char_isdigit (first_char rest) then NotBencoding
                       else NoDigit)).
Proof.
  intros Hne Hc. change (b "d" ++ rest) with (x64 :: rest).
  rewrite decode_unfold, decode_bencode_d by reflexivity.
  change (at_index (_data (at_index (x64 :: rest) 0))
            (S (_index (at_index (x64 :: rest) 0))))
    with (at_index (x64 :: rest) 1).
  assert (Hchar : _char (at_index (x64 :: rest) 1) = first_char rest)
    by apply (char_at_app_first [x64] rest).
  unfold bind at 1. rewrite dict_loop_S, Hchar.
  destruct rest as [|x rest]; [congruence|]. rewrite first_char_cons.
  rewrite <- (first_char_cons x rest).
  unfold bind at 1, _decode_str. unfold bind at 1.
  rewrite decode_num_not_ascii by (rewrite Hchar; exact Hc).
  rewrite Hchar. reflexivity.
Qed.

(** ** The first byte and the kind of value *)

Lemma decode_num_returns_digit fuel self num self' :
  _decode_num (S fuel) self = Return (num, self') ->
  char_ascii_digit (_char self) = true.
Proof.
  intro H. destruct (char_ascii_digit (_char self)) eqn:Hc; [reflexivity|].
  rewrite (decode_num_not_ascii _ _ Hc) in H. discriminate.
Qed.

Lemma decode_kind x body v :
  decode (x :: body) = Return v ->
  match v with
  | Bytes _ => ascii_digit (chr x) = true
  | Int _ => chr x = "i"%char
  | BList _ => chr x = "l"%char
  | BDict _ => chr x = "d"%char
  end.
Proof.
  intro H. apply decode_return in H. destruct H as [_ H].
  cbn [List.length _decode_bencode] in H.
  change (_char (at_index (x :: body) 0)) with (Some (chr x)) in H.
  cbn [char_is char_isdigit] in H.
  destruct (Ascii.eqb_spec (chr x) "d") as [Ed|_].
  { apply bind_inv in H. destruct H as (r & s1 & _ & H).
    injection H as <- _. exact Ed. }
  destruct (Ascii.eqb_spec (chr x) "l") as [El|_].
  { apply bind_inv in H. destruct H as (r & s1 & _ & H).
    injection H as <- _. exact El. }
  destruct (Ascii.eqb_spec (chr x) "i") as [Ei|_].
  { apply bind_inv in H. destruct H as (r & s1 & _ & H).
    injection H as <- _. exact Ei. }
  destruct (isdigit (chr x)); [|discriminate].
  apply bind_inv in H. destruct H as (r & s1 & H1 & H).
  injection H as <- _. unfold _decode_str in H1.
  apply bind_inv in H1. destruct H1 as (num & s2 & H1 & _).
  apply decode_num_returns_digit in H1. exact H1.
Qed.

(** ** Extra data *)

Lemma decode_extra_data_inv data :
  decode data = Raise (ValueError ExtraData) ->
  exists v decoder',
    _decode_bencode (S (List.length data)) (at_index data 0)
    = Return (v, decoder') /\
    cursor_ok decoder' /\ _data decoder' = data /\
    0 < _index decoder' < List.length data.
Proof.
  intro H. destruct data as [|x body] eqn:Hd; [discriminate|].
  rewrite <- Hd in *. assert (Hne : data <> []) by congruence.
  unfold decode, decode_with in H. rewrite (init_nonempty _ Hne) in H.
  assert (Hr : remaining (at_index data 0) < S (List.length data))
    by (unfold remaining; simpl; lia).
  pose proof (decode_bencode_triple _ _
                (cursor_ok_at _ _ (Nat.le_0_l _)) Hr) as Ht.
  unfold triple in Ht.
  destruct (_decode_bencode _ _) as [[v decoder']|e|]; [| |contradiction].
  - exists v, decoder'. destruct Ht as (Hok & Hdata & Hi).
    simpl in Hdata, Hi.
    split; [reflexivity|]. split; [exact Hok|]. split; [exact Hdata|].
    split; [lia|].
    destruct (_char decoder') eqn:Hc; [|discriminate].
    pose proof (cursor_some _ _ Hok Hc). congruence.
  - injection H as ->. destruct Ht as [_ Ht]. congruence.
Qed.

(** ** Dictionaries built by assignments *)

Lemma bytes_eqb_neq a c : a <> c -> bytes_eqb a c = false.
Proof.
  intro H. destruct (bytes_eqb a c) eqn:E; [|reflexivity].
  apply bytes_eqb_eq in E. contradiction.
Qed.

Lemma setitem_new dictionary key value :
  ~ In key (map fst dictionary) ->
  setitem dictionary key value = dictionary ++ [(key, value)].
Proof.
  induction dictionary as [|[k v] rest IH]; intro Hn; simpl; [reflexivity|].
  simpl in Hn. rewrite bytes_eqb_neq by tauto. rewrite IH by tauto.
  reflexivity.
Qed.

Lemma setitems_distinct kvs : forall dictionary,
  NoDup (map fst (dictionary ++ kvs)) ->
  setitems dictionary kvs = dictionary ++ kvs.
Proof.
  unfold setitems.
  induction kvs as [|[k v] kvs IH]; intros dictionary Hn; simpl.
  - rewrite app_nil_r. reflexivity.
  - rewrite map_app in Hn. simpl in Hn.
    pose proof (NoDup_remove_2 _ _ _ Hn) as Hk.
    rewrite setitem_new by (intro Hin; apply Hk, in_or_app; left; exact Hin).
    rewrite IH.
    + rewrite <- app_assoc. reflexivity.
    + rewrite <- app_assoc, map_app. exact Hn.
Qed.

Lemma getitem_setitem_other dictionary key value k :
  key <> k ->
  getitem (setitem dictionary key value) k = getitem dictionary k.
Proof.
  intro Hne. induction dictionary as [|[k0 v0] rest IH]; simpl.
  - rewrite bytes_eqb_neq by assumption. reflexivity.
  - destruct (bytes_eqb k0 key) eqn:E; simpl.
    + apply bytes_eqb_eq in E. subst k0.
      rewrite !bytes_eqb_neq by assumption. reflexivity.
    + destruct (bytes_eqb k0 k); [reflexivity | exact IH].
Qed.

(** A lookup after a sequence of assignments gives the value of the last
    assignment to the key. *)
Lemma getitem_setitems kvs : forall dictionary key,
  getitem (setitems dictionary kvs) key
  = last_value kvs key (getitem dictionary key).
Proof.
  unfold setitems, last_value.
  induction kvs as [|[k v] kvs IH]; intros dictionary key; simpl;
    [reflexivity|].
  rewrite IH. f_equal.
  destruct (bytes_eqb k key) eqn:E.
  - apply bytes_eqb_eq in E. subst k. apply setitem_getitem.
  - apply getitem_setitem_other. intros ->.
    rewrite bytes_eqb_refl in E. discriminate.
Qed.

(** The keys stay in the order in which they first occur. *)
Lemma keys_setitems kvs : forall dictionary,
  map fst (setitems dictionary kvs)
  = first_keys (map fst kvs) (map fst dictionary).
Proof.
  unfold setitems, first_keys.
  induction kvs as [|[k v] kvs IH]; intro dictionary; simpl; [reflexivity|].
  rewrite IH, setitem_keys. reflexivity.
Qed.

(** ** Every well-formed value is decoded from some buffer *)

Lemma BencodedValue_nested_ind (P : BencodedValue -> Prop) :
  (forall x, P (Bytes x)) ->
  (forall n, P (Int n)) ->
  (forall l, Forall P l -> P (BList l)) ->
  (forall d, Forall (fun kv => P (snd kv)) d -> P (BDict d)) ->
  forall v, P v.
Proof.
  intros HB HI HL HD. fix IH 1. intros [x|n|l|d].
  - apply HB.
  - apply HI.
  - apply HL. induction l as [|v l IHl]; constructor; [apply IH | exact IHl].
  - apply HD. induction d as [|[k v] d IHd]; constructor;
      [apply IH | exact IHd].
Qed.

Lemma decode_onto_bytes payload :
  exists data, decode data = Return (Bytes payload).
Proof.
  destruct (canonical_exists (List.length payload)) as (ds & Hcan & Hval).
  exists (digit_bytes ds ++ b ":" ++ payload).
  apply decode_str_of; assumption.
Qed.

Lemma decode_onto_int n : exists data, decode data = Return (Int n).
Proof.
  destruct (Z.le_gt_cases 0 n) as [Hpos|Hneg].
  - destruct (canonical_exists (Z.to_nat n)) as (ds & Hcan & Hval).
    exists (b "i" ++ digit_bytes ds ++ b "e").
    rewrite (decode_int_of_digits _ Hcan), Hval, Z2Nat.id by assumption.
    reflexivity.
  - destruct (canonical_exists (Z.to_nat (- n))) as (ds & Hcan & Hval).
    exists (b "i-" ++ digit_bytes ds ++ b "e").
    rewrite decode_negative_of_digits; [|assumption|].
    + rewrite Hval, Z2Nat.id by lia. f_equal. f_equal. lia.
    + intros ->. unfold digits_value in Hval. simpl in Hval. lia.
Qed.

Lemma Forall2_flip_iff {A B} (R : A -> B -> Prop) l l' :
  Forall2 R l l' -> Forall2 (fun y x => R x y) l' l.
Proof. induction 1; constructor; assumption. Qed.

Lemma decode_onto v :
  well_formed v -> exists data, decode data = Return v.
Proof.
  induction v as [payload|n|l IH|d IH] using BencodedValue_nested_ind;
    intro Hwf.
  - apply decode_onto_bytes.
  - apply decode_onto_int.
  - apply well_formed_list in Hwf. destruct Hwf as [Hne Hall].
    assert (Hex : Forall (fun v => exists data, decode data = Return v) l).
    { rewrite Forall_forall in *. intros v Hin. apply IH; auto. }
    destruct (Forall_exists_Forall2 (fun v data => decode data = Return v)
                _ Hex) as [elems Helems].
    apply Forall2_flip_iff in Helems.
    exists (b "l" ++ List.concat elems ++ b "e").
    apply decode_list_of; [exact Helems|].
    intros ->. inversion Helems. congruence.
  - apply well_formed_dict in Hwf. destruct Hwf as (Hne & Hnodup & Hall).
    assert (Hex : Forall (fun kv => exists p, pair_decodes p kv) d).
    { rewrite Forall_forall in *. intros [k v] Hin.
      destruct (decode_onto_bytes k) as [kb Hkb].
      destruct (IH _ Hin (Hall _ Hin)) as [vb Hvb].
      exists (kb, vb). split; assumption. }
    destruct (Forall_exists_Forall2 (fun kv p => pair_decodes p kv) _ Hex)
      as [pairs Hpairs].
    apply Forall2_flip_iff in Hpairs.
    exists (b "d" ++ pairs_bytes pairs ++ b "e").
    rewrite (decode_dict_of pairs d Hpairs).
    + rewrite (setitems_distinct d []) by exact Hnodup. reflexivity.
    + intros ->. inversion Hpairs. congruence.
Qed.

(** ** How far a run that returns has moved, whatever the fuel *)

Lemma triple_moved {A} (m : M A) t min a t' :
  triple m t (moved min t) of_methods -> m t = Return (a, t') ->
  moved min t a t'.
Proof. unfold triple. intros Ht H. rewrite H in Ht. exact Ht. Qed.

Lemma fuel_le_return {A} (m m' : M A) t r :
  fuel_le m m' -> m t = Return r -> m' t = Return r.
Proof. intros Hle H. rewrite Hle; [exact H | rewrite H; discriminate]. Qed.

Lemma consume_moved c t u t' :
  cursor_ok t -> _consume c t = Return (u, t') -> moved 1 t u t'.
Proof. intros Hok. apply triple_moved, consume_triple, Hok. Qed.

Lemma decode_char_moved t x t' :
  cursor_ok t -> _decode_char t = Return (x, t') -> moved 1 t x t'.
Proof. intros Hok. apply triple_moved, decode_char_triple, Hok. Qed.

Lemma decode_digit_moved t d t' :
  cursor_ok t -> _decode_digit t = Return (d, t') -> moved 1 t d t'.
Proof. intros Hok. apply triple_moved, decode_digit_triple, Hok. Qed.

Lemma chars_loop_moved num byte_data t r t' :
  cursor_ok t -> chars_loop num byte_data t = Return (r, t') ->
  moved 0 t r t'.
Proof. intros Hok. apply triple_moved, chars_loop_triple, Hok. Qed.

Lemma num_loop_moved fuel num t r t' :
  cursor_ok t -> num_loop fuel num t = Return (r, t') -> moved 0 t r t'.
Proof.
  intros Hok H.
  apply (triple_moved (num_loop (Nat.max fuel (remaining t)) num)).
  - apply num_loop_triple; [assumption | apply Nat.le_max_r].
  - apply (fuel_le_return (num_loop fuel num)); [|exact H].
    apply num_loop_fuel_le, Nat.le_max_l.
Qed.

Lemma num_loop_moved_or fuel num t r t' :
  cursor_ok t -> num_loop fuel num t = Return (r, t') ->
  (r = num /\ t' = t) \/ moved 1 t r t'.
Proof.
  intros Hok H. rewrite num_loop_eq in H.
  destruct (char_isdigit (_char t)).
  - right. destruct fuel as [|fuel]; [discriminate|].
    apply bind_inv in H. destruct H as (d & t1 & H1 & H2).
    pose proof (decode_digit_moved _ _ _ Hok H1) as M1.
    pose proof (num_loop_moved _ _ _ _ _ (proj1 M1) H2) as M2. chain.
  - left. injection H as <- <-. auto.
Qed.

Lemma decode_num_moved fuel t num t' :
  cursor_ok t -> _decode_num fuel t = Return (num, t') -> moved 1 t num t'.
Proof.
  intros Hok H. unfold _decode_num in H.
  apply bind_inv in H. destruct H as (str & t1 & H1 & H2).
  destruct str as [|c str]; [discriminate|]. injection H2 as <- <-.
  unfold num_digits in H1. destruct (char_is (_char t) "0").
  - apply bind_inv in H1. destruct H1 as (d & t2 & H1 & H2).
    destruct (char_isdigit (_char t2)); [discriminate|].
    assert (E : t1 = t2) by congruence. subst t1.
    pose proof (decode_digit_moved _ _ _ Hok H1) as M1. chain.
  - destruct (num_loop_moved_or _ _ _ _ _ Hok H1) as [[E _]|M1];
      [discriminate | chain].
Qed.

Lemma decode_snum_moved fuel t num t' :
  cursor_ok t -> _decode_snum fuel t = Return (num, t') -> moved 1 t num t'.
Proof.
  intros Hok H. unfold _decode_snum in H.
  destruct (char_isdigit (_char t)).
  { apply (decode_num_moved _ _ _ _ Hok H). }
  destruct (char_is (_char t) "-"); [|discriminate].
  apply bind_inv in H. destruct H as ([] & t1 & H1 & H2).
  pose proof (consume_moved _ _ _ _ Hok H1) as M1.
  destruct (char_is (_char t1) "0"); [discriminate|].
  apply bind_inv in H2. destruct H2 as (v & t2 & H2 & H3).
  injection H3 as _ <-.
  pose proof (decode_num_moved _ _ _ _ (proj1 M1) H2) as M2. chain.
Qed.

Lemma list_loop_moved n k b_list t r t' :
  cursor_ok t -> list_loop (_decode_bencode n) k b_list t = Return (r, t') ->
  moved 1 t r t'.
Proof.
  intros Hok H. set (N := Nat.max (Nat.max n k) (S (remaining t))).
  apply (triple_moved (list_loop (_decode_bencode N) N b_list)).
  - apply (list_loop_triple (_decode_bencode N) N); [|assumption|lia|lia].
    intros self Hs Hr. apply decode_bencode_triple; assumption.
  - apply (fuel_le_return (list_loop (_decode_bencode n) k b_list)); [|exact H].
    apply list_loop_fuel_le; [apply decode_bencode_fuel_le|]; lia.
Qed.

Lemma dict_loop_moved n k dictionary t r t' :
  cursor_ok t ->
  dict_loop (_decode_bencode n) n k dictionary t = Return (r, t') ->
  moved 1 t r t'.
Proof.
  intros Hok H. set (N := Nat.max (Nat.max n k) (S (remaining t))).
  apply (triple_moved (dict_loop (_decode_bencode N) N N dictionary)).
  - apply (dict_loop_triple (_decode_bencode N) N); [|assumption|lia|lia].
    intros self Hs Hr. apply decode_bencode_triple; assumption.
  - apply (fuel_le_return (dict_loop (_decode_bencode n) n k dictionary));
      [|exact H].
    apply dict_loop_fuel_le; [apply decode_bencode_fuel_le| |]; lia.
Qed.

(** ** From the larger buffer back to the small one *)

Lemma moved_bound {A} min t (a : A) t' p :
  moved min t a t' ->
  _index t' + p <= List.length (_data t') ->
  _index t + (min + p) <= List.length (_data t).
Proof. intros (_ & Hd & Hi) Hb. rewrite Hd in Hb. lia. Qed.

Lemma moved_bound_lt {A} min t (a : A) t' p :
  moved min t a t' ->
  _index t' + p < List.length (_data t') ->
  _index t + (min + p) < List.length (_data t).
Proof. intros (_ & Hd & Hi) Hb. rewrite Hd in Hb. lia. Qed.

Section FrameBack.
Variables pre post : bytes.

Lemma embeds_inside s t :
  embeds pre post s t -> _index s < List.length (_data s) ->
  _char t = _char s.
Proof.
  intros He Hlt. destruct (char_at_inside _ _ Hlt) as (x & _ & Hc).
  pose proof He as (_ & _ & [_ Hs] & _). rewrite Hs, Hc.
  apply (embeds_some pre post s t); [assumption | congruence].
Qed.

Lemma embeds_length s t :
  embeds pre post s t ->
  List.length (_data t)
  = List.length pre + List.length (_data s) + List.length post /\
  _index t = List.length pre + _index s /\
  _index s <= List.length (_data s).
Proof.
  intros (Hd & Hi & [Hs _] & _). rewrite Hd, !length_app.
  repeat split; lia.
Qed.

Lemma inside_of_bound s t p :
  embeds pre post s t ->
  _index t + p <= List.length (_data t) -> List.length post < p ->
  _index s < List.length (_data s).
Proof.
  intros He Hb Hp. destruct (embeds_length _ _ He) as (Hl & Hi & _). lia.
Qed.

Lemma embeds_not_digit s t :
  embeds pre post s t -> char_isdigit (_char t) = false ->
  char_isdigit (_char s) = false.
Proof.
  intros He H. destruct (embeds_char pre post _ _ He) as [Hn|Hs].
  - rewrite Hn. reflexivity.
  - rewrite <- Hs. exact H.
Qed.

Lemma embeds_not_char s t c :
  embeds pre post s t -> char_is (_char t) c = false ->
  char_is (_char s) c = false.
Proof.
  intros He H. destruct (embeds_char pre post _ _ He) as [Hn|Hs].
  - rewrite Hn. reflexivity.
  - rewrite <- Hs. exact H.
Qed.

Lemma consume_back c : framed_back pre post (_consume c).
Proof.
  intros s t u t' He H Hb. pose proof He as (_ & _ & _ & Ht).
  pose proof (consume_moved _ _ _ _ Ht H) as M.
  pose proof (inside_of_bound _ _ _ He (moved_bound _ _ _ _ _ M Hb)
                ltac:(lia)) as Hin.
  apply consume_inv in H. destruct H as [Hc ->].
  rewrite (embeds_inside _ _ He Hin) in Hc.
  rewrite (consume_return c s Hc). destruct u.
  eexists. split; [reflexivity | apply embeds_step; assumption].
Qed.

Lemma decode_char_back : framed_back pre post _decode_char.
Proof.
  intros s t x t' He H Hb. pose proof He as (_ & _ & _ & Ht).
  pose proof (decode_char_moved _ _ _ Ht H) as M.
  pose proof (inside_of_bound _ _ _ He (moved_bound _ _ _ _ _ M Hb)
                ltac:(lia)) as Hin.
  apply decode_char_inv in H. destruct H as [Hn ->].
  destruct (embeds_nth pre post _ _ He Hin) as [Hn' _].
  unfold _decode_char. rewrite <- Hn', Hn.
  eexists. split; [reflexivity | apply embeds_step; assumption].
Qed.

Lemma digit_loop_back nums : framed_back pre post (digit_loop nums).
Proof.
  intros s t d t' He H Hb. pose proof He as (_ & _ & _ & Ht).
  pose proof (triple_moved _ _ _ _ _ (digit_loop_triple nums t Ht) H) as M.
  pose proof (inside_of_bound _ _ _ He (moved_bound _ _ _ _ _ M Hb)
                ltac:(lia)) as Hin.
  clear M. induction nums as [|num nums IH]; simpl in H |- *; [discriminate|].
  rewrite (embeds_inside _ _ He Hin) in H.
  destruct (char_is (_char s) (str_of_digit num)); [|auto].
  apply bind_inv in H. destruct H as ([] & t1 & H1 & H2).
  injection H2 as <- <-.
  destruct (consume_back _ _ _ _ _ He H1 Hb) as (s1 & Hs1 & He1).
  exists s1. split; [|assumption]. unfold bind. rewrite Hs1. reflexivity.
Qed.

Lemma num_loop_back fuel : forall num, framed_back pre post (num_loop fuel num).
Proof.
  induction fuel as [|fuel IH]; intros num s t r t' He H Hb;
    pose proof He as (_ & _ & Hs & Ht);
    rewrite num_loop_eq in H |- *;
    (destruct (char_isdigit (_char t)) eqn:Hd;
     [|rewrite (embeds_not_digit _ _ He Hd); injection H as <- <-; eauto]);
    [discriminate|].
  apply bind_inv in H. destruct H as (d & t1 & H1 & H2).
  pose proof (decode_digit_moved _ _ _ Ht H1) as M1.
  pose proof (num_loop_moved _ _ _ _ _ (proj1 M1) H2) as M2.
  pose proof (moved_bound _ _ _ _ _ M2 Hb) as Hb1.
  pose proof (inside_of_bound _ _ _ He (moved_bound _ _ _ _ _ M1 Hb1)
                ltac:(lia)) as Hin.
  rewrite <- (embeds_inside _ _ He Hin), Hd.
  destruct (digit_loop_back _ _ _ _ _ He H1 ltac:(lia)) as (s1 & Hs1 & He1).
  destruct (IH _ _ _ _ _ He1 H2 Hb) as (s' & Hs' & He').
  exists s'. split; [|assumption].
  unfold bind. unfold _decode_digit. rewrite Hs1. exact Hs'.
Qed.

Lemma num_digits_back fuel : framed_back pre post (num_digits fuel).
Proof.
  intros s t r t' He H Hb. pose proof He as (_ & _ & Hs & Ht).
  unfold num_digits in H |- *.
  destruct (char_is (_char t) "0") eqn:Hz.
  - apply bind_inv in H. destruct H as (d & t1 & H1 & H2).
    destruct (char_isdigit (_char t1)) eqn:Hd; [discriminate|].
    injection H2 as <- <-.
    pose proof (decode_digit_moved _ _ _ Ht H1) as M1.
    pose proof (inside_of_bound _ _ _ He (moved_bound _ _ _ _ _ M1 Hb)
                ltac:(lia)) as Hin.
    rewrite <- (embeds_inside _ _ He Hin), Hz.
    destruct (digit_loop_back _ _ _ _ _ He H1 Hb) as (s1 & Hs1 & He1).
    exists s1. split; [|assumption].
    unfold bind. unfold _decode_digit. rewrite Hs1.
    rewrite (embeds_not_digit _ _ He1 Hd). reflexivity.
  - rewrite (embeds_not_char _ _ _ He Hz).
    apply (num_loop_back _ _ _ _ _ _ He H Hb).
Qed.

Lemma decode_num_back fuel : framed_back pre post (_decode_num fuel).
Proof.
  intros s t value t' He H Hb. unfold _decode_num in H |- *.
  apply bind_inv in H. destruct H as (num & t1 & H1 & H2).
  destruct num as [|c num]; [discriminate|]. injection H2 as <- <-.
  destruct (num_digits_back _ _ _ _ _ He H1 Hb) as (s1 & Hs1 & He1).
  exists s1. split; [|assumption]. unfold bind. rewrite Hs1. reflexivity.
Qed.

Lemma decode_snum_back fuel : framed_back pre post (_decode_snum fuel).
Proof.
  intros s t value t' He H Hb. pose proof He as (_ & _ & Hs & Ht).
  pose proof (decode_snum_moved _ _ _ _ Ht H) as M.
  pose proof (inside_of_bound _ _ _ He (moved_bound _ _ _ _ _ M Hb)
                ltac:(lia)) as Hin.
  unfold _decode_snum in H |- *. rewrite <- (embeds_inside _ _ He Hin).
  destruct (char_isdigit (_char t)).
  { apply (decode_num_back _ _ _ _ _ He H Hb). }
  destruct (char_is (_char t) "-"); [|discriminate].
  apply bind_inv in H. destruct H as ([] & t1 & H1 & H2).
  destruct (char_is (_char t1) "0") eqn:Hz; [discriminate|].
  apply bind_inv in H2. destruct H2 as (v & t2 & H2 & H3).
  injection H3 as <- <-.
  pose proof (consume_moved _ _ _ _ Ht H1) as M1.
  pose proof (decode_num_moved _ _ _ _ (proj1 M1) H2) as M2.
  pose proof (moved_bound _ _ _ _ _ M2 Hb) as Hb1.
  destruct (consume_back _ _ _ _ _ He H1 ltac:(lia)) as (s1 & Hs1 & He1).
  destruct (decode_num_back _ _ _ _ _ He1 H2 Hb) as (s2 & Hs2 & He2).
  exists s2. split; [|assumption].
  unfold bind at 1. rewrite Hs1, (embeds_not_char _ _ _ He1 Hz).
  unfold bind. rewrite Hs2. reflexivity.
Qed.

Lemma decode_int_back fuel : framed_back pre post (_decode_int fuel).
Proof.
  intros s t value t' He H Hb. pose proof He as (_ & _ & Hs & Ht).
  unfold _decode_int in H |- *.
  apply bind_inv in H. destruct H as ([] & t1 & H1 & H).
  apply bind_inv in H. destruct H as (v & t2 & H2 & H).
  apply bind_inv in H. destruct H as ([] & t3 & H3 & H).
  injection H as <- <-.
  pose proof (consume_moved _ _ _ _ Ht H1) as M1.
  pose proof (decode_snum_moved _ _ _ _ (proj1 M1) H2) as M2.
  pose proof (consume_moved _ _ _ _ (proj1 M2) H3) as M3.
  pose proof (moved_bound _ _ _ _ _ M3 Hb) as Hb2.
  pose proof (moved_bound _ _ _ _ _ M2 Hb2) as Hb1.
  destruct (consume_back _ _ _ _ _ He H1 ltac:(lia)) as (s1 & Hs1 & He1).
  destruct (decode_snum_back _ _ _ _ _ He1 H2 ltac:(lia)) as (s2 & Hs2 & He2).
  destruct (consume_back _ _ _ _ _ He2 H3 Hb) as (s3 & Hs3 & He3).
  exists s3. split; [|assumption].
  unfold bind. rewrite Hs1, Hs2, Hs3. reflexivity.
Qed.

Lemma chars_loop_back num : forall byte_data,
  framed_back pre post (chars_loop num byte_data).
Proof.
  induction num as [|num IH]; intros byte_data s t r t' He H Hb;
    simpl in H |- *.
  - injection H as <- <-. exists s. split; [reflexivity | assumption].
  - pose proof He as (_ & _ & _ & Ht).
    apply bind_inv in H. destruct H as (x & t1 & H1 & H2).
    pose proof (decode_char_moved _ _ _ Ht H1) as M1.
    pose proof (chars_loop_moved _ _ _ _ _ (proj1 M1) H2) as M2.
    pose proof (moved_bound _ _ _ _ _ M2 Hb) as Hb1.
    destruct (decode_char_back _ _ _ _ He H1 ltac:(lia)) as (s1 & Hs1 & He1).
    destruct (IH _ _ _ _ _ He1 H2 Hb) as (s2 & Hs2 & He2).
    exists s2. split; [|assumption]. unfold bind. rewrite Hs1. exact Hs2.
Qed.

Lemma decode_str_back fuel : framed_back pre post (_decode_str fuel).
Proof.
  intros s t value t' He H Hb. pose proof He as (_ & _ & Hs & Ht).
  unfold _decode_str in H |- *.
  apply bind_inv in H. destruct H as (num & t1 & H1 & H).
  apply bind_inv in H. destruct H as ([] & t2 & H2 & H3).
  pose proof (decode_num_moved _ _ _ _ Ht H1) as M1.
  pose proof (consume_moved _ _ _ _ (proj1 M1) H2) as M2.
  pose proof (chars_loop_moved _ _ _ _ _ (proj1 M2) H3) as M3.
  pose proof (moved_bound _ _ _ _ _ M3 Hb) as Hb2.
  pose proof (moved_bound _ _ _ _ _ M2 Hb2) as Hb1.
  destruct (decode_num_back _ _ _ _ _ He H1 ltac:(lia)) as (s1 & Hs1 & He1).
  destruct (consume_back _ _ _ _ _ He1 H2 ltac:(lia)) as (s2 & Hs2 & He2).
  destruct (chars_loop_back _ _ _ _ _ _ He2 H3 Hb) as (s3 & Hs3 & He3).
  exists s3. split; [|assumption].
  unfold bind. rewrite Hs1, Hs2. exact Hs3.
Qed.
Section BackContainers.
Variable n : nat.
Hypothesis rec_back : framed_back pre post (_decode_bencode n).

Lemma list_loop_back k : forall b_list,
  framed_back_inside pre post (list_loop (_decode_bencode n) k b_list).
Proof.
  induction k as [|k IH]; intros b_list s t r t' He H Hb; [discriminate|].
  pose proof He as (_ & _ & Hs & Ht).
  pose proof (list_loop_moved _ _ _ _ _ _ Ht H) as M.
  pose proof (moved_bound_lt _ _ _ _ _ M Hb) as Hb0.
  assert (Hin : _index s < List.length (_data s))
    by (apply (inside_of_bound s t (S (List.length post)) He); lia).
  rewrite list_loop_S in H |- *. rewrite (embeds_inside _ _ He Hin) in H.
  destruct (_char s); [|discriminate].
  apply bind_inv in H. destruct H as (value & t1 & H1 & H2).
  pose proof (decode_bencode_moved _ _ _ _ Ht H1) as M1.
  unfold list_after in H2.
  destruct (char_is (_char t1) "e") eqn:Hc.
  - injection H2 as <- <-.
    destruct (rec_back _ _ _ _ He H1 ltac:(lia)) as (s1 & Hs1 & He1).
    assert (Hin1 : _index s1 < List.length (_data s1))
      by (apply (inside_of_bound s1 t1 (S (List.length post)) He1); lia).
    exists s1. split; [|assumption].
    unfold bind. rewrite Hs1. unfold list_after.
    rewrite <- (embeds_inside _ _ He1 Hin1), Hc. reflexivity.
  - pose proof (list_loop_moved _ _ _ _ _ _ (proj1 M1) H2) as M2.
    pose proof (moved_bound_lt _ _ _ _ _ M2 Hb) as Hb1.
    destruct (rec_back _ _ _ _ He H1 ltac:(lia)) as (s1 & Hs1 & He1).
    assert (Hin1 : _index s1 < List.length (_data s1))
      by (apply (inside_of_bound s1 t1 (S (List.length post)) He1); lia).
    destruct (IH _ _ _ _ _ He1 H2 Hb) as (s2 & Hs2 & He2).
    exists s2. split; [|assumption].
    unfold bind. rewrite Hs1. unfold list_after.
    rewrite <- (embeds_inside _ _ He1 Hin1), Hc. exact Hs2.
Qed.

Lemma decode_list_back :
  framed_back pre post (_decode_list (_decode_bencode n) n).
Proof.
  intros s t r t' He H Hb. pose proof He as (_ & _ & Hs & Ht).
  unfold _decode_list in H |- *.
  apply bind_inv in H. destruct H as ([] & t1 & H1 & H).
  apply bind_inv in H. destruct H as (l & t2 & H2 & H).
  apply bind_inv in H. destruct H as ([] & t3 & H3 & H).
  injection H as <- <-.
  pose proof (consume_moved _ _ _ _ Ht H1) as M1.
  pose proof (list_loop_moved _ _ _ _ _ _ (proj1 M1) H2) as M2.
  pose proof (consume_moved _ _ _ _ (proj1 M2) H3) as M3.
  pose proof (moved_bound _ _ _ _ _ M3 Hb) as Hb2.
  pose proof (moved_bound _ _ _ _ _ M2 Hb2) as Hb1.
  destruct (consume_back _ _ _ _ _ He H1 ltac:(lia)) as (s1 & Hs1 & He1).
  destruct (list_loop_back _ _ _ _ _ _ He1 H2 ltac:(lia)) as (s2 & Hs2 & He2).
  destruct (consume_back _ _ _ _ _ He2 H3 Hb) as (s3 & Hs3 & He3).
  exists s3. split; [|assumption].
  unfold bind. rewrite Hs1, Hs2, Hs3. reflexivity.
Qed.

Lemma dict_loop_back k : forall dictionary,
  framed_back_inside pre post
    (dict_loop (_decode_bencode n) n k dictionary).
Proof.
  induction k as [|k IH]; intros dictionary s t r t' He H Hb; [discriminate|].
  pose proof He as (_ & _ & Hs & Ht).
  pose proof (dict_loop_moved _ _ _ _ _ _ Ht H) as M.
  pose proof (moved_bound_lt _ _ _ _ _ M Hb) as Hb0.
  assert (Hin : _index s < List.length (_data s))
    by (apply (inside_of_bound s t (S (List.length post)) He); lia).
  rewrite dict_loop_S in H |- *. rewrite (embeds_inside _ _ He Hin) in H.
  destruct (_char s); [|discriminate].
  apply bind_inv in H. destruct H as (key & t1 & H1 & H).
  apply bind_inv in H. destruct H as (value & t2 & H2 & H3).
  pose proof (triple_moved _ _ _ _ _
                (decode_str_triple (Nat.max n (remaining t)) t Ht
                   (Nat.le_max_r _ _))
                (fuel_le_return _ _ _ _
                   (decode_str_fuel_le n _ (Nat.le_max_l _ _)) H1)) as M1.
  pose proof (decode_bencode_moved _ _ _ _ (proj1 M1) H2) as M2.
  unfold dict_after in H3.
  destruct (char_is (_char t2) "e") eqn:Hc.
  - injection H3 as <- <-.
    pose proof (moved_bound_lt _ _ _ _ _ M2 Hb) as Hb1.
    destruct (decode_str_back _ _ _ _ _ He H1 ltac:(lia)) as (s1 & Hs1 & He1).
    destruct (rec_back _ _ _ _ He1 H2 ltac:(lia)) as (s2 & Hs2 & He2).
    assert (Hin2 : _index s2 < List.length (_data s2))
      by (apply (inside_of_bound s2 t2 (S (List.length post)) He2); lia).
    exists s2. split; [|assumption].
    unfold bind. rewrite Hs1, Hs2. unfold dict_after.
    rewrite <- (embeds_inside _ _ He2 Hin2), Hc. reflexivity.
  - pose proof (dict_loop_moved _ _ _ _ _ _ (proj1 M2) H3) as M3.
    pose proof (moved_bound_lt _ _ _ _ _ M3 Hb) as Hb2.
    pose proof (moved_bound_lt _ _ _ _ _ M2 Hb2) as Hb1.
    destruct (decode_str_back _ _ _ _ _ He H1 ltac:(lia)) as (s1 & Hs1 & He1).
    destruct (rec_back _ _ _ _ He1 H2 ltac:(lia)) as (s2 & Hs2 & He2).
    assert (Hin2 : _index s2 < List.length (_data s2))
      by (apply (inside_of_bound s2 t2 (S (List.length post)) He2); lia).
    destruct (IH _ _ _ _ _ He2 H3 Hb) as (s3 & Hs3 & He3).
    exists s3. split; [|assumption].
    unfold bind. rewrite Hs1, Hs2. unfold dict_after.
    rewrite <- (embeds_inside _ _ He2 Hin2), Hc. exact Hs3.
Qed.

Lemma decode_dict_back :
  framed_back pre post (_decode_dict (_decode_bencode n) n).
Proof.
  intros s t r t' He H Hb. pose proof He as (_ & _ & Hs & Ht).
  unfold _decode_dict in H |- *.
  apply bind_inv in H. destruct H as ([] & t1 & H1 & H).
  apply bind_inv in H. destruct H as (l & t2 & H2 & H).
  apply bind_inv in H. destruct H as ([] & t3 & H3 & H).
  injection H as <- <-.
  pose proof (consume_moved _ _ _ _ Ht H1) as M1.
  pose proof (dict_loop_moved _ _ _ _ _ _ (proj1 M1) H2) as M2.
  pose proof (consume_moved _ _ _ _ (proj1 M2) H3) as M3.
  pose proof (moved_bound _ _ _ _ _ M3 Hb) as Hb2.
  pose proof (moved_bound _ _ _ _ _ M2 Hb2) as Hb1.
  destruct (consume_back _ _ _ _ _ He H1 ltac:(lia)) as (s1 & Hs1 & He1).
  destruct (dict_loop_back _ _ _ _ _ _ He1 H2 ltac:(lia)) as (s2 & Hs2 & He2).
  destruct (consume_back _ _ _ _ _ He2 H3 Hb) as (s3 & Hs3 & He3).
  exists s3. split; [|assumption].
  unfold bind. rewrite Hs1, Hs2, Hs3. reflexivity.
Qed.
End BackContainers.

Lemma bind_ret_back {A B} (m : M A) (f : A -> B) :
  framed_back pre post m ->
  framed_back pre post (bind m (fun a => ret (f a))).
Proof.
  intros Hm s t r t' He H Hb.
  apply bind_inv in H. destruct H as (a & t1 & H1 & H2).
  injection H2 as <- <-.
  destruct (Hm _ _ _ _ He H1 Hb) as (s1 & Hs1 & He1).
  exists s1. split; [|assumption]. unfold bind. rewrite Hs1. reflexivity.
Qed.

Lemma decode_bencode_back fuel : framed_back pre post (_decode_bencode fuel).
Proof.
  induction fuel as [|n IH]; intros s t v t' He H Hb; [discriminate|].
  pose proof He as (_ & _ & Hs & Ht).
  pose proof (decode_bencode_moved _ _ _ _ Ht H) as M.
  pose proof (inside_of_bound _ _ _ He (moved_bound _ _ _ _ _ M Hb)
                ltac:(lia)) as Hin.
  cbn [_decode_bencode] in H |- *. rewrite (embeds_inside _ _ He Hin) in H.
  destruct (char_is (_char s) "d").
  { revert H Hb. apply bind_ret_back; [|assumption].
    apply decode_dict_back, IH. }
  destruct (char_is (_char s) "l").
  { revert H Hb. apply bind_ret_back; [|assumption].
    apply decode_list_back, IH. }
  destruct (char_is (_char s) "i").
  { revert H Hb. apply bind_ret_back; [|assumption].
    apply decode_int_back. }
  destruct (char_isdigit (_char s)); [|discriminate].
  revert H Hb. apply bind_ret_back; [|assumption].
  apply decode_str_back.
Qed.
End FrameBack.

(** ** The bytes a run has read *)

Lemma decode_bencode_any_fuel f1 f2 s r :
  cursor_ok s -> remaining s < f2 ->
  _decode_bencode f1 s = Return r -> _decode_bencode f2 s = Return r.
Proof.
  intros Hok Hr H. destruct (Nat.le_gt_cases f1 f2) as [Hle|Hgt].
  - apply (fuel_le_return (_decode_bencode f1)); [|exact H].
    apply decode_bencode_fuel_le, Hle.
  - rewrite <- H. symmetry. apply decode_bencode_fuel_le; [lia|].
    pose proof (decode_bencode_triple _ _ Hok Hr) as Ht. unfold triple in Ht.
    intro Ho. rewrite Ho in Ht. exact Ht.
Qed.

Lemma decode_str_any_fuel f1 f2 s r :
  cursor_ok s -> remaining s <= f2 ->
  _decode_str f1 s = Return r -> _decode_str f2 s = Return r.
Proof.
  intros Hok Hr H. destruct (Nat.le_gt_cases f1 f2) as [Hle|Hgt].
  - apply (fuel_le_return (_decode_str f1)); [|exact H].
    apply decode_str_fuel_le, Hle.
  - rewrite <- H. symmetry. apply decode_str_fuel_le; [lia|].
    pose proof (decode_str_triple _ _ Hok Hr) as Ht. unfold triple in Ht.
    intro Ho. rewrite Ho in Ht. exact Ht.
Qed.

Lemma slice_split data i j :
  i <= j -> j <= List.length data ->
  skipn i data = slice data i j ++ skipn j data /\
  data = firstn i data ++ slice data i j ++ skipn j data /\
  List.length (slice data i j) = j - i /\
  List.length (firstn i data) = i.
Proof.
  intros Hij Hj. unfold slice.
  assert (E : skipn j data = skipn (j - i) (skipn i data)).
  { rewrite skipn_skipn. f_equal. lia. }
  rewrite E, firstn_skipn, firstn_skipn.
  repeat split; try reflexivity.
  - apply firstn_length_le. rewrite length_skipn. lia.
  - apply firstn_length_le. lia.
Qed.

Lemma embeds_slice data i j :
  i <= j -> j <= List.length data ->
  embeds (firstn i data) (skipn j data)
    (at_index (slice data i j) 0) (at_index data i).
Proof.
  intros Hij Hj. destruct (slice_split data i j Hij Hj) as (_ & Hd & _ & Hl).
  split; [exact Hd | split; [simpl; lia | split]];
    apply cursor_ok_at; lia.
Qed.

Lemma embeds_slice_end data i j s' t' :
  i <= j -> j <= List.length data ->
  embeds (firstn i data) (skipn j data) s' t' ->
  _data t' = data -> _index t' = j ->
  s' = at_index (slice data i j) (List.length (slice data i j)).
Proof.
  intros Hij Hj (Hd & Hi & Hs & _) Hdata Hidx.
  destruct (slice_split data i j Hij Hj) as (_ & Hsplit & Hlen & Hl).
  rewrite Hdata in Hd. rewrite Hsplit in Hd at 1.
  apply app_inv_head, app_inv_tail in Hd.
  rewrite (cursor_ok_eq _ Hs), <- Hd. f_equal. lia.
Qed.

(** A run of [_decode_bencode] that returns has read a buffer that
    decodes, alone, to the same value. *)
Lemma decode_bencode_slice fuel data i v t' :
  i <= List.length data ->
  _decode_bencode fuel (at_index data i) = Return (v, t') ->
  decode (slice data i (_index t')) = Return v /\
  t' = at_index data (_index t') /\
  i < _index t' <= List.length data.
Proof.
  intros Hi H.
  pose proof (decode_bencode_moved _ _ _ _ (cursor_ok_at _ _ Hi) H)
    as (Hok & Hdata & Hmove).
  simpl in Hdata, Hmove. pose proof Hok as [Hle _]. rewrite Hdata in Hle.
  set (j := _index t') in *.
  assert (Hij : i <= j) by lia.
  destruct (slice_split data i j Hij Hle) as (_ & _ & Hlen & _).
  destruct (decode_bencode_back _ _ fuel _ _ _ _
              (embeds_slice data i j Hij Hle) H) as (s' & Hs' & He').
  { rewrite Hdata, length_skipn. fold j. lia. }
  rewrite (embeds_slice_end _ _ _ _ _ Hij Hle He' Hdata eq_refl) in Hs'.
  split; [|split; [|lia]].
  - apply decode_return. split.
    + intro E. rewrite E in Hlen. simpl in Hlen. lia.
    + apply (decode_bencode_any_fuel fuel); [apply cursor_ok_at; lia | |exact Hs'].
      unfold remaining. simpl. lia.
  - rewrite (cursor_ok_eq _ Hok), Hdata. reflexivity.
Qed.

Lemma ascii_digit_isdigit c : ascii_digit c = true -> isdigit c = true.
Proof. unfold ascii_digit, isdigit. intros ->. reflexivity. Qed.

(** The same for a key read by [_decode_str]. *)
Lemma decode_str_slice fuel data i key t' :
  i <= List.length data ->
  _decode_str fuel (at_index data i) = Return (key, t') ->
  decode (slice data i (_index t')) = Return (Bytes key) /\
  t' = at_index data (_index t') /\
  i < _index t' <= List.length data.
Proof.
  intros Hi H.
  pose proof (triple_moved _ _ _ _ _
                (decode_str_triple (Nat.max fuel (remaining (at_index data i)))
                   _ (cursor_ok_at _ _ Hi) (Nat.le_max_r _ _))
                (fuel_le_return _ _ _ _
                   (decode_str_fuel_le fuel _ (Nat.le_max_l _ _)) H))
    as (Hok & Hdata & Hmove).
  simpl in Hdata, Hmove. pose proof Hok as [Hle _]. rewrite Hdata in Hle.
  set (j := _index t') in *.
  assert (Hij : i <= j) by lia.
  destruct (slice_split data i j Hij Hle) as (_ & _ & Hlen & _).
  destruct (decode_str_back _ _ fuel _ _ _ _
              (embeds_slice data i j Hij Hle) H) as (s' & Hs' & He').
  { rewrite Hdata, length_skipn. fold j. lia. }
  rewrite (embeds_slice_end _ _ _ _ _ Hij Hle He' Hdata eq_refl) in Hs'.
  split; [|split; [|lia]].
  - destruct (slice data i j) as [|x body] eqn:Hd; [simpl in Hlen; lia|].
    apply (decode_str_any_fuel fuel (S (List.length body))) in Hs';
      [|apply cursor_ok_at; simpl; lia | unfold remaining; simpl; lia].
    assert (Hx : isdigit (chr x) = true).
    { pose proof Hs' as Hs''. unfold _decode_str in Hs''.
      apply bind_inv in Hs''. destruct Hs'' as (num & s1 & Hn & _).
      apply decode_num_returns_digit in Hn. apply ascii_digit_isdigit, Hn. }
    rewrite (decode_str_run _ _ Hx). unfold bind. rewrite Hs'.
    unfold ret, finish. rewrite char_at_index_end. reflexivity.
  - rewrite (cursor_ok_eq _ Hok), Hdata. reflexivity.
Qed.

(** ** What an accepted list or dictionary is made of *)

Lemma chr_e x : chr x = "e"%char -> x = x65.
Proof.
  intro H. apply (f_equal byte_of_ascii) in H. unfold chr in H.
  rewrite byte_of_ascii_of_byte in H. exact H.
Qed.

Lemma at_index_inside data t c :
  t = at_index data (_index t) -> _index t <= List.length data ->
  _char t = Some c -> _index t < List.length data.
Proof.
  intros Ht Hle Hc.
  assert (Hd : _data t = data) by (rewrite Ht; reflexivity).
  rewrite <- Hd. apply (cursor_some t c); [|exact Hc].
  rewrite Ht. apply cursor_ok_at, Hle.
Qed.

Lemma list_loop_inv n data k : forall b_list i r t',
  i <= List.length data ->
  list_loop (_decode_bencode n) k b_list (at_index data i) = Return (r, t') ->
  exists elems vs,
    elems <> [] /\
    Forall2 (fun d v => decode d = Return v) elems vs /\
    skipn i data = List.concat elems ++ skipn (_index t') data /\
    r = b_list ++ vs /\
    t' = at_index data (_index t') /\
    _index t' < List.length data /\ _char t' = Some "e"%char.
Proof.
  induction k as [|k IH]; intros b_list i r t' Hi H; [discriminate|].
  rewrite list_loop_S in H. destruct (_char (at_index data i)); [|discriminate].
  apply bind_inv in H. destruct H as (v & t1 & H1 & H2).
  destruct (decode_bencode_slice _ _ _ _ _ Hi H1) as (Hdec & Ht1 & Hlt & Hle).
  destruct (slice_split data i (_index t1) ltac:(lia) Hle) as (Hsk & _).
  unfold list_after in H2. destruct (char_is (_char t1) "e") eqn:Hc.
  - injection H2 as <- <-.
    exists [slice data i (_index t1)], [v].
    split; [discriminate|]. split; [repeat constructor; assumption|].
    cbn [List.concat]. rewrite app_nil_r.
    split; [exact Hsk|]. split; [reflexivity|].
    split; [exact Ht1|]. apply char_is_some in Hc.
    split; [|exact Hc].
    apply (at_index_inside data t1 "e"); assumption.
  - rewrite Ht1 in H2.
    destruct (IH _ _ _ _ Hle H2)
      as (elems & vs & Hne & Hall & Hsk' & Hr & Ht' & Hlt' & Hc').
    exists (slice data i (_index t1) :: elems), (v :: vs).
    split; [discriminate|]. split; [constructor; assumption|].
    cbn [List.concat]. rewrite <- app_assoc, <- Hsk'.
    split; [exact Hsk|]. rewrite Hr, <- app_assoc. auto.
Qed.

Lemma dict_loop_inv n data k : forall dictionary i r t',
  i <= List.length data ->
  dict_loop (_decode_bencode n) n k dictionary (at_index data i)
  = Return (r, t') ->
  exists pairs kvs,
    pairs <> [] /\
    Forall2 pair_decodes pairs kvs /\
    skipn i data = pairs_bytes pairs ++ skipn (_index t') data /\
    r = setitems dictionary kvs /\
    t' = at_index data (_index t') /\
    _index t' < List.length data /\ _char t' = Some "e"%char.
Proof.
  induction k as [|k IH]; intros dictionary i r t' Hi H; [discriminate|].
  rewrite dict_loop_S in H. destruct (_char (at_index data i)); [|discriminate].
  apply bind_inv in H. destruct H as (key & t1 & H1 & H).
  apply bind_inv in H. destruct H as (v & t2 & H2 & H3).
  destruct (decode_str_slice _ _ _ _ _ Hi H1) as (Hkey & Ht1 & Hlt1 & Hle1).
  rewrite Ht1 in H2.
  destruct (decode_bencode_slice _ _ _ _ _ Hle1 H2) as (Hval & Ht2 & Hlt2 & Hle2).
  destruct (slice_split data i (_index t1) ltac:(lia) Hle1) as (Hsk1 & _).
  destruct (slice_split data (_index t1) (_index t2) ltac:(lia) Hle2)
    as (Hsk2 & _).
  assert (Hsk : skipn i data
                = (slice data i (_index t1)
                   ++ slice data (_index t1) (_index t2))
                  ++ skipn (_index t2) data)
    by (rewrite <- app_assoc, <- Hsk2; exact Hsk1).
  unfold dict_after in H3. destruct (char_is (_char t2) "e") eqn:Hc.
  - injection H3 as <- <-.
    exists [(slice data i (_index t1), slice data (_index t1) (_index t2))],
           [(key, v)].
    split; [discriminate|].
    split; [repeat constructor; assumption|].
    unfold pairs_bytes. cbn [List.concat map fst snd]. rewrite app_nil_r.
    split; [exact Hsk|]. split; [reflexivity|].
    split; [exact Ht2|]. apply char_is_some in Hc.
    split; [|exact Hc].
    apply (at_index_inside data t2 "e"); assumption.
  - rewrite Ht2 in H3.
    destruct (IH _ _ _ _ Hle2 H3)
      as (pairs & kvs & Hne & Hall & Hsk' & Hr & Ht' & Hlt' & Hc').
    exists ((slice data i (_index t1), slice data (_index t1) (_index t2))
            :: pairs), ((key, v) :: kvs).
    split; [discriminate|].
    split; [constructor; [split; assumption | assumption]|].
    unfold pairs_bytes in *. cbn [List.concat map fst snd].
    rewrite <- app_assoc, <- Hsk'.
    split; [exact Hsk|]. rewrite Hr. auto.
Qed.

Lemma last_byte_e data j :
  S j = List.length data -> char_at data j = Some "e"%char ->
  skipn j data = [x65].
Proof.
  intros Hj Hc.
  destruct (char_at_inside data j ltac:(lia)) as (y & Hn & Hy).
  rewrite Hy in Hc. injection Hc as Hc. apply chr_e in Hc. subst y.
  rewrite (skipn_nth _ _ _ Hn), Hj, skipn_all. reflexivity.
Qed.

(** An accepted buffer that starts with ["l"] is made of buffers that
    decode, followed by ["e"]. *)
Lemma decode_list_inv body v :
  decode (b "l" ++ body) = Return v ->
  exists elems vs,
    elems <> [] /\
    Forall2 (fun d v => decode d = Return v) elems vs /\
    body = List.concat elems ++ b "e" /\ v = BList vs.
Proof.
  intro H. change (b "l" ++ body) with (x6c :: body) in H.
  apply decode_return in H. destruct H as [_ H].
  set (data := x6c :: body) in *.
  rewrite decode_bencode_l in H by reflexivity.
  change (at_index (_data (at_index data 0)) (S (_index (at_index data 0))))
    with (at_index data 1) in H.
  apply bind_inv in H. destruct H as (l & t2 & H2 & H).
  apply bind_inv in H. destruct H as ([] & t3 & H3 & H).
  injection H as <- Ht3.
  assert (Hone : 1 <= List.length data) by (unfold data; simpl; lia).
  destruct (list_loop_inv _ data _ _ 1 _ _ Hone H2)
    as (elems & vs & Hne & Hall & Hsk & Hr & Ht2 & Hlt & Hc).
  apply consume_inv in H3. destruct H3 as [_ H3].
  rewrite H3, Ht2 in Ht3. injection Ht3 as Hj _.
  assert (Hj' : S (_index t2) = List.length data)
    by (unfold data; simpl; lia).
  rewrite Ht2 in Hc. simpl in Hc.
  rewrite (last_byte_e _ _ Hj' Hc) in Hsk.
  exists elems, vs. rewrite Hr.
  split; [assumption | split; [assumption | split; [exact Hsk | reflexivity]]].
Qed.

(** An accepted buffer that starts with ["d"] is made of key buffers and
    value buffers that decode, followed by ["e"]. *)
Lemma decode_dict_inv body v :
  decode (b "d" ++ body) = Return v ->
  exists pairs kvs,
    pairs <> [] /\
    Forall2 pair_decodes pairs kvs /\
    body = pairs_bytes pairs ++ b "e" /\ v = BDict (setitems [] kvs).
Proof.
  intro H. change (b "d" ++ body) with (x64 :: body) in H.
  apply decode_return in H. destruct H as [_ H].
  set (data := x64 :: body) in *.
  rewrite decode_bencode_d in H by reflexivity.
  change (at_index (_data (at_index data 0)) (S (_index (at_index data 0))))
    with (at_index data 1) in H.
  apply bind_inv in H. destruct H as (l & t2 & H2 & H).
  apply bind_inv in H. destruct H as ([] & t3 & H3 & H).
  injection H as <- Ht3.
  assert (Hone : 1 <= List.length data) by (unfold data; simpl; lia).
  destruct (dict_loop_inv _ data _ _ 1 _ _ Hone H2)
    as (pairs & kvs & Hne & Hall & Hsk & Hr & Ht2 & Hlt & Hc).
  apply consume_inv in H3. destruct H3 as [_ H3].
  rewrite H3, Ht2 in Ht3. injection Ht3 as Hj _.
  assert (Hj' : S (_index t2) = List.length data)
    by (unfold data; simpl; lia).
  rewrite Ht2 in Hc. simpl in Hc.
  rewrite (last_byte_e _ _ Hj' Hc) in Hsk.
  exists pairs, kvs. rewrite Hr.
  split; [assumption | split; [assumption | split; [exact Hsk | reflexivity]]].
Qed.

(** ** What an accepted number is made of *)

Lemma chr_inj x y : chr x = chr y -> x = y.
Proof.
  intro H. apply (f_equal byte_of_ascii) in H. unfold chr in H.
  rewrite !byte_of_ascii_of_byte in H. exact H.
Qed.

Lemma digit_loop_inv nums t d t' :
  digit_loop nums t = Return (d, t') ->
  In d nums /\ _char t = Some (str_of_digit d) /\
  t' = at_index (_data t) (S (_index t)).
Proof.
  induction nums as [|num nums IH]; cbn [digit_loop]; [discriminate|].
  destruct (char_is (_char t) (str_of_digit num)) eqn:Hc.
  - intro H. apply bind_inv in H. destruct H as ([] & t1 & H1 & H2).
    injection H2 as <- <-. apply consume_inv in H1. destruct H1 as [H1 ->].
    split; [left; reflexivity | split; [exact H1 | reflexivity]].
  - intro H. destruct (IH H) as (Hin & Hrest). split; [right|]; assumption.
Qed.

Lemma decode_digit_inv data i d t' :
  _decode_digit (at_index data i) = Return (d, t') ->
  d < 10 /\ skipn i data = digit_byte d :: skipn (S i) data /\
  t' = at_index data (S i).
Proof.
  intro H. apply digit_loop_inv in H. destruct H as (Hin & Hc & Ht).
  apply in_seq in Hin. assert (Hd : d < 10) by lia.
  split; [exact Hd|]. split; [|exact Ht].
  rewrite at_index_char in Hc.
  assert (Hlt : i < List.length data).
  { destruct (Nat.lt_ge_cases i (List.length data)) as [|Hge]; [assumption|].
    rewrite (char_at_end _ _ Hge) in Hc. discriminate. }
  destruct (char_at_inside _ _ Hlt) as (y & Hn & Hy).
  rewrite Hy, <- (chr_digit_byte d Hd) in Hc. injection Hc as Hc.
  apply chr_inj in Hc. subst y. apply skipn_nth, Hn.
Qed.

Lemma num_loop_inv data fuel : forall num i r t',
  num_loop fuel num (at_index data i) = Return (r, t') ->
  exists ds,
    Forall (fun d => d < 10) ds /\
    skipn i data = digit_bytes ds ++ skipn (i + List.length ds) data /\
    r = append_digits num ds /\
    t' = at_index data (i + List.length ds) /\
    char_isdigit (_char t') = false.
Proof.
  induction fuel as [|fuel IH]; intros num i r t' H; rewrite num_loop_eq in H;
    destruct (char_isdigit (_char (at_index data i))) eqn:Hd;
    try discriminate.
  - injection H as <- <-. exists []. rewrite Nat.add_0_r. auto.
  - apply bind_inv in H. destruct H as (d & t1 & H1 & H2).
    apply decode_digit_inv in H1. destruct H1 as (Hlt & Hsk & ->).
    destruct (IH _ _ _ _ H2) as (ds & Hall & Hsk' & Hr & Ht & Hc).
    exists (d :: ds). cbn [List.length digit_bytes map].
    rewrite Nat.add_succ_r. cbn [app].
    split; [constructor; assumption|].
    split; [rewrite Hsk; f_equal; exact Hsk'|]. auto.
  - injection H as <- <-. exists []. rewrite Nat.add_0_r. auto.
Qed.

Lemma str_of_digit_zero d : d < 10 -> str_of_digit d = "0"%char -> d = 0.
Proof. intros Hd E. apply (str_of_digit_inj d 0); [assumption | lia | exact E]. Qed.

Lemma char_is_digit_zero c d :
  c = Some (str_of_digit d) -> d < 10 -> char_is c "0" = false -> d <> 0.
Proof.
  intros -> Hd Hz ->. change (str_of_digit 0) with "0"%char in Hz.
  rewrite char_is_refl in Hz. discriminate.
Qed.

(** A number that [_decode_num] returns was read from a canonical
    numeral, up to a character that is no digit. *)
Lemma decode_num_inv data fuel i num t' :
  _decode_num fuel (at_index data i) = Return (num, t') ->
  exists ds,
    canonical ds /\
    skipn i data = digit_bytes ds ++ skipn (i + List.length ds) data /\
    num = digits_value ds /\
    t' = at_index data (i + List.length ds) /\
    char_isdigit (_char t') = false /\
    (char_is (char_at data i) "0" = false -> ds <> [0]).
Proof.
  intro H. unfold _decode_num in H.
  apply bind_inv in H. destruct H as (str & t1 & H1 & H2).
  destruct str as [|c str'] eqn:Hstr; [discriminate|]. injection H2 as <- <-.
  rewrite <- Hstr in *. unfold num_digits in H1. rewrite at_index_char in H1.
  destruct (char_is (char_at data i) "0") eqn:Hz.
  - apply bind_inv in H1. destruct H1 as (d & t2 & H1 & H2).
    destruct (char_isdigit (_char t2)) eqn:Hd; [discriminate|].
    injection H2 as <- <-.
    pose proof H1 as H1'. apply digit_loop_inv in H1'.
    destruct H1' as (_ & Hc & _). rewrite at_index_char in Hc.
    apply decode_digit_inv in H1. destruct H1 as (Hlt & Hsk & ->).
    apply char_is_some in Hz. rewrite Hz in Hc. injection Hc as Hc.
    symmetry in Hc. apply (str_of_digit_zero d Hlt) in Hc. subst d.
    exists [0]. cbn [List.length]. rewrite Nat.add_1_r.
    split; [split; [repeat constructor | exact I]|].
    split; [exact Hsk|]. split; [reflexivity|].
    split; [reflexivity|]. split; [exact Hd | discriminate].
  - apply num_loop_inv in H1.
    destruct H1 as (ds & Hall & Hsk & Hr & Ht & Hc).
    exists ds.
    assert (Hshape : canonical ds /\ ds <> [0]).
    { destruct ds as [|d ds'].
      - rewrite Hr in Hstr. discriminate.
      - assert (Hd : d < 10) by (inversion Hall; assumption).
        assert (Hd0 : d <> 0).
        { apply (char_is_digit_zero (char_at data i)); [|assumption|exact Hz].
          cbn [digit_bytes map app] in Hsk.
          rewrite (char_at_skipn _ _ _ _ Hsk). f_equal.
          apply chr_digit_byte, Hd. }
        split; [|congruence]. split; [exact Hall|].
        destruct d; [congruence|]. destruct ds'; exact I. }
    destruct Hshape as [Hcan Hnz].
    split; [exact Hcan|]. split; [exact Hsk|].
    split; [rewrite Hr; apply (int_append_digits ds EmptyString Hall)|].
    split; [exact Ht|]. split; [exact Hc | intros _; exact Hnz].
Qed.

(** *** A number has one canonical numeral *)

Lemma digits_value_pos d ds :
  0 < d -> (0 < digits_value (d :: ds))%Z.
Proof.
  intro Hd. unfold digits_value. cbn [fold_left].
  assert (H : forall acc, (0 < acc)%Z ->
            (0 < fold_left (fun acc d => 10 * acc + Z.of_nat d) ds acc)%Z).
  { induction ds as [|x ds IH]; intros acc Hacc; cbn [fold_left];
      [assumption|]. apply IH. lia. }
  apply H. lia.
Qed.

Lemma canonical_init ds d :
  canonical (ds ++ [d]) -> ds <> [] ->
  canonical ds /\ (0 < digits_value ds)%Z /\ d < 10.
Proof.
  intros [Hall Hshape] Hne. apply Forall_app in Hall. destruct Hall as [Hall Hd].
  destruct ds as [|d0 ds']; [congruence|].
  assert (Hd0 : d0 <> 0).
  { intros ->. cbn [app] in Hshape. destruct ds'; exact Hshape. }
  split; [split; [exact Hall|]|split].
  - destruct d0; [congruence|]. destruct ds'; exact I.
  - apply digits_value_pos. lia.
  - inversion Hd; assumption.
Qed.

Lemma canonical_unique ds : forall ds',
  canonical ds -> canonical ds' ->
  digits_value ds = digits_value ds' -> ds = ds'.
Proof.
  induction ds as [|d ds IH] using rev_ind; intros ds' Hcan Hcan' Hval.
  { destruct Hcan as [_ []]. }
  destruct ds' as [|d' ds' _] using rev_ind.
  { destruct Hcan' as [_ []]. }
  rewrite !digits_value_app in Hval.
  assert (Hd : d < 10).
  { destruct Hcan as [Hall _]. apply Forall_app in Hall.
    destruct Hall as [_ Hall]. inversion Hall; assumption. }
  assert (Hd' : d' < 10).
  { destruct Hcan' as [Hall _]. apply Forall_app in Hall.
    destruct Hall as [_ Hall]. inversion Hall; assumption. }
  pose proof (digits_value_nonneg ds). pose proof (digits_value_nonneg ds').
  assert (d = d' /\ digits_value ds = digits_value ds') as [-> Hv] by lia.
  f_equal.
  destruct ds as [|x ds0]; destruct ds' as [|x' ds0']; [reflexivity| | |].
  - destruct (canonical_init _ _ Hcan' ltac:(discriminate)) as (_ & Hp & _).
    rewrite <- Hv in Hp. unfold digits_value in Hp. simpl in Hp. lia.
  - destruct (canonical_init _ _ Hcan ltac:(discriminate)) as (_ & Hp & _).
    rewrite Hv in Hp. unfold digits_value in Hp. simpl in Hp. lia.
  - apply IH; [| |exact Hv].
    + apply (canonical_init _ _ Hcan). discriminate.
    + apply (canonical_init _ _ Hcan'). discriminate.
Qed.

(** ** What an accepted integer or byte string is made of *)

Lemma byte_at_char data i x :
  char_at data i = Some (chr x) -> skipn i data = x :: skipn (S i) data.
Proof.
  intro Hc.
  assert (Hlt : i < List.length data).
  { destruct (Nat.lt_ge_cases i (List.length data)) as [|Hge]; [assumption|].
    rewrite (char_at_end _ _ Hge) in Hc. discriminate. }
  destruct (char_at_inside _ _ Hlt) as (y & Hn & Hy).
  rewrite Hy in Hc. injection Hc as Hc. apply chr_inj in Hc. subst y.
  apply skipn_nth, Hn.
Qed.

Lemma at_index_eq data i j :
  at_index data i = at_index data j -> i = j.
Proof. intro H. injection H as H _. exact H. Qed.

Lemma decode_int_inv d z :
  decode d = Return (Int z) ->
  exists ds,
    canonical ds /\
    ((d = b "i" ++ digit_bytes ds ++ b "e" /\ z = digits_value ds) \/
     (d = b "i-" ++ digit_bytes ds ++ b "e" /\ z = (- digits_value ds)%Z /\
      ds <> [0])).
Proof.
  intro H. destruct d as [|x body]; [discriminate|].
  pose proof (decode_kind _ _ _ H) as Hx. cbv beta iota in Hx.
  apply (chr_inj x x69) in Hx. subst x.
  apply decode_return in H. destruct H as [_ H].
  set (data := x69 :: body) in *.
  rewrite decode_bencode_i in H by reflexivity.
  apply bind_inv in H. destruct H as (value & tend & H & Hret).
  injection Hret as Hvalue Hend. subst value.
  unfold _decode_int in H.
  apply bind_inv in H. destruct H as ([] & t1 & H1 & H).
  apply bind_inv in H. destruct H as (v & t2 & H2 & H).
  apply bind_inv in H. destruct H as ([] & t3 & H3 & H).
  injection H as Hv Ht3. subst v t3.
  apply consume_inv in H1. destruct H1 as [_ H1]. subst t1.
  change (mkDecoder _ _ _) with (at_index data 1) in H2.
  apply consume_inv in H3. destruct H3 as [Hc3 H3].
  unfold _decode_snum in H2. rewrite at_index_char in H2.
  destruct (char_isdigit (char_at data 1)) eqn:Hd.
  - apply decode_num_inv in H2.
    destruct H2 as (ds & Hcan & Hsk & Hv & Ht2 & _).
    subst t2. rewrite at_index_char in Hc3.
    rewrite Hend in H3. injection H3 as H3.
    assert (Hj : S (1 + List.length ds) = List.length data)
      by (unfold data; cbn [List.length _index at_index] in *; lia).
    rewrite (last_byte_e data _ Hj Hc3) in Hsk.
    exists ds. split; [exact Hcan|]. left. split; [|exact Hv].
    change (data = x69 :: digit_bytes ds ++ [x65]). unfold data. f_equal.
    exact Hsk.
  - destruct (char_is (char_at data 1) "-") eqn:Hm; [|discriminate].
    apply char_is_some in Hm.
    apply bind_inv in H2. destruct H2 as ([] & t1 & H1 & H2).
    apply consume_inv in H1. destruct H1 as [_ H1]. subst t1.
    change (mkDecoder _ _ _) with (at_index data 2) in H2.
    rewrite at_index_char in H2.
    destruct (char_is (char_at data 2) "0") eqn:Hz; [discriminate|].
    apply bind_inv in H2. destruct H2 as (n & t2' & H2 & Hret).
    injection Hret as Hn Ht2'. subst t2'.
    apply decode_num_inv in H2.
    destruct H2 as (ds & Hcan & Hsk & Hv & Ht2 & _ & Hnz).
    subst t2. rewrite at_index_char in Hc3.
    rewrite Hend in H3. injection H3 as H3.
    assert (Hj : S (2 + List.length ds) = List.length data)
      by (unfold data; cbn [List.length _index at_index] in *; lia).
    rewrite (last_byte_e data _ Hj Hc3) in Hsk.
    exists ds. split; [exact Hcan|]. right.
    split; [|split; [rewrite <- Hv; symmetry; exact Hn | exact (Hnz Hz)]].
    change (data = x69 :: x2d :: digit_bytes ds ++ [x65]). unfold data.
    f_equal. change body with (skipn 1 data).
    rewrite (byte_at_char data 1 x2d Hm). f_equal. exact Hsk.
Qed.

Lemma decode_bytes_inv d payload :
  decode d = Return (Bytes payload) ->
  exists ds,
    canonical ds /\ digits_value ds = Z.of_nat (List.length payload) /\
    d = digit_bytes ds ++ b ":" ++ payload.
Proof.
  intro H. apply decode_bytes_str in H. unfold _decode_str in H.
  apply bind_inv in H. destruct H as (num & t1 & H1 & H).
  apply bind_inv in H. destruct H as ([] & t2 & H2 & H3).
  apply decode_num_inv in H1.
  destruct H1 as (ds & Hcan & Hsk & Hv & -> & _).
  apply consume_inv in H2. destruct H2 as [Hc ->].
  rewrite at_index_char in Hc.
  change (mkDecoder _ _ _) with (at_index d (S (0 + List.length ds))) in H3.
  apply chars_loop_exact in H3. destruct H3 as (Hp & Hi & Hl).
  cbn [_index _data at_index app List.length] in Hp, Hi, Hl.
  pose proof (digits_value_nonneg ds) as Hnn.
  exists ds. split; [exact Hcan|]. split; [lia|].
  rewrite (byte_at_char d _ x3a Hc) in Hsk. rewrite Hsk at 1.
  change (skipn 0 d) with d. f_equal. change (b ":" ++ payload) with (x3a :: payload).
  f_equal. rewrite Hp. symmetry. apply firstn_all2.
  rewrite length_skipn. lia.
Qed.

Lemma canonical_nonzero_pos ds :
  canonical ds -> ds <> [0] -> (0 < digits_value ds)%Z.
Proof.
  intros Hcan Hnz. destruct (canonical_head _ Hcan) as (d & ds' & -> & _ & Hz).
  apply digits_value_pos.
  destruct d; [rewrite (Hz eq_refl) in Hnz; congruence | lia].
Qed.

(** ** One buffer for each value without a dictionary *)

Lemma decode_int_unique d d' z :
  decode d = Return (Int z) -> decode d' = Return (Int z) -> d = d'.
Proof.
  intros H H'.
  destruct (decode_int_inv _ _ H) as (ds & Hcan & Hd).
  destruct (decode_int_inv _ _ H') as (ds' & Hcan' & Hd').
  pose proof (digits_value_nonneg ds). pose proof (digits_value_nonneg ds').
  destruct Hd as [[-> Hz]|(-> & Hz & Hnz)];
    destruct Hd' as [[-> Hz']|(-> & Hz' & Hnz')].
  - rewrite (canonical_unique ds ds'); [reflexivity| | |lia]; assumption.
  - pose proof (canonical_nonzero_pos _ Hcan' Hnz'). lia.
  - pose proof (canonical_nonzero_pos _ Hcan Hnz). lia.
  - rewrite (canonical_unique ds ds'); [reflexivity| | |lia]; assumption.
Qed.

Lemma decode_bytes_unique d d' payload :
  decode d = Return (Bytes payload) -> decode d' = Return (Bytes payload) ->
  d = d'.
Proof.
  intros H H'.
  destruct (decode_bytes_inv _ _ H) as (ds & Hcan & Hv & ->).
  destruct (decode_bytes_inv _ _ H') as (ds' & Hcan' & Hv' & ->).
  rewrite (canonical_unique ds ds'); [reflexivity| | |lia]; assumption.
Qed.

Lemma dict_free_list l : dict_free (BList l) <-> Forall dict_free l.
Proof.
  simpl. induction l as [|x l IH]; split; intro H; auto.
  - destruct H. constructor; tauto.
  - inversion H; subst. tauto.
Qed.

Lemma Forall2_unique {A B} (R : A -> B -> Prop) l : forall elems elems',
  Forall (fun v => forall d d', R d v -> R d' v -> d = d') l ->
  Forall2 R elems l -> Forall2 R elems' l -> elems = elems'.
Proof.
  induction l as [|v l IH]; intros elems elems' Hu H H';
    inversion H; inversion H'; subst; [reflexivity|].
  inversion Hu; subst. f_equal; auto.
Qed.

Lemma decode_list_head d l :
  decode d = Return (BList l) -> exists body, d = b "l" ++ body.
Proof.
  intro H. destruct d as [|x body]; [discriminate|].
  pose proof (decode_kind _ _ _ H) as Hx. cbv beta iota in Hx.
  apply (chr_inj x x6c) in Hx. subst x. exists body. reflexivity.
Qed.

Lemma decode_unique v :
  dict_free v ->
  forall d d', decode d = Return v -> decode d' = Return v -> d = d'.
Proof.
  induction v as [payload|z|l IH|dictionary IH] using BencodedValue_nested_ind;
    intros Hfree d d' H H'.
  - exact (decode_bytes_unique _ _ _ H H').
  - exact (decode_int_unique _ _ _ H H').
  - apply dict_free_list in Hfree.
    destruct (decode_list_head _ _ H) as [body ->].
    destruct (decode_list_head _ _ H') as [body' ->].
    destruct (decode_list_inv _ _ H) as (elems & vs & _ & Hall & -> & E).
    destruct (decode_list_inv _ _ H') as (elems' & vs' & _ & Hall' & -> & E').
    injection E as <-. injection E' as <-.
    rewrite (Forall2_unique (fun d v => decode d = Return v) l elems elems');
      [reflexivity| | |]; try assumption.
    rewrite Forall_forall in *. intros v Hin. apply IH; auto.
  - destruct Hfree.
Qed.

Lemma dict_duplicate d v :
  decode d = Return (BDict v) ->
  exists d', d' <> d /\ decode d' = Return (BDict v).
Proof.
  intro H. destruct d as [|x body]; [discriminate|].
  pose proof (decode_kind _ _ _ H) as Hx. cbv beta iota in Hx.
  apply (chr_inj x x64) in Hx. subst x.
  change (x64 :: body) with (b "d" ++ body) in *.
  destruct (decode_dict_inv _ _ H) as (pairs & kvs & Hne & Hall & -> & E).
  injection E as ->.
  destruct Hall as [|p kv pairs kvs Hp Hall]; [congruence|].
  exists (b "d" ++ pairs_bytes (p :: p :: pairs) ++ b "e"). split.
  - intro E. apply (f_equal (@List.length _)) in E.
    unfold pairs_bytes in E. cbn [map List.concat] in E.
    rewrite !length_app in E.
    pose proof (decodes_nonempty _ _ (proj1 Hp)) as Hk.
    assert (Hpos : 0 < List.length (fst p))
      by (destruct (fst p); [congruence | simpl; lia]).
    unfold bytes in *. lia.
  - rewrite (decode_dict_of (p :: p :: pairs) (kv :: kv :: kvs)).
    + unfold setitems. cbn [fold_left setitem].
      rewrite bytes_eqb_refl. reflexivity.
    + constructor; [assumption | constructor; assumption].
    + discriminate.
Qed.

Lemma decode_unknown_first_byte x body :
  ascii_digit (chr x) = false ->
  chr x <> "d"%char -> chr x <> "l"%char -> chr x <> "i"%char ->
  decode (x :: body) = Raise (ValueError NotBencoding).
Proof.
  intros Hd Hnd Hnl Hni. unfold decode, decode_with.
  rewrite init_nonempty by discriminate.
  cbn [List.length _decode_bencode].
  change (_char (at_index (x :: body) 0)) with (Some (chr x)).
  cbn [char_is].
  destruct (Ascii.eqb_spec (chr x) "d") as [E|_]; [contradiction|].
  destruct (Ascii.eqb_spec (chr x) "l") as [E|_]; [contradiction|].
  destruct (Ascii.eqb_spec (chr x) "i") as [E|_]; [contradiction|].
  destruct (char_isdigit (Some (chr x))) eqn:Hi; [|reflexivity].
  unfold bind at 1. unfold _decode_str. unfold bind at 1.
  rewrite (decode_num_not_ascii (List.length body) (at_index (x :: body) 0))
    by exact Hd.
  change (_char (at_index (x :: body) 0)) with (Some (chr x)).
  rewrite Hi. reflexivity.
Qed.

Lemma extra_data_prefix data :
  decode data = Raise (ValueError ExtraData) ->
  exists prefix extra v,
    data = prefix ++ extra /\ extra <> [] /\ decode prefix = Return v.
Proof.
  intro H.
  destruct (decode_extra_data_inv _ H) as (v & t' & Hrun & _ & _ & Hj).
  destruct (decode_bencode_slice _ data 0 v t' ltac:(lia) Hrun)
    as (Hs & _ & _).
  exists (slice data 0 (_index t')), (skipn (_index t') data), v.
  split; [|split; [|exact Hs]].
  - destruct (slice_split data 0 (_index t') ltac:(lia) ltac:(lia))
      as (E & _). exact E.
  - intro E. apply (f_equal (@List.length _)) in E.
    rewrite length_skipn in E. simpl in E. lia.
Qed.

(** ** Data that end inside a container *)

Lemma unterminated_end_of_data inner m :
  unterminated inner m -> end_of_data m.
Proof. induction 1; unfold end_of_data; auto. Qed.

Lemma unterminated_starts inner m :
  unterminated inner m ->
  exists x rest, inner = x :: rest /\ char_is (Some (chr x)) "e" = false.
Proof.
  intro H. destruct H.
  - exists x6c, (List.concat elems). split; reflexivity.
  - exists x64, (pairs_bytes pairs). split; reflexivity.
  - exists x6c, (List.concat elems ++ inner). split; reflexivity.
  - exists x64, (pairs_bytes pairs ++ key ++ inner). split; reflexivity.
Qed.

Lemma Forall_decodes_length n (elems : list bytes) :
  Forall (fun d => exists v, decode d = Return v) elems ->
  List.length (List.concat elems) < n ->
  Forall (fun d => List.length d < n) elems /\ List.length elems < n.
Proof.
  intros Hall Hn. split.
  - pose proof (concat_length_bound elems) as Hb.
    rewrite Forall_forall in *. intros d Hin. specialize (Hb d Hin). lia.
  - assert (Hne : Forall (fun d : bytes => d <> []) elems).
    { rewrite Forall_forall in *. intros d Hin.
      destruct (Hall d Hin) as [v Hv]. exact (decodes_nonempty _ _ Hv). }
    pose proof (concat_length_count elems Hne). lia.
Qed.

(** The loop of a list over elements that decode, when what follows is
    not ["e"]: the loop is at its head again, after the elements. *)
Lemma list_loop_skip n elems :
  Forall (fun d => exists v, decode d = Return v) elems ->
  Forall (fun d => List.length d < n) elems ->
  forall data i post k b_list,
    skipn i data = List.concat elems ++ post ->
    List.length elems <= k ->
    char_is (first_char post) "e" = false ->
    exists b_list',
      list_loop (_decode_bencode n) k b_list (at_index data i)
      = list_loop (_decode_bencode n) (k - List.length elems) b_list'
          (at_index data (i + List.length (List.concat elems))).
Proof.
  intros Hall Hn data i post k b_list Hs Hk Hpost.
  destruct elems as [|d elems].
  - exists b_list. cbn [List.concat List.length].
    rewrite Nat.sub_0_r, Nat.add_0_r. reflexivity.
  - destruct (Forall_exists_Forall2 _ _ Hall) as [vs Hdec].
    exists (b_list ++ vs).
    rewrite (list_loop_elems n _ vs Hdec ltac:(discriminate) Hn
               data i post k b_list Hs Hk).
    destruct (skipn_app_inv _ _ _ _ Hs) as [Hs1 _].
    unfold list_after.
    rewrite at_index_char, (char_at_first_char _ _ _ Hs1), Hpost.
    reflexivity.
Qed.

Lemma pairs_bytes_cons p pairs :
  pairs_bytes (p :: pairs) = (fst p ++ snd p) ++ pairs_bytes pairs.
Proof. reflexivity. Qed.

Lemma Forall_pairs_length n (pairs : list (bytes * bytes)) :
  Forall (fun p => exists kv, pair_decodes p kv) pairs ->
  List.length (pairs_bytes pairs) < n ->
  Forall (fun p => List.length (fst p ++ snd p) < n) pairs /\
  List.length pairs < n.
Proof.
  intros Hall Hn. unfold pairs_bytes in Hn.
  pose proof (concat_length_bound (map (fun p => fst p ++ snd p) pairs)) as Hb.
  rewrite Forall_map in Hb. split.
  - rewrite Forall_forall in *. intros q Hin. specialize (Hb q Hin).
    cbv beta in Hb. unfold bytes in *. lia.
  - assert (Hne : Forall (fun d : bytes => d <> [])
                    (map (fun p => fst p ++ snd p) pairs)).
    { rewrite Forall_map. rewrite Forall_forall in *. intros q Hin.
      destruct (Hall q Hin) as [kv [Hk _]]. apply decodes_nonempty in Hk.
      destruct (fst q) eqn:E; [exfalso; apply Hk; exact E | discriminate]. }
    pose proof (concat_length_count _ Hne) as Hc.
    rewrite length_map in Hc. unfold bytes in *. lia.
Qed.

Lemma dict_loop_skip n pairs :
  Forall (fun p => exists kv, pair_decodes p kv) pairs ->
  Forall (fun p => List.length (fst p ++ snd p) < n) pairs ->
  forall data i post k dictionary,
    skipn i data = pairs_bytes pairs ++ post ->
    List.length pairs <= k ->
    char_is (first_char post) "e" = false ->
    exists dictionary',
      dict_loop (_decode_bencode n) n k dictionary (at_index data i)
      = dict_loop (_decode_bencode n) n (k - List.length pairs) dictionary'
          (at_index data (i + List.length (pairs_bytes pairs))).
Proof.
  intros Hall Hn data i post k dictionary Hs Hk Hpost.
  destruct pairs as [|p pairs].
  - exists dictionary. cbn [pairs_bytes map List.concat List.length].
    rewrite Nat.sub_0_r, Nat.add_0_r. reflexivity.
  - destruct (Forall_exists_Forall2 _ _ Hall) as [kvs Hdec].
    exists (setitems dictionary kvs).
    rewrite (dict_loop_pairs n _ kvs Hdec ltac:(discriminate) Hn
               data i post k dictionary Hs Hk).
    destruct (skipn_app_inv _ _ _ _ Hs) as [Hs1 _].
    unfold dict_after.
    rewrite at_index_char, (char_at_first_char _ _ _ Hs1), Hpost.
    reflexivity.
Qed.

Lemma bind_raise {A B} (c : M A) (k : A -> M B) self e :
  c self = Raise e -> bind c k self = Raise e.
Proof. intro H. unfold bind. rewrite H. reflexivity. Qed.

(** Where the data end at the head of a container's loop, at any depth,
    the run raises the message of that loop. *)
Lemma unterminated_raises inner m :
  unterminated inner m ->
  forall data i fuel,
    skipn i data = inner -> List.length inner < fuel ->
    _decode_bencode fuel (at_index data i) = Raise (ValueError m).
Proof.
  intro H. induction H as [elems Hall|pairs Hall|elems inner m Hall Hin IH
                           |pairs key kb inner m Hall Hkey Hin IH];
    intros data i fuel Hs Hf; (destruct fuel as [|n]; [lia|]).
  - change (b "l" ++ List.concat elems) with (x6c :: List.concat elems) in *.
    cbn [List.length] in Hf.
    destruct (Forall_decodes_length n _ Hall ltac:(lia)) as [Hn Hk].
    destruct (skipn_cons_inv _ _ _ _ Hs) as (_ & _ & Hs').
    rewrite <- (app_nil_r (List.concat elems)) in Hs'.
    rewrite decode_bencode_l
      by (rewrite at_index_char; apply (char_at_skipn _ _ _ _ Hs)).
    change (at_index (_data (at_index data i)) (S (_index (at_index data i))))
      with (at_index data (S i)).
    apply bind_raise.
    destruct (list_loop_skip n elems Hall Hn data (S i) [] n [] Hs'
                ltac:(lia) eq_refl) as [b_list' ->].
    destruct (skipn_app_inv _ _ _ _ Hs') as [Hs1 _].
    destruct (n - List.length elems) as [|k] eqn:Ek; [lia|].
    rewrite list_loop_S, at_index_char, (char_at_skipn_nil _ _ Hs1).
    reflexivity.
  - change (b "d" ++ pairs_bytes pairs) with (x64 :: pairs_bytes pairs) in *.
    cbn [List.length] in Hf.
    destruct (Forall_pairs_length n _ Hall ltac:(lia)) as [Hn Hk].
    destruct (skipn_cons_inv _ _ _ _ Hs) as (_ & _ & Hs').
    rewrite <- (app_nil_r (pairs_bytes pairs)) in Hs'.
    rewrite decode_bencode_d
      by (rewrite at_index_char; apply (char_at_skipn _ _ _ _ Hs)).
    change (at_index (_data (at_index data i)) (S (_index (at_index data i))))
      with (at_index data (S i)).
    apply bind_raise.
    destruct (dict_loop_skip n pairs Hall Hn data (S i) [] n [] Hs'
                ltac:(lia) eq_refl) as [dictionary' ->].
    destruct (skipn_app_inv _ _ _ _ Hs') as [Hs1 _].
    destruct (n - List.length pairs) as [|k] eqn:Ek; [lia|].
    rewrite dict_loop_S, at_index_char, (char_at_skipn_nil _ _ Hs1).
    reflexivity.
  - change (b "l" ++ List.concat elems ++ inner)
      with (x6c :: List.concat elems ++ inner) in *.
    cbn [List.length] in Hf. rewrite length_app in Hf.
    destruct (Forall_decodes_length n _ Hall ltac:(lia)) as [Hn Hk].
    destruct (skipn_cons_inv _ _ _ _ Hs) as (_ & _ & Hs').
    destruct (unterminated_starts _ _ Hin) as (x & rest & Ein & Hx).
    rewrite decode_bencode_l
      by (rewrite at_index_char; apply (char_at_skipn _ _ _ _ Hs)).
    change (at_index (_data (at_index data i)) (S (_index (at_index data i))))
      with (at_index data (S i)).
    apply bind_raise.
    destruct (list_loop_skip n elems Hall Hn data (S i) inner n [] Hs'
                ltac:(lia) ltac:(rewrite Ein; exact Hx)) as [b_list' ->].
    destruct (skipn_app_inv _ _ _ _ Hs') as [Hs1 _].
    destruct (n - List.length elems) as [|k] eqn:Ek; [lia|].
    rewrite list_loop_S, at_index_char, (char_at_first_char _ _ _ Hs1).
    rewrite Ein at 1. rewrite first_char_cons.
    apply bind_raise. apply IH; [exact Hs1 | lia].
  - change (b "d" ++ pairs_bytes pairs ++ key ++ inner)
      with (x64 :: pairs_bytes pairs ++ key ++ inner) in *.
    cbn [List.length] in Hf. rewrite !length_app in Hf.
    destruct (Forall_pairs_length n _ Hall ltac:(lia)) as [Hn Hk].
    destruct (skipn_cons_inv _ _ _ _ Hs) as (_ & _ & Hs').
    pose proof (decodes_nonempty _ _ Hkey) as Hkne.
    rewrite decode_bencode_d
      by (rewrite at_index_char; apply (char_at_skipn _ _ _ _ Hs)).
    change (at_index (_data (at_index data i)) (S (_index (at_index data i))))
      with (at_index data (S i)).
    apply bind_raise.
    assert (Hpost : char_is (first_char (key ++ inner)) "e" = false).
    { destruct key as [|x key]; [congruence|].
      pose proof (decode_kind _ _ _ Hkey) as Hd. cbv beta iota in Hd.
      cbn [app]. rewrite first_char_cons. cbn [char_is].
      destruct (Ascii.eqb_spec (chr x) "e") as [E|]; [|reflexivity].
      rewrite E in Hd. discriminate. }
    destruct (dict_loop_skip n pairs Hall Hn data (S i) (key ++ inner) n []
                Hs' ltac:(lia) Hpost) as [dictionary' ->].
    destruct (skipn_app_inv _ _ _ _ Hs') as [Hs1 _].
    destruct (skipn_app_inv _ _ _ _ Hs1) as [Hs2 _].
    destruct (n - List.length pairs) as [|k] eqn:Ek; [lia|].
    rewrite dict_loop_S, at_index_char, (char_at_first_char _ _ _ Hs1).
    destruct key as [|x key]; [congruence|].
    cbn [app]. rewrite first_char_cons.
    unfold bind at 1.
    rewrite (decode_str_at data _ (x :: key) kb inner n Hkey Hs1)
      by (simpl in *; lia).
    apply bind_raise. apply IH; [exact Hs2 | lia].
Qed.

Lemma decode_unterminated data m :
  unterminated data m -> decode data = Raise (ValueError m).
Proof.
  intro H. destruct (unterminated_starts _ _ H) as (x & rest & -> & _).
  rewrite decode_unfold.
  rewrite (unterminated_raises _ _ H (x :: rest) 0); [reflexivity| |].
  - reflexivity.
  - simpl. lia.
Qed.

(** *** Only such data raise the two messages *)

Lemma bind_raise_inv {A B} (c : M A) (k : A -> M B) self e :
  bind c k self = Raise e ->
  c self = Raise e \/
  exists a self', c self = Return (a, self') /\ k a self' = Raise e.
Proof.
  unfold bind. destruct (c self) as [[a self']|e'|]; try discriminate.
  - intro H. right. exists a, self'. split; [reflexivity | exact H].
  - intro H. left. injection H as ->. reflexivity.
Qed.

Lemma no_end_bind {A B} (c : M A) (k : A -> M B) :
  no_end_of_data c -> (forall a, no_end_of_data (k a)) ->
  no_end_of_data (bind c k).
Proof.
  intros Hc Hk self m Hm H.
  destruct (bind_raise_inv _ _ _ _ H) as [H1|(a & self' & _ & H2)].
  - exact (Hc self m Hm H1).
  - exact (Hk a self' m Hm H2).
Qed.

Lemma no_end_ret {A} (a : A) : no_end_of_data (ret a).
Proof. intros self m _. discriminate. Qed.

Lemma no_end_consume c : no_end_of_data (_consume c).
Proof.
  intros self m [-> | ->]; unfold _consume;
    destruct (char_is (_char self) c); discriminate.
Qed.

Lemma no_end_decode_char : no_end_of_data _decode_char.
Proof.
  intros self m [-> | ->]; unfold _decode_char;
    destruct (nth_error (_data self) (_index self)); discriminate.
Qed.

Lemma no_end_chars_loop num : forall byte_data,
  no_end_of_data (chars_loop num byte_data).
Proof.
  induction num as [|num IH]; intro byte_data; cbn [chars_loop].
  - apply no_end_ret.
  - apply no_end_bind; [apply no_end_decode_char | intro a; apply IH].
Qed.

Lemma no_end_digit_loop nums : no_end_of_data (digit_loop nums).
Proof.
  induction nums as [|num nums IH]; intros self m Hm; cbn [digit_loop].
  - destruct Hm as [-> | ->]; discriminate.
  - destruct (char_is (_char self) (str_of_digit num)).
    + apply (no_end_bind (_consume (str_of_digit num)) (fun _ => ret num));
        [apply no_end_consume | intro; apply no_end_ret | exact Hm].
    + apply IH, Hm.
Qed.

Lemma no_end_decode_digit : no_end_of_data _decode_digit.
Proof. apply no_end_digit_loop. Qed.

Lemma no_end_num_loop fuel : forall num, no_end_of_data (num_loop fuel num).
Proof.
  induction fuel as [|fuel IH]; intros num self m Hm; rewrite num_loop_eq;
    destruct (char_isdigit (_char self)); try discriminate.
  apply (no_end_bind _decode_digit
           (fun d => num_loop fuel (str_append_digit num d)));
    [apply no_end_decode_digit | intro; apply IH | exact Hm].
Qed.

Lemma no_end_num_digits fuel : no_end_of_data (num_digits fuel).
Proof.
  intros self m Hm. unfold num_digits.
  destruct (char_is (_char self) "0"); [|apply no_end_num_loop, Hm].
  apply (no_end_bind _decode_digit
           (fun d self' =>
              if char_isdigit (_char self')
              then Raise (ValueError LeadingZeros)
              else Return (str_append_digit EmptyString d, self')));
    [apply no_end_decode_digit | | exact Hm].
  intros d self' m' [-> | ->]; destruct (char_isdigit (_char self'));
    discriminate.
Qed.

Lemma no_end_decode_num fuel : no_end_of_data (_decode_num fuel).
Proof.
  unfold _decode_num. apply no_end_bind; [apply no_end_num_digits|].
  intros [|c num]; [|apply no_end_ret].
  intros self m [-> | ->]; discriminate.
Qed.

Lemma no_end_decode_snum fuel : no_end_of_data (_decode_snum fuel).
Proof.
  intros self m Hm. unfold _decode_snum.
  destruct (char_isdigit (_char self)); [apply no_end_decode_num, Hm|].
  destruct (char_is (_char self) "-");
    [|destruct Hm as [-> | ->]; discriminate].
  apply (no_end_bind (_consume "-")
           (fun _ self' =>
              if char_is (_char self') "0"
              then Raise (ValueError NegativeZero)
              else (value <- _decode_num fuel ;; ret (- value)%Z) self'));
    [apply no_end_consume | | exact Hm].
  intros _ self' m' Hm'. destruct (char_is (_char self') "0").
  - destruct Hm' as [-> | ->]; discriminate.
  - apply (no_end_bind (_decode_num fuel) (fun value => ret (- value)%Z));
      [apply no_end_decode_num | intro; apply no_end_ret | exact Hm'].
Qed.

Lemma no_end_decode_int fuel : no_end_of_data (_decode_int fuel).
Proof.
  unfold _decode_int.
  apply no_end_bind; [apply no_end_consume | intros _].
  apply no_end_bind; [apply no_end_decode_snum | intro value].
  apply no_end_bind; [apply no_end_consume | intros _; apply no_end_ret].
Qed.

Lemma no_end_decode_str fuel : no_end_of_data (_decode_str fuel).
Proof.
  unfold _decode_str.
  apply no_end_bind; [apply no_end_decode_num | intro num].
  apply no_end_bind; [apply no_end_consume | intros _].
  apply no_end_chars_loop.
Qed.

Lemma char_at_none_skipn data i :
  char_at data i = None -> skipn i data = [].
Proof.
  intro H. apply skipn_all2.
  destruct (Nat.lt_ge_cases i (List.length data)) as [Hlt|Hge]; [|exact Hge].
  destruct (char_at_inside _ _ Hlt) as (x & _ & Hx). congruence.
Qed.

Section EndOfDataInversion.

Variable n : nat.
Variable data : bytes.
Variable m : message.
Hypothesis Hm : end_of_data m.
Hypothesis IHn : forall i,
  i <= List.length data ->
  _decode_bencode n (at_index data i) = Raise (ValueError m) ->
  unterminated (skipn i data) m.

Lemma list_loop_end_inv k : forall b_list i,
  i <= List.length data ->
  list_loop (_decode_bencode n) k b_list (at_index data i)
  = Raise (ValueError m) ->
  exists elems,
    Forall (fun d => exists v, decode d = Return v) elems /\
    ((m = EndOfDataList /\ skipn i data = List.concat elems) \/
     (exists inner,
        unterminated inner m /\ skipn i data = List.concat elems ++ inner)).
Proof.
  induction k as [|k IH]; intros b_list i Hi H; [discriminate|].
  rewrite list_loop_S in H.
  destruct (_char (at_index data i)) as [c|] eqn:Hc.
  - destruct (bind_raise_inv _ _ _ _ H) as [H1|(v & t1 & H1 & H2)].
    + exists []. split; [constructor|]. right.
      exists (skipn i data). split; [apply IHn; assumption | reflexivity].
    + destruct (decode_bencode_slice _ _ _ _ _ Hi H1)
        as (Hdec & Ht1 & Hlt & Hle).
      destruct (slice_split data i (_index t1) ltac:(lia) Hle) as (Hsk & _).
      unfold list_after in H2.
      destruct (char_is (_char t1) "e"); [discriminate|].
      rewrite Ht1 in H2.
      destruct (IH _ _ Hle H2) as (elems & Hall & Hcases).
      exists (slice data i (_index t1) :: elems).
      split; [constructor; [exists v; exact Hdec | exact Hall]|].
      cbn [List.concat].
      destruct Hcases as [[E Hs]|(inner & Hin & Hs)].
      * left. split; [exact E|]. rewrite <- Hs. exact Hsk.
      * right. exists inner. split; [exact Hin|].
        rewrite <- app_assoc, <- Hs. exact Hsk.
  - injection H as <-. exists []. split; [constructor|]. left.
    split; [reflexivity|]. rewrite at_index_char in Hc.
    exact (char_at_none_skipn _ _ Hc).
Qed.

Lemma dict_loop_end_inv k : forall dictionary i,
  i <= List.length data ->
  dict_loop (_decode_bencode n) n k dictionary (at_index data i)
  = Raise (ValueError m) ->
  exists pairs,
    Forall (fun p => exists kv, pair_decodes p kv) pairs /\
    ((m = EndOfDataDict /\ skipn i data = pairs_bytes pairs) \/
     (exists key kb inner,
        decode key = Return (Bytes kb) /\ unterminated inner m /\
        skipn i data = pairs_bytes pairs ++ key ++ inner)).
Proof.
  induction k as [|k IH]; intros dictionary i Hi H; [discriminate|].
  rewrite dict_loop_S in H.
  destruct (_char (at_index data i)) as [c|] eqn:Hc.
  - destruct (bind_raise_inv _ _ _ _ H) as [H1|(key & t1 & H1 & H2)].
    { exfalso. exact (no_end_decode_str _ _ _ Hm H1). }
    destruct (decode_str_slice _ _ _ _ _ Hi H1) as (Hkey & Ht1 & Hlt & Hle).
    destruct (slice_split data i (_index t1) ltac:(lia) Hle) as (Hsk & _).
    rewrite Ht1 in H2.
    destruct (bind_raise_inv _ _ _ _ H2) as [H3|(v & t2 & H3 & H4)].
    + exists []. split; [constructor|]. right.
      exists (slice data i (_index t1)), key, (skipn (_index t1) data).
      split; [exact Hkey|]. split; [apply IHn; assumption | exact Hsk].
    + destruct (decode_bencode_slice _ _ _ _ _ Hle H3)
        as (Hdec & Ht2 & Hlt2 & Hle2).
      destruct (slice_split data (_index t1) (_index t2) ltac:(lia) Hle2)
        as (Hsk2 & _).
      unfold dict_after in H4.
      destruct (char_is (_char t2) "e"); [discriminate|].
      rewrite Ht2 in H4.
      destruct (IH _ _ Hle2 H4) as (pairs & Hall & Hcases).
      exists ((slice data i (_index t1),
               slice data (_index t1) (_index t2)) :: pairs).
      split.
      { constructor; [|exact Hall]. exists (key, v). split; assumption. }
      rewrite pairs_bytes_cons. cbn [fst snd].
      destruct Hcases as [[E Hs]|(key' & kb & inner & Hk' & Hin & Hs)].
      * left. split; [exact E|].
        rewrite <- !app_assoc, <- Hs, <- Hsk2. exact Hsk.
      * right. exists key', kb, inner. split; [exact Hk'|].
        split; [exact Hin|].
        rewrite <- !app_assoc, <- Hs, <- Hsk2. exact Hsk.
  - injection H as <-. exists []. split; [constructor|]. left.
    split; [reflexivity|]. rewrite at_index_char in Hc.
    exact (char_at_none_skipn _ _ Hc).
Qed.

End EndOfDataInversion.

Lemma decode_bencode_end_inv m :
  end_of_data m ->
  forall fuel data i,
    i <= List.length data ->
    _decode_bencode fuel (at_index data i) = Raise (ValueError m) ->
    unterminated (skipn i data) m.
Proof.
  intro Hm. induction fuel as [|n IH]; intros data i Hi H; [discriminate|].
  destruct (char_is (_char (at_index data i)) "d") eqn:Hd.
  { apply char_is_some in Hd. rewrite (decode_bencode_d n _ Hd) in H.
    change (at_index (_data (at_index data i)) (S (_index (at_index data i))))
      with (at_index data (S i)) in H.
    rewrite at_index_char in Hd.
    pose proof (byte_at_char data i x64 Hd) as Hs.
    assert (Hi' : S i <= List.length data).
    { destruct (Nat.lt_ge_cases i (List.length data)) as [|Hge]; [lia|].
      rewrite (char_at_end _ _ Hge) in Hd. discriminate. }
    destruct (bind_raise_inv _ _ _ _ H) as [H1|(r & t1 & _ & H2)].
    - destruct (dict_loop_end_inv n data m Hm (IH data) _ _ _ Hi' H1)
        as (pairs & Hall & [[-> Hs1]|(key & kb & inner & Hk & Hin & Hs1)]);
        rewrite Hs, Hs1.
      + exact (unterminated_dict pairs Hall).
      + exact (unterminated_in_dict pairs key kb inner m Hall Hk Hin).
    - exfalso.
      apply (no_end_bind (_consume "e") (fun _ => ret (BDict r))
               (no_end_consume _) (fun _ => no_end_ret _) t1 m Hm H2). }
  destruct (char_is (_char (at_index data i)) "l") eqn:Hl.
  { apply char_is_some in Hl. rewrite (decode_bencode_l n _ Hl) in H.
    change (at_index (_data (at_index data i)) (S (_index (at_index data i))))
      with (at_index data (S i)) in H.
    rewrite at_index_char in Hl.
    pose proof (byte_at_char data i x6c Hl) as Hs.
    assert (Hi' : S i <= List.length data).
    { destruct (Nat.lt_ge_cases i (List.length data)) as [|Hge]; [lia|].
      rewrite (char_at_end _ _ Hge) in Hl. discriminate. }
    destruct (bind_raise_inv _ _ _ _ H) as [H1|(r & t1 & _ & H2)].
    - destruct (list_loop_end_inv n data m Hm (IH data) _ _ _ Hi' H1)
        as (elems & Hall & [[-> Hs1]|(inner & Hin & Hs1)]);
        rewrite Hs, Hs1.
      + exact (unterminated_list elems Hall).
      + exact (unterminated_in_list elems inner m Hall Hin).
    - exfalso.
      apply (no_end_bind (_consume "e") (fun _ => ret (BList r))
               (no_end_consume _) (fun _ => no_end_ret _) t1 m Hm H2). }
  exfalso.
  destruct (char_is (_char (at_index data i)) "i") eqn:Hc.
  { apply char_is_some in Hc. rewrite (decode_bencode_i n _ Hc) in H.
    apply (no_end_bind (_decode_int n) (fun value => ret (Int value))
             (no_end_decode_int n) (fun _ => no_end_ret _) _ m Hm H). }
  destruct (char_isdigit (_char (at_index data i))) eqn:Hg.
  { rewrite (decode_bencode_digit n _ Hg) in H.
    apply (no_end_bind (_decode_str n) (fun value => ret (Bytes value))
             (no_end_decode_str n) (fun _ => no_end_ret _) _ m Hm H). }
  cbn [_decode_bencode] in H. rewrite Hd, Hl, Hc, Hg in H.
  destruct Hm as [-> | ->]; discriminate.
Qed.

Lemma decode_end_of_data_inv data m :
  end_of_data m -> decode data = Raise (ValueError m) -> unterminated data m.
Proof.
  intros Hm H. destruct data as [|x body].
  { destruct Hm as [-> | ->]; discriminate. }
  rewrite decode_unfold in H. unfold finish in H.
  destruct (_decode_bencode (S (S (List.length body))) (at_index (x :: body) 0))
    as [[v t']|e|] eqn:Hrun; try discriminate.
  - destruct (_char t'); [|discriminate].
    destruct Hm as [-> | ->]; discriminate.
  - injection H as ->.
    exact (decode_bencode_end_inv m Hm _ (x :: body) 0 ltac:(simpl; lia) Hrun).
Qed.

(** ** Calls of [decode] in a heap *)

Lemma nth_error_last (heap : Heap) obj :
  nth_error (heap ++ [obj]) (List.length heap) = Some obj.
Proof.
  rewrite nth_error_app2 by lia. rewrite Nat.sub_diag. reflexivity.
Qed.

Lemma store_last (heap : Heap) obj obj' :
  store (heap ++ [obj]) (List.length heap) obj' = heap ++ [obj'].
Proof. induction heap as [|o heap IH]; simpl; [|rewrite IH]; reflexivity. Qed.

Lemma firstn_heap (heap rest : Heap) :
  firstn (List.length heap) (heap ++ rest) = heap.
Proof.
  rewrite firstn_app, Nat.sub_diag, firstn_all. simpl. apply app_nil_r.
Qed.

(** What a call does to the heap: nothing when [__init__] raises; else
    it adds one instance, the decoder of the call, and the result is the
    one [decode] computes from the bytes. *)
Lemma Decoder_decode_spec data heap :
  fst (Decoder_decode data heap) = decode data /\
  (snd (Decoder_decode data heap) = heap \/
   exists decoder, snd (Decoder_decode data heap) = heap ++ [decoder]).
Proof.
  unfold Decoder_decode, decode, decode_with, new.
  destruct (__init__ data) as [obj|e|]; [|split; [reflexivity | left; reflexivity]..].
  unfold call, char_of. rewrite nth_error_last.
  destruct (_decode_bencode (S (List.length data)) obj) as [[result obj']|e|].
  - rewrite store_last, nth_error_last.
    destruct (_char obj'); (split; [reflexivity | right; eexists; reflexivity]).
  - split; [reflexivity | right; eexists; reflexivity].
  - split; [reflexivity | right; eexists; reflexivity].
Qed.

(** * Properties of the decoder *)

(** C1. The code does not raise an explicit error for a byte string
    whose declared length exceeds the bytes left: on [b"5:ab"], and on
    ["5:"] followed by at most four bytes, [_decode_char] reads
    [self._data[self._index]] out of range and [decode] ends with the
    [IndexError] of that access, not with a [ValueError]; so does
    [_decode_str] in any state, once the length is read and the bytes
    after the [":"] are fewer.  What does hold for every buffer:
    [decode] returns a well-formed value or raises. *)
Theorem truncated_string_raises_IndexError :
  decode (b "5:ab") = Raise IndexError /\
  (forall payload, decode (b "5:" ++ firstn 4 payload) = Raise IndexError) /\
  (forall fuel self num self',
     cursor_ok self ->
     _decode_num fuel self = Return (num, self') ->
     _char self' = Some ":"%char ->
     remaining self' <= Z.to_nat num ->
     _decode_str fuel self = Raise IndexError) /\
  (forall data,
     (exists v, decode data = Return v /\ well_formed v) \/
     (exists e, decode data = Raise e)).
Proof.
  split; [reflexivity | split; [|split]].
  - intro payload.
    do 4 (destruct payload as [|? payload]; [reflexivity|]). reflexivity.
  - exact decode_str_truncated.
  - intro data. destruct (decode_total data) as [[v Hv]|He]; [left|right; exact He].
    exists v. split; [exact Hv | exact (decode_wf _ _ Hv)].
Qed.

Lemma truncated_string_raises_IndexError_witness :
  _decode_str 9 (at_index (b "l5:abe") 1) = Raise IndexError.
Proof.
  destruct truncated_string_raises_IndexError as (_ & _ & Hstr & _).
  apply (Hstr 9 (at_index (b "l5:abe") 1) 5%Z (at_index (b "l5:abe") 2)).
  - apply cursor_ok_at. simpl. lia.
  - reflexivity.
  - reflexivity.
  - vm_compute. lia.
Defined.

(** C2. Empty containers are rejected: every buffer that starts with
    ["de"] fails in the key's [_decode_num] (no digit), every buffer that
    starts with ["le"] fails in [_decode_bencode] (not bencoding), and no
    list or dictionary inside a decoded value is empty. *)
Theorem empty_containers_rejected :
  (forall rest, decode (b "de" ++ rest) = Raise (ValueError NoDigit)) /\
  (forall rest, decode (b "le" ++ rest) = Raise (ValueError NotBencoding)) /\
  (forall data v, decode data = Return v -> well_formed v) /\
  (forall data, decode data <> Return (BList []) /\
                decode data <> Return (BDict [])).
Proof.
  split; [reflexivity | split; [reflexivity | split]].
  - exact decode_wf.
  - intro data. split; intro H; apply decode_wf in H; simpl in H; tauto.
Qed.

Lemma empty_containers_rejected_witness :
  decode (b "l4:spame") = Return (BList [Bytes (b "spam")]) /\
  well_formed (BList [Bytes (b "spam")]).
Proof.
  assert (H : decode (b "l4:spame") = Return (BList [Bytes (b "spam")]))
    by reflexivity.
  split; [exact H|].
  exact (proj1 (proj2 (proj2 empty_containers_rejected)) _ _ H).
Defined.

(** C3. The examples of the specification decode exactly: byte strings
    stay raw bytes (any four bytes come back as they are), a list keeps
    the order of its elements and a dictionary the order in which its
    keys first appear; in general a list of buffers that decode, between
    ["l"] and ["e"], decodes to the list of their values, and key and
    value buffers between ["d"] and ["e"] to the dictionary built by
    their assignments in order. *)
Theorem decode_reconstructs :
  decode (b "4:spam") = Return (Bytes (b "spam")) /\
  decode (b "i3e") = Return (Int 3) /\
  decode (b "i-3e") = Return (Int (-3)) /\
  decode (b "l4:spam4:eggse")
    = Return (BList [Bytes (b "spam"); Bytes (b "eggs")]) /\
  decode (b "d3:cow3:moo4:spam4:eggse")
    = Return (BDict [(b "cow", Bytes (b "moo"));
                     (b "spam", Bytes (b "eggs"))]) /\
  (forall w x y z, decode (b "4:" ++ [w; x; y; z])
                   = Return (Bytes [w; x; y; z])) /\
  (forall elems vs,
     Forall2 (fun d v => decode d = Return v) elems vs -> elems <> [] ->
     decode (b "l" ++ List.concat elems ++ b "e") = Return (BList vs)) /\
  (forall pairs kvs,
     Forall2 pair_decodes pairs kvs -> pairs <> [] ->
     decode (b "d" ++ pairs_bytes pairs ++ b "e")
     = Return (BDict (setitems [] kvs))).
Proof.
  do 5 (split; [reflexivity|]).
  split; [intros; reflexivity|].
  split; [exact decode_list_of | exact decode_dict_of].
Qed.

Lemma decode_reconstructs_witness :
  decode (b "l" ++ List.concat [b "4:spam"; b "i3e"] ++ b "e")
  = Return (BList [Bytes (b "spam"); Int 3]).
Proof.
  destruct decode_reconstructs as (_ & _ & _ & _ & _ & _ & Hlist & _).
  apply Hlist.
  - repeat constructor.
  - discriminate.
Defined.

(** C4, as amended. The lexical rules of integers and string lengths:
    after ["-"] a ["0"] is refused as a negative zero, whatever follows
    it (the check comes before the number is read); with no sign, a
    ["0"] followed by a digit is refused as a leading zero, in an integer
    and in a string length, while ["0"] alone is the integer 0 and the
    length of the empty byte string; when
    what follows ["i"] is neither a digit ["0"] to ["9"] nor ["-"], or
    what follows ["i-"] is not such a digit, the buffer is refused as not
    bencoding or for its missing digit.  The last two parts give the
    negative zero and the leading zero in any state of the decoder, that
    is at any depth of the value. *)
Theorem lexical_rules :
  decode (b "i-0e") = Raise (ValueError NegativeZero) /\
  decode (b "i03e") = Raise (ValueError LeadingZeros) /\
  decode (b "i0e") = Return (Int 0) /\
  decode (b "0:") = Return (Bytes []) /\
  decode (b "00:") = Raise (ValueError LeadingZeros) /\
  (forall rest, decode (b "i-0" ++ rest) = Raise (ValueError NegativeZero)) /\
  (forall rest, char_isdigit (first_char rest) = true ->
     decode (b "i0" ++ rest) = Raise (ValueError LeadingZeros) /\
     decode (b "0" ++ rest) = Raise (ValueError LeadingZeros)) /\
  (forall rest, char_ascii_digit (first_char rest) = false ->
     char_is (first_char rest) "-" = false ->
     decode (b "i" ++ rest) = Raise (ValueError NotBencoding)) /\
  (forall rest, char_ascii_digit (first_char rest) = false ->
     decode (b "i-" ++ rest)
     = Raise (ValueError (if char_isdigit (first_char rest)
                          then NotBencoding else NoDigit))) /\
  (forall fuel self, _char self = Some "-"%char ->
     char_at (_data self) (S (_index self)) = Some "0"%char ->
     _decode_snum fuel self = Raise (ValueError NegativeZero)) /\
  (forall fuel self, _char self = Some "0"%char ->
     char_isdigit (char_at (_data self) (S (_index self))) = true ->
     _decode_num fuel self = Raise (ValueError LeadingZeros)).
Proof.
  do 6 (split; [reflexivity|]).
  split; [|split; [|split; [|split;
    [exact decode_snum_negative_zero | exact decode_num_leading_zero]]]].
  - intros rest Hd. split.
    + change (b "i0" ++ rest) with (x69 :: [x30] ++ rest).
      rewrite decode_int_run by reflexivity. unfold bind at 1.
      unfold _decode_snum. simpl _char.
      change (char_at (x69 :: [x30] ++ rest) 1) with (Some "0"%char).
      change (char_isdigit (Some "0"%char)) with true. cbv iota.
      rewrite decode_num_leading_zero; [reflexivity | reflexivity |].
      change (char_isdigit (char_at ([x69; x30] ++ rest)
                              (List.length [x69; x30])) = true).
      rewrite char_at_app_first. exact Hd.
    + change (b "0" ++ rest) with (x30 :: rest).
      rewrite decode_str_run by reflexivity. unfold bind at 1, _decode_str.
      unfold bind at 1.
      rewrite decode_num_leading_zero; [reflexivity | reflexivity |].
      change (char_isdigit (char_at ([x30] ++ rest) (List.length [x30]))
              = true).
      rewrite char_at_app_first. exact Hd.
  - intros rest Hd Hm.
    change (b "i" ++ rest) with (x69 :: rest).
    rewrite decode_int_run by reflexivity. unfold bind at 1.
    assert (Hc : _char (at_index (x69 :: rest) 1) = first_char rest)
      by apply (char_at_app_first [x69] rest).
    rewrite decode_snum_not_ascii; [reflexivity | |]; rewrite Hc; assumption.
  - intros rest Hd.
    change (b "i-" ++ rest) with (x69 :: [x2d] ++ rest).
    rewrite decode_int_run by reflexivity. unfold bind at 1.
    assert (Hc : char_at (_data (at_index (x69 :: [x2d] ++ rest) 1))
                   (S (_index (at_index (x69 :: [x2d] ++ rest) 1)))
                 = first_char rest)
      by apply (char_at_app_first [x69; x2d] rest).
    change (S (List.length ([x2d] ++ rest)))
      with (S (S (List.length rest))).
    rewrite decode_snum_minus_not_ascii; [| reflexivity | rewrite Hc; exact Hd].
    rewrite Hc. reflexivity.
Qed.

Lemma lexical_rules_witness :
  decode (b "i0" ++ b "42e") = Raise (ValueError LeadingZeros) /\
  decode (b "0" ++ b "0:") = Raise (ValueError LeadingZeros) /\
  decode (b "i" ++ b "e") = Raise (ValueError NotBencoding) /\
  decode (b "i-" ++ b "e") = Raise (ValueError NoDigit).
Proof.
  destruct lexical_rules
    as (_ & _ & _ & _ & _ & _ & Hzero & Hi & Hminus & _ & _).
  split; [apply (Hzero (b "42e")); reflexivity|].
  split; [apply (Hzero (b "0:")); reflexivity|].
  split; [apply (Hi (b "e")); reflexivity|].
  apply (Hminus (b "e")); reflexivity.
Defined.

(** C4, counterexample. A leading zero followed by more digits does not
    always fail as a leading zero: in [b"i-03e"] the ["0"] after ["-"]
    is followed by a digit, and [_decode_snum] refuses it as a negative
    zero before [_decode_num] is called. *)
Theorem leading_zero_after_minus :
  decode (b "i-03e") = Raise (ValueError NegativeZero) /\
  decode (b "i-03e") <> Raise (ValueError LeadingZeros).
Proof. split; [reflexivity | discriminate]. Qed.

(** C5. When [decode] returns, the run from offset 0 has consumed the
    whole buffer: the cursor is at the end and the lookahead is [None].
    A run that returns with bytes left raises the extra-data error; so
    does any buffer that decodes followed by more bytes, as
    [b"i3e garbage"]. *)
Theorem whole_buffer_or_extra_data :
  (forall data v, decode data = Return v ->
     data <> [] /\
     _decode_bencode (S (List.length data)) (at_index data 0)
     = Return (v, at_index data (List.length data)) /\
     _char (at_index data (List.length data)) = None) /\
  (forall data decoder v decoder',
     __init__ data = Return decoder ->
     _decode_bencode (S (List.length data)) decoder = Return (v, decoder') ->
     _index decoder' < List.length data ->
     decode data = Raise (ValueError ExtraData)) /\
  (forall data v extra, decode data = Return v -> extra <> [] ->
     decode (data ++ extra) = Raise (ValueError ExtraData)) /\
  decode (b "i3e garbage") = Raise (ValueError ExtraData).
Proof.
  split; [|split; [|split; [exact decode_extra | reflexivity]]].
  - intros data v H. apply decode_return in H. destruct H as [Hne H].
    repeat split; [assumption | assumption | apply char_at_index_end].
  - intros data decoder v decoder' Hi Hrun Hlt.
    destruct (init_cursor_ok _ _ Hi) as (Hok & Hd & _).
    destruct (decode_bencode_moved _ _ _ _ Hok Hrun) as (Hok' & Hd' & _).
    unfold decode, decode_with. rewrite Hi, Hrun.
    destruct (_char decoder') eqn:Hc; [reflexivity|].
    apply (cursor_none _ Hok') in Hc. rewrite Hd', Hd in Hc. lia.
Qed.

Lemma whole_buffer_or_extra_data_witness :
  decode (b "i3e" ++ b "4:spam") = Raise (ValueError ExtraData).
Proof.
  destruct whole_buffer_or_extra_data as (_ & _ & Hextra & _).
  apply (Hextra (b "i3e") (Int 3) (b "4:spam")).
  - reflexivity.
  - discriminate.
Defined.

(** C6. The empty buffer raises the empty-data error of [__init__], and
    no other buffer does. *)
Theorem empty_input_error :
  decode [] = Raise (ValueError EmptyData) /\
  (forall data, data <> [] -> decode data <> Raise (ValueError EmptyData)).
Proof. split; [reflexivity | exact decode_not_empty_data]. Qed.

Lemma empty_input_error_witness :
  decode (b "e") <> Raise (ValueError EmptyData).
Proof.
  apply (proj2 empty_input_error (b "e")). discriminate.
Defined.

(** C7. When the data end at the start of an iteration of a container's
    loop, the loop raises its end-of-data error: in any state whose
    lookahead is [None]; for every buffer made of ["l"] and elements that
    decode, or of ["d"] and pairs of a key and a value that decode, with
    no ["e"]; and on the two examples.  The same holds at any depth:
    [decode] raises the error of the innermost loop on every buffer that
    ends at the head of the loop of a list or dictionary, wherever the
    container stands in the value ([unterminated]), and only such buffers
    raise one of the two errors; so do [b"lli3e"], [b"ld3:cow3:moo"] and
    [b"d1:al"]. *)
Theorem unterminated_container :
  (forall rec k b_list self, _char self = None ->
     list_loop rec (S k) b_list self = Raise (ValueError EndOfDataList)) /\
  (forall rec fuel k dictionary self, _char self = None ->
     dict_loop rec fuel (S k) dictionary self
     = Raise (ValueError EndOfDataDict)) /\
  (forall elems,
     Forall (fun d => exists v, decode d = Return v) elems ->
     decode (b "l" ++ List.concat elems) = Raise (ValueError EndOfDataList)) /\
  (forall pairs,
     Forall (fun p => exists kv, pair_decodes p kv) pairs ->
     decode (b "d" ++ pairs_bytes pairs) = Raise (ValueError EndOfDataDict)) /\
  decode (b "li3e") = Raise (ValueError EndOfDataList) /\
  decode (b "d3:cow3:moo") = Raise (ValueError EndOfDataDict) /\
  (forall data m,
     unterminated data m -> decode data = Raise (ValueError m)) /\
  (forall data m,
     end_of_data m -> decode data = Raise (ValueError m) ->
     unterminated data m) /\
  decode (b "lli3e") = Raise (ValueError EndOfDataList) /\
  decode (b "ld3:cow3:moo") = Raise (ValueError EndOfDataDict) /\
  decode (b "d1:al") = Raise (ValueError EndOfDataList).
Proof.
  split; [|split; [|split; [|split; [|split; [|split; [|split; [|split]]]]]]].
  - intros rec k b_list self Hc. rewrite list_loop_S, Hc. reflexivity.
  - intros rec fuel k dictionary self Hc. rewrite dict_loop_S, Hc. reflexivity.
  - exact decode_list_truncated.
  - exact decode_dict_truncated.
  - reflexivity.
  - reflexivity.
  - exact decode_unterminated.
  - exact decode_end_of_data_inv.
  - repeat split; reflexivity.
Qed.

Lemma unterminated_container_witness :
  decode (b "l" ++ List.concat [b "i3e"; b "l4:spame"])
  = Raise (ValueError EndOfDataList) /\
  decode (b "d" ++ pairs_bytes [(b "3:cow", b "i3e")])
  = Raise (ValueError EndOfDataDict) /\
  decode (b "l" ++ List.concat [b "i3e"] ++
          b "d" ++ pairs_bytes [(b "1:a", b "l4:spame")] ++ b "1:b" ++
          b "l" ++ List.concat [b "i1e"])
  = Raise (ValueError EndOfDataList) /\
  unterminated (b "ld1:ai1e") EndOfDataDict.
Proof.
  destruct unterminated_container
    as (_ & _ & Hlist & Hdict & _ & _ & Hdeep & Honly & _).
  split; [|split; [|split]].
  - apply Hlist. repeat constructor.
    + exists (Int 3). reflexivity.
    + exists (BList [Bytes (b "spam")]). reflexivity.
  - apply Hdict. repeat constructor.
    exists (b "cow", Int 3). split; reflexivity.
  - apply Hdeep. apply unterminated_in_list.
    + repeat constructor. exists (Int 3). reflexivity.
    + apply (unterminated_in_dict [(b "1:a", b "l4:spame")] (b "1:b") (b "b")).
      * repeat constructor.
        exists (b "a", BList [Bytes (b "spam")]). split; reflexivity.
      * reflexivity.
      * apply unterminated_list. repeat constructor.
        exists (Int 1). reflexivity.
  - apply Honly; [right; reflexivity | reflexivity].
Defined.

(** C8. The cursor invariant [cursor_ok]: the lookahead is the character
    of the byte at [_index] when there is one and [None] exactly at the
    end of the buffer.  [__init__] establishes it at offset 0; [_consume]
    and [_decode_char], the two operations that move the cursor, keep it,
    leave the buffer alone and advance by exactly one byte; the loop of
    [_decode_str] advances by exactly the bytes it returns; every run of
    [_decode_bencode] that returns keeps it and ends further in the same
    buffer. *)
Theorem cursor_invariant :
  (forall data decoder, __init__ data = Return decoder ->
     cursor_ok decoder /\ _data decoder = data /\ _index decoder = 0) /\
  (forall self, cursor_ok self ->
     (_index self < List.length (_data self) ->
      exists byte_val,
        nth_error (_data self) (_index self) = Some byte_val /\
        _char self = Some (chr byte_val)) /\
     (_char self = None <-> _index self = List.length (_data self))) /\
  (forall expected_char self u self', cursor_ok self ->
     _consume expected_char self = Return (u, self') ->
     cursor_ok self' /\ _data self' = _data self /\
     _index self' = S (_index self)) /\
  (forall self byte_val self', cursor_ok self ->
     _decode_char self = Return (byte_val, self') ->
     cursor_ok self' /\ _data self' = _data self /\
     _index self' = S (_index self) /\
     nth_error (_data self) (_index self) = Some byte_val) /\
  (forall num self r self', cursor_ok self ->
     chars_loop num [] self = Return (r, self') ->
     cursor_ok self' /\ _data self' = _data self /\
     _index self' = _index self + num /\ List.length r = num /\
     r = firstn num (skipn (_index self) (_data self))) /\
  (forall fuel self v self', cursor_ok self ->
     _decode_bencode fuel self = Return (v, self') ->
     cursor_ok self' /\ _data self' = _data self /\
     _index self < _index self').
Proof.
  split; [exact init_cursor_ok|].
  split; [|split; [|split; [|split]]].
  - intros self Hok. split; [|apply cursor_none; assumption].
    intro Hlt. destruct (char_at_inside _ _ Hlt) as (byte_val & Hn & Hc).
    exists byte_val. split; [assumption|].
    destruct Hok as [_ Hok]. congruence.
  - intros c self u self' Hok H.
    pose proof (consume_triple c self Hok) as Ht. unfold triple in Ht.
    rewrite H in Ht. destruct Ht as (Hok' & Hd & _).
    apply consume_inv in H. destruct H as [_ ->]. auto.
  - intros self byte_val self' Hok H.
    pose proof (decode_char_triple self Hok) as Ht. unfold triple in Ht.
    rewrite H in Ht. destruct Ht as (Hok' & Hd & _).
    apply decode_char_inv in H. destruct H as [Hn ->]. auto.
  - intros num self r self' Hok H.
    pose proof (chars_loop_triple num [] self Hok) as Ht. unfold triple in Ht.
    rewrite H in Ht. destruct Ht as (Hok' & Hd & _).
    apply chars_loop_exact in H. destruct H as (Hr & Hi & Hl).
    simpl in Hr, Hl. auto.
  - intros fuel self v self' Hok H.
    destruct (decode_bencode_moved _ _ _ _ Hok H) as (Hok' & Hd & Hi).
    repeat split; try apply Hok'; [assumption | lia].
Qed.

Lemma cursor_invariant_witness :
  cursor_ok (at_index (b "i3e") 1) /\
  _index (at_index (b "i3e") 1) = 1.
Proof.
  destruct cursor_invariant as (Hinit & _ & Hconsume & _).
  destruct (Hinit (b "i3e") (at_index (b "i3e") 0) eq_refl) as (Hok & _ & _).
  destruct (Hconsume "i"%char (at_index (b "i3e") 0) tt
              (at_index (b "i3e") 1) Hok eq_refl) as (Hok' & _ & Hi).
  split; [exact Hok' | exact Hi].
Defined.

(** C9. A key that occurs twice is no error: the assignment
    [dictionary[key] = value] gives the key its last value and keeps its
    place, so a dictionary of two pairs with the same key decodes to the
    single pair of the key and the second value. *)
Theorem duplicate_key_last_wins :
  decode (b "d1:a1:b1:a1:ce") = Return (BDict [(b "a", Bytes (b "c"))]) /\
  (forall dictionary key value,
     getitem (setitem dictionary key value) key = Some value) /\
  (forall dictionary key value, In key (map fst dictionary) ->
     map fst (setitem dictionary key value) = map fst dictionary) /\
  (forall kb key v1b val1 v2b val2,
     decode kb = Return (Bytes key) ->
     decode v1b = Return val1 -> decode v2b = Return val2 ->
     decode (b "d" ++ kb ++ v1b ++ kb ++ v2b ++ b "e")
     = Return (BDict [(key, val2)])).
Proof.
  split; [reflexivity | split; [exact setitem_getitem | split]].
  - intros dictionary key value Hin. rewrite setitem_keys.
    destruct (in_dec (list_eq_dec Byte.byte_eq_dec) key (map fst dictionary));
      [reflexivity | contradiction].
  - intros kb key v1b val1 v2b val2 Hk H1 H2.
    replace (kb ++ v1b ++ kb ++ v2b ++ b "e")
      with (pairs_bytes [(kb, v1b); (kb, v2b)] ++ b "e")
      by (unfold pairs_bytes; simpl; rewrite app_nil_r, <- !app_assoc;
          reflexivity).
    rewrite (decode_dict_of _ [(key, val1); (key, val2)]).
    + unfold setitems. simpl. rewrite bytes_eqb_refl. reflexivity.
    + repeat constructor; assumption.
    + discriminate.
Qed.

Lemma duplicate_key_last_wins_witness :
  decode (b "d" ++ b "3:cow" ++ b "i1e" ++ b "3:cow" ++ b "l3:mooe" ++ b "e")
  = Return (BDict [(b "cow", BList [Bytes (b "moo")])]).
Proof.
  destruct duplicate_key_last_wins as (_ & _ & _ & Hdup).
  apply (Hdup (b "3:cow") (b "cow") (b "i1e") (Int 1)); reflexivity.
Defined.



(** * Further theorems *)

(** X1. A value does not depend on what surrounds its bytes: a buffer
    that decodes to [v] is read as [v] at any offset of any larger
    buffer, with the cursor left right after it; and whatever a run of
    [_decode_bencode] returns at an offset, the bytes it has read decode
    alone to the same value. *)
Theorem value_independent_of_context :
  (forall d v pre post fuel,
     decode d = Return v -> List.length d < fuel ->
     _decode_bencode fuel (at_index (pre ++ d ++ post) (List.length pre))
     = Return (v, at_index (pre ++ d ++ post)
                           (List.length pre + List.length d))) /\
  (forall fuel data i v t',
     i <= List.length data ->
     _decode_bencode fuel (at_index data i) = Return (v, t') ->
     decode (slice data i (_index t')) = Return v /\
     t' = at_index data (_index t') /\
     i < _index t' <= List.length data).
Proof.
  split.
  - intros d v pre post fuel. apply decode_embedded.
  - intros fuel data i v t'. apply decode_bencode_slice.
Qed.

Lemma value_independent_of_context_witness :
  _decode_bencode 9 (at_index (b "li7e" ++ b "4:spam" ++ b "e") 4)
  = Return (Bytes (b "spam"), at_index (b "li7e4:spame") 10) /\
  decode (slice (b "li7e4:spame") 1 4) = Return (Int 7).
Proof.
  destruct value_independent_of_context as [Hin Hout]. split.
  - apply (Hin (b "4:spam") (Bytes (b "spam")) (b "li7e") (b "e") 9).
    + reflexivity.
    + simpl. lia.
  - apply (Hout 5 (b "li7e4:spame") 1 (Int 7) (at_index (b "li7e4:spame") 4)).
    + simpl. lia.
    + reflexivity.
Defined.

(** X2. [_decode_num] reads decimal notation: on a canonical numeral
    followed by a character that is no digit it returns the value of the
    numeral and moves the cursor by its number of digits; and a number it
    returns was read from such a numeral.  (The interpreter's limit on
    the number of digits [int] converts is outside the model.) *)
Theorem decode_num_reads_decimal :
  (forall ds data i rest fuel,
     canonical ds ->
     skipn i data = digit_bytes ds ++ rest ->
     char_isdigit (first_char rest) = false ->
     List.length ds <= fuel ->
     _decode_num fuel (at_index data i)
     = Return (digits_value ds, at_index data (i + List.length ds))) /\
  (forall data fuel i num t',
     _decode_num fuel (at_index data i) = Return (num, t') ->
     exists ds,
       canonical ds /\
       skipn i data = digit_bytes ds ++ skipn (i + List.length ds) data /\
       num = digits_value ds /\
       t' = at_index data (i + List.length ds)).
Proof.
  split.
  - exact decode_num_digits.
  - intros data fuel i num t' H.
    destruct (decode_num_inv _ _ _ _ _ H) as (ds & H1 & H2 & H3 & H4 & _).
    exists ds. auto.
Qed.

Lemma decode_num_reads_decimal_witness :
  _decode_num 3 (at_index (b "d420:") 1)
  = Return (420%Z, at_index (b "d420:") 4).
Proof.
  destruct decode_num_reads_decimal as [Hread _].
  apply (Hread [4; 2; 0] (b "d420:") 1 (b ":") 3).
  - split; [repeat constructor | exact I].
  - reflexivity.
  - reflexivity.
  - simpl. lia.
Defined.

(** X3. Integers: ["i"], a canonical numeral and ["e"] decode to the
    value of the numeral, and with ["-"] before a numeral other than
    ["0"] to its opposite; every integer is decoded from some buffer; and
    a buffer that decodes to an integer has one of these two forms.  (The
    interpreter's limit on the number of digits [int] converts is outside
    the model.) *)
Theorem integer_forms :
  (forall ds, canonical ds ->
     decode (b "i" ++ digit_bytes ds ++ b "e")
     = Return (Int (digits_value ds))) /\
  (forall ds, canonical ds -> ds <> [0] ->
     decode (b "i-" ++ digit_bytes ds ++ b "e")
     = Return (Int (- digits_value ds))) /\
  (forall z, exists data, decode data = Return (Int z)) /\
  (forall d z, decode d = Return (Int z) ->
     exists ds,
       canonical ds /\
       ((d = b "i" ++ digit_bytes ds ++ b "e" /\ z = digits_value ds) \/
        (d = b "i-" ++ digit_bytes ds ++ b "e" /\
         z = (- digits_value ds)%Z /\ ds <> [0]))).
Proof.
  split; [exact decode_int_of_digits|].
  split; [exact decode_negative_of_digits|].
  split; [exact decode_onto_int | exact decode_int_inv].
Qed.

Lemma integer_forms_witness :
  decode (b "i-" ++ digit_bytes [1; 0; 7] ++ b "e") = Return (Int (-107)).
Proof.
  destruct integer_forms as (_ & Hneg & _).
  apply (Hneg [1; 0; 7]).
  - split; [repeat constructor | exact I].
  - discriminate.
Defined.

(** X4. Byte strings: a canonical numeral, [":"] and as many bytes as
    its value decode to these bytes, whatever they are; every byte string
    is decoded from some buffer; a buffer that decodes to a byte string
    has this form; and in any state [_decode_str], with enough bytes
    after the [":"], returns exactly the declared number of bytes as they
    are in the buffer. *)
Theorem byte_string_forms :
  (forall ds payload,
     canonical ds -> digits_value ds = Z.of_nat (List.length payload) ->
     decode (digit_bytes ds ++ b ":" ++ payload) = Return (Bytes payload)) /\
  (forall payload, exists data, decode data = Return (Bytes payload)) /\
  (forall d payload, decode d = Return (Bytes payload) ->
     exists ds,
       canonical ds /\ digits_value ds = Z.of_nat (List.length payload) /\
       d = digit_bytes ds ++ b ":" ++ payload) /\
  (forall fuel self num s1,
     cursor_ok self ->
     _decode_num fuel self = Return (num, s1) ->
     _char s1 = Some ":"%char ->
     Z.to_nat num < remaining s1 ->
     _decode_str fuel self
     = Return (firstn (Z.to_nat num) (skipn (S (_index s1)) (_data self)),
               at_index (_data self) (S (_index s1) + Z.to_nat num))).
Proof.
  split; [exact decode_str_of|].
  split; [exact decode_onto_bytes|].
  split; [exact decode_bytes_inv | exact decode_str_exact].
Qed.

Lemma byte_string_forms_witness :
  decode (digit_bytes [1; 0] ++ b ":" ++ b "0123456789")
  = Return (Bytes (b "0123456789")).
Proof.
  destruct byte_string_forms as (Hstr & _).
  apply (Hstr [1; 0] (b "0123456789")).
  - split; [repeat constructor | exact I].
  - reflexivity.
Defined.

(** X5. Lists: a buffer that starts with ["l"] decodes to a value
    exactly when the rest is one or more buffers that decode, followed by
    ["e"]; the value is the list of their values in order. *)
Theorem list_forms body v :
  decode (b "l" ++ body) = Return v <->
  exists elems vs,
    elems <> [] /\
    Forall2 (fun d v => decode d = Return v) elems vs /\
    body = List.concat elems ++ b "e" /\ v = BList vs.
Proof.
  split; [apply decode_list_inv|].
  intros (elems & vs & Hne & Hall & -> & ->).
  apply decode_list_of; assumption.
Qed.

Lemma list_forms_witness :
  exists elems vs,
    elems <> [] /\
    Forall2 (fun d v => decode d = Return v) elems vs /\
    b "i1e4:spame" = List.concat elems ++ b "e" /\
    BList [Int 1; Bytes (b "spam")] = BList vs.
Proof.
  apply (proj1 (list_forms (b "i1e4:spame") (BList [Int 1; Bytes (b "spam")]))).
  reflexivity.
Defined.

(** X6. Dictionaries: a buffer that starts with ["d"] decodes to a value
    exactly when the rest is one or more pairs of a buffer that decodes
    to a byte string (the key) and a buffer that decodes (the value),
    followed by ["e"]; the value is the dictionary built by assigning the
    pairs in order. *)
Theorem dict_forms body v :
  decode (b "d" ++ body) = Return v <->
  exists pairs kvs,
    pairs <> [] /\
    Forall2 pair_decodes pairs kvs /\
    body = pairs_bytes pairs ++ b "e" /\ v = BDict (setitems [] kvs).
Proof.
  split; [apply decode_dict_inv|].
  intros (pairs & kvs & Hne & Hall & -> & ->).
  apply decode_dict_of; assumption.
Qed.

Lemma dict_forms_witness :
  exists pairs kvs,
    pairs <> [] /\
    Forall2 pair_decodes pairs kvs /\
    b "1:ai1e1:bi2ee" = pairs_bytes pairs ++ b "e" /\
    BDict [(b "a", Int 1); (b "b", Int 2)] = BDict (setitems [] kvs).
Proof.
  apply (proj1 (dict_forms (b "1:ai1e1:bi2ee")
                  (BDict [(b "a", Int 1); (b "b", Int 2)]))).
  reflexivity.
Defined.

(** X7. In the dictionary decoded from pairs of key and value buffers,
    the keys are in the order in which they first occur, and a lookup
    gives the value of the last pair with the key ([None] for a key that
    does not occur). *)
Theorem dict_keys_and_lookup pairs kvs :
  Forall2 pair_decodes pairs kvs -> pairs <> [] ->
  exists dictionary,
    decode (b "d" ++ pairs_bytes pairs ++ b "e") = Return (BDict dictionary) /\
    map fst dictionary = first_keys (map fst kvs) [] /\
    NoDup (map fst dictionary) /\
    forall key, getitem dictionary key = last_value kvs key None.
Proof.
  intros Hall Hne. exists (setitems [] kvs).
  split; [apply decode_dict_of; assumption|].
  split; [apply (keys_setitems kvs [])|].
  split; [|intro key; apply (getitem_setitems kvs [] key)].
  assert (H : forall acc, NoDup (map fst acc) ->
                NoDup (map fst (setitems acc kvs))).
  { unfold setitems. clear. induction kvs as [|kv kvs IH]; intros acc Hacc;
      [exact Hacc|]. cbn [fold_left]. apply IH, setitem_NoDup, Hacc. }
  apply H. constructor.
Qed.

Lemma dict_keys_and_lookup_witness :
  exists dictionary,
    decode (b "d" ++ pairs_bytes [(b "1:b", b "i1e"); (b "1:a", b "i2e");
                                  (b "1:b", b "i3e")] ++ b "e")
    = Return (BDict dictionary) /\
    map fst dictionary
    = first_keys (map fst [(b "b", Int 1); (b "a", Int 2); (b "b", Int 3)]) [] /\
    NoDup (map fst dictionary) /\
    forall key,
      getitem dictionary key
      = last_value [(b "b", Int 1); (b "a", Int 2); (b "b", Int 3)] key None.
Proof.
  apply dict_keys_and_lookup.
  - repeat constructor.
  - discriminate.
Defined.

(** X8. The values [decode] returns are exactly the well-formed ones:
    every byte string and integer, every non-empty list of such values
    and every non-empty dictionary of distinct keys with such values is
    decoded from some buffer, and nothing else is returned.  (The
    interpreter's limits on the depth of recursion and on the digits of
    [int] are outside the model.) *)
Theorem decode_image v :
  well_formed v <-> exists data, decode data = Return v.
Proof.
  split; [apply decode_onto|].
  intros [data H]. exact (decode_wf _ _ H).
Qed.

Lemma decode_image_witness :
  exists data,
    decode data
    = Return (BDict [(b "k", BList [Int (-5); Bytes (b "xy")])]).
Proof.
  apply (proj1 (decode_image (BDict [(b "k", BList [Int (-5); Bytes (b "xy")])]))).
  simpl. repeat split; try discriminate.
  repeat constructor. intros [].
Defined.

(** X9. The rules against leading zeros and a negative zero make the
    accepted notation unique where there is no dictionary: two buffers
    that decode to the same value with no dictionary inside are equal.
    With a dictionary it is never unique: a buffer that decodes to a
    dictionary has another one that decodes to the same dictionary. *)
Theorem encoding_unique_without_dict :
  (forall v d d',
     dict_free v -> decode d = Return v -> decode d' = Return v -> d = d') /\
  (forall d v, decode d = Return (BDict v) ->
     exists d', d' <> d /\ decode d' = Return (BDict v)).
Proof.
  split.
  - intros v d d' Hfree. apply decode_unique, Hfree.
  - exact dict_duplicate.
Qed.

Lemma encoding_unique_without_dict_witness :
  (b "li3e" ++ b "2:ab" ++ b "e" = b "li3e2:abe") /\
  exists d', d' <> b "d1:ai1ee" /\
             decode d' = Return (BDict [(b "a", Int 1)]).
Proof.
  destruct encoding_unique_without_dict as [Huniq Hdup]. split.
  - apply (Huniq (BList [Int 3; Bytes (b "ab")])).
    + simpl. tauto.
    + reflexivity.
    + reflexivity.
  - apply (Hdup (b "d1:ai1ee")). reflexivity.
Defined.

(** X10. A missing delimiter is reported by [_consume] with the offset
    of the character found instead, which is the number of bytes read so
    far: after the length of a byte string, anything but a digit or
    [":"] (the end of the data included) gives the error that expects
    [":"] at the number of digits; after the numeral of an integer,
    anything but a digit or ["e"] gives the error that expects ["e"], at
    one more than the number of digits when there is no sign and at two
    more after ["-"].  (The interpreter's limit on the number of digits
    [int] converts is outside the model.) *)
Theorem missing_delimiter_position :
  (forall ds rest,
     canonical ds ->
     char_isdigit (first_char rest) = false ->
     char_is (first_char rest) ":" = false ->
     decode (digit_bytes ds ++ rest)
     = Raise (ValueError (Expected ":" (List.length ds) (first_char rest)))) /\
  (forall ds rest,
     canonical ds ->
     char_isdigit (first_char rest) = false ->
     char_is (first_char rest) "e" = false ->
     decode (b "i" ++ digit_bytes ds ++ rest)
     = Raise (ValueError (Expected "e" (S (List.length ds))
                                   (first_char rest)))) /\
  (forall ds rest,
     canonical ds -> ds <> [0] ->
     char_isdigit (first_char rest) = false ->
     char_is (first_char rest) "e" = false ->
     decode (b "i-" ++ digit_bytes ds ++ rest)
     = Raise (ValueError (Expected "e" (S (S (List.length ds)))
                                   (first_char rest)))).
Proof.
  split; [exact decode_str_missing_colon|].
  split; [exact decode_int_missing_e | exact decode_int_minus_missing_e].
Qed.

Lemma missing_delimiter_position_witness :
  decode (digit_bytes [1; 2] ++ b "spam")
  = Raise (ValueError (Expected ":" 2 (Some "s"%char))) /\
  decode (b "i" ++ digit_bytes [4; 2] ++ [])
  = Raise (ValueError (Expected "e" 3 None)) /\
  decode (b "i-" ++ digit_bytes [1; 2] ++ b "x")
  = Raise (ValueError (Expected "e" 4 (Some "x"%char))).
Proof.
  destruct missing_delimiter_position as (Hcolon & He & Hminus).
  split; [|split].
  - apply (Hcolon [1; 2] (b "spam")).
    + split; [repeat constructor | exact I].
    + reflexivity.
    + reflexivity.
  - apply (He [4; 2] []).
    + split; [repeat constructor | exact I].
    + reflexivity.
    + reflexivity.
  - apply (Hminus [1; 2] (b "x")).
    + split; [repeat constructor | exact I].
    + discriminate.
    + reflexivity.
    + reflexivity.
Defined.

(** X11. The key of a dictionary is read by [_decode_str], so it must be
    a byte string: when what follows ["d"] does not start with a digit
    ["0"] to ["9"], the buffer is refused, for its missing digit or, on a
    character that [isdigit] takes for a digit, as not bencoding. *)
Theorem dict_key_must_be_string rest :
  rest <> [] -> char_ascii_digit (first_char rest) = false ->
  decode (b "d" ++ rest)
  = Raise (ValueError (if char_isdigit (first_char rest) then NotBencoding
                       else NoDigit)).
Proof. apply decode_dict_key_not_string. Qed.

Lemma dict_key_must_be_string_witness :
  decode (b "d" ++ b "i1e3:fooe") = Raise (ValueError NoDigit).
Proof.
  apply (dict_key_must_be_string (b "i1e3:fooe")).
  - discriminate.
  - reflexivity.
Defined.

(** X12. The first byte decides the kind of the value: a buffer that
    decodes to a byte string starts with a digit ["0"] to ["9"], to an
    integer with ["i"], to a list with ["l"], to a dictionary with
    ["d"]; and a buffer that starts with any other byte is refused as
    not bencoding. *)
Theorem first_byte_decides_kind :
  (forall x body v, decode (x :: body) = Return v ->
     match v with
     | Bytes _ => ascii_digit (chr x) = true
     | Int _ => chr x = "i"%char
     | BList _ => chr x = "l"%char
     | BDict _ => chr x = "d"%char
     end) /\
  (forall x body,
     ascii_digit (chr x) = false ->
     chr x <> "d"%char -> chr x <> "l"%char -> chr x <> "i"%char ->
     decode (x :: body) = Raise (ValueError NotBencoding)).
Proof.
  split; [exact decode_kind | exact decode_unknown_first_byte].
Qed.

Lemma first_byte_decides_kind_witness :
  chr x6c = "l"%char /\
  decode (xb2 :: b ":ab") = Raise (ValueError NotBencoding).
Proof.
  destruct first_byte_decides_kind as [Hkind Hother]. split.
  - apply (Hkind x6c (b "i1ee") (BList [Int 1])). reflexivity.
  - apply (Hother xb2 (b ":ab")).
    + reflexivity.
    + discriminate.
    + discriminate.
    + discriminate.
Defined.

(** X13. [decode] raises the extra-data error exactly on a buffer that
    decodes followed by more bytes: the buffer then splits into a prefix
    that decodes alone and a non-empty rest. *)
Theorem extra_data_iff_prefix_decodes data :
  decode data = Raise (ValueError ExtraData) <->
  exists prefix extra v,
    data = prefix ++ extra /\ extra <> [] /\ decode prefix = Return v.
Proof.
  split; [apply extra_data_prefix|].
  intros (prefix & extra & v & -> & Hne & H).
  exact (decode_extra _ _ _ H Hne).
Qed.

Lemma extra_data_iff_prefix_decodes_witness :
  exists prefix extra v,
    b "4:spami3e" = prefix ++ extra /\ extra <> [] /\
    decode prefix = Return v.
Proof.
  apply (proj1 (extra_data_iff_prefix_decodes (b "4:spami3e"))).
  reflexivity.
Defined.
